(** * Task queue, stop registry and concurrency limiter of the generation pipeline

    A shallow embedding of
      - [api/core/app/apps/base_app_queue_manager.py]  (AppQueueManager),
      - [api/core/app/features/rate_limiting/rate_limit.py] (RateLimit,
        RateLimitGenerator),
      - [api/core/app/apps/chat/app_generator.py] (ChatAppGenerator._generate_worker),
    together with the properties the specification states about them, and of
    the code around them:
      - [api/services/app_generate_service.py] (AppGenerateService.generate),
      - [api/libs/helper.py] (RateLimiter),
      - [api/core/app/apps/base_app_runner.py] (AppRunner.recalc_llm_max_tokens),
      - [api/core/app/task_pipeline/based_generate_task_pipeline.py]
        (BasedGenerateTaskPipeline._handle_error),
      - [api/controllers/service_api/app/completion.py] (CompletionStopApi.post).

    Conventions.
      - Python exceptions are values carrying their method resolution order;
        a call that may raise returns a [Result].
      - The Redis server is an explicit store that is passed around.
      - Wall-clock readings ([time.time()]) are exact rationals supplied by the
        environment; [float("-inf")] is [None].
      - Key expiry by TTL is not simulated: the TTL given to [setex]/[expire]
        is stored next to the value and never acted upon.
      - Text is ASCII.  [int(text)] is read as CPython reads an ASCII literal;
        the digits and blanks of other scripts, which it accepts as well, and
        its cap on the length of a literal are left out. *)

From Stdlib Require Import ZArith QArith Qround Ascii String List Bool Lia.
From stdpp Require Import base option list strings pretty gmap fin_maps.

Close Scope Q_scope.
Open Scope string_scope.
Open Scope list_scope.
Open Scope Z_scope.

(** ** Exceptions and fallible results *)

(** An exception instance: the names of the classes in its MRO (most derived
    first) and its message. *)
Record PyExc := mkExc { exc_mro : list string; exc_msg : string }.

(** [isinstance(e, cls)] *)
Definition isinstance (e : PyExc) (cls : string) : bool :=
  bool_decide (cls ∈ exc_mro e).

Definition builtin_exception (name msg : string) : PyExc :=
  mkExc [name; "Exception"; "BaseException"] msg.

Definition TypeError := builtin_exception "TypeError".
Definition ValueError := builtin_exception "ValueError".
Definition AttributeError := builtin_exception "AttributeError".
Definition StopIteration := builtin_exception "StopIteration" "".
(** [class GenerateTaskStoppedError(Exception)], base_app_queue_manager.py *)
Definition GenerateTaskStoppedError := builtin_exception "GenerateTaskStoppedError" "".
(** [core.errors.error.AppInvokeQuotaExceededError] *)
Definition AppInvokeQuotaExceededError := builtin_exception "AppInvokeQuotaExceededError".
(** [core.model_runtime.errors.invoke.InvokeAuthorizationError] *)
Definition InvokeAuthorizationError := builtin_exception "InvokeAuthorizationError".

Inductive Result (A : Type) : Type :=
| Ok (a : A)
| Raise (e : PyExc).
Arguments Ok {A} a.
Arguments Raise {A} e.

Definition is_ok {A} (r : Result A) : bool :=
  match r with Ok _ => true | Raise _ => false end.

(** ** Python values as the payload scan sees them *)

(** Any object that is neither a container nor a scalar.  The two flags are
    the two tests of the scan: [isinstance(o, DeclarativeMeta)] and
    [hasattr(o, "_sa_instance_state")]. *)
Record PyObj := mkObj {
  obj_class : string;
  is_declarative_meta : bool;
  has_sa_instance_state : bool
}.

#[warnings="-register-all"]
Inductive PyVal : Type :=
| PyNone
| PyBool (b : bool)
| PyInt (z : Z)
| PyStr (s : string)
| PyDict (items : list (string * PyVal))
| PyList (items : list PyVal)
| PyTuple (items : list PyVal)
| PyExcVal (e : PyExc)
| PyObject (o : PyObj).

(** The leaf test of [_check_for_sqlalchemy_models]:
    [isinstance(data, DeclarativeMeta) or hasattr(data, "_sa_instance_state")].
    Scalars, tuples and exception instances are neither. *)
Definition is_sqlalchemy_handle (data : PyVal) : bool :=
  match data with
  | PyObject o => is_declarative_meta o || has_sa_instance_state o
  | _ => false
  end.

Definition sqlalchemy_error : PyExc :=
  TypeError "Critical Error: Passing SQLAlchemy Model instances that cause thread safety issues is not allowed.".

(** [AppQueueManager._check_for_sqlalchemy_models]: dictionaries are scanned
    value by value, lists item by item, anything else is tested as a leaf. *)
Fixpoint _check_for_sqlalchemy_models (data : PyVal) : Result unit :=
  match data with
  | PyDict items =>
      (fix each_value (l : list (string * PyVal)) : Result unit :=
         match l with
         | [] => Ok tt
         | (_, value) :: rest =>
             match _check_for_sqlalchemy_models value with
             | Ok _ => each_value rest
             | Raise e => Raise e
             end
         end) items
  | PyList items =>
      (fix each_item (l : list PyVal) : Result unit :=
         match l with
         | [] => Ok tt
         | item :: rest =>
             match _check_for_sqlalchemy_models item with
             | Ok _ => each_item rest
             | Raise e => Raise e
             end
         end) items
  | _ => if is_sqlalchemy_handle data then Raise sqlalchemy_error else Ok tt
  end.

(** The payload graph of the scan: a value holds a handle when it is one, or
    when a dictionary value or a list item below it holds one. *)
Inductive holds_handle : PyVal -> Prop :=
| holds_here o :
    is_sqlalchemy_handle (PyObject o) = true -> holds_handle (PyObject o)
| holds_in_dict items k v :
    In (k, v) items -> holds_handle v -> holds_handle (PyDict items)
| holds_in_list items v :
    In v items -> holds_handle v -> holds_handle (PyList items).

(** ** Events *)

Inductive PublishFrom := APPLICATION_MANAGER | TASK_PIPELINE.

(** Modelled from the spec: [core.app.entities.queue_entities] is not among the
    sources.  The kinds are those of the spec's Event data model (chunk,
    message end, annotation reply, file, retriever resources, error, ping,
    stop); an event is its kind and its fields as [model_dump()] returns
    them. *)
Inductive QueueEvent :=
| LLM_CHUNK | MESSAGE_END | ANNOTATION_REPLY | MESSAGE_FILE
| RETRIEVER_RESOURCES | ERROR | PING | STOP.

Definition QueueEvent_value (k : QueueEvent) : string :=
  match k with
  | LLM_CHUNK => "llm_chunk"
  | MESSAGE_END => "message_end"
  | ANNOTATION_REPLY => "annotation_reply"
  | MESSAGE_FILE => "message_file"
  | RETRIEVER_RESOURCES => "retriever_resources"
  | ERROR => "error"
  | PING => "ping"
  | STOP => "stop"
  end.

Record AppQueueEvent := mkEvent {
  event : QueueEvent;
  fields : list (string * PyVal)
}.

Definition model_dump (e : AppQueueEvent) : PyVal :=
  PyDict (("event", PyStr (QueueEvent_value (event e))) :: fields e).

(** [QueueStopEvent.StopBy]: the sources name [USER_MANUAL]; any other reason
    is kept by its text. *)
Inductive StopBy := USER_MANUAL | STOPPED_BY (reason : string).

Definition StopBy_value (s : StopBy) : string :=
  match s with
  | USER_MANUAL => "user-manual"
  | STOPPED_BY reason => reason
  end.

(** [QueueStopEvent(stopped_by=...)], [QueuePingEvent()], [QueueErrorEvent(error=e)] *)
Definition QueueStopEvent (stopped_by : StopBy) : AppQueueEvent :=
  mkEvent STOP [("stopped_by", PyStr (StopBy_value stopped_by))].
Definition QueuePingEvent : AppQueueEvent := mkEvent PING [].
Definition QueueErrorEvent (error : PyExc) : AppQueueEvent :=
  mkEvent ERROR [("error", PyExcVal error)].

(** ** The shared key-value store *)

(** What a string key holds, as the Python value that was written ([redis-py]
    stores its text): a [str] or an [int]. *)
Inductive RVal := RStr (s : string) | RInt (z : Z).

(** [bytes.decode("utf-8")] of a stored value. *)
Definition decode (v : RVal) : string :=
  match v with
  | RStr s => s
  | RInt z => pretty z
  end.

(** [str.isspace()] on ASCII text, and the blanks [int] skips before a
    literal. *)
Fixpoint isspace (text : string) : bool :=
  match text with
  | String c rest => Ascii.is_space c && isspace rest
  | "" => true
  end.

Fixpoint lstrip (text : string) : string :=
  match text with
  | String c rest => if Ascii.is_space c then lstrip rest else text
  | "" => ""
  end.

(** The digits of a base-10 literal, read from the left: single underscores
    may stand between digits, blanks may follow the last digit.  [value] is
    the number read so far, [after_digit] whether the character before was a
    digit.  [None] is the [ValueError]. *)
Fixpoint int_digits (value : Z) (after_digit : bool) (text : string) : option Z :=
  match text with
  | "" => if after_digit then Some value else None
  | String c rest =>
      match Ascii.is_nat c with
      | Some d => int_digits (10 * value + Z.of_nat d) true rest
      | None =>
          if after_digit && bool_decide (c = "_"%char) then int_digits value false rest
          else if after_digit && isspace text then Some value
          else None
      end
  end.

(** [int(text)]: blanks, a sign, the digits. *)
Definition int_ (text : string) : option Z :=
  match lstrip text with
  | String "-" digits => Z.opp <$> int_digits 0 false digits
  | String "+" digits => int_digits 0 false digits
  | digits => int_digits 0 false digits
  end.

(** String keys and hash keys, each with the TTL last given to it.  The key
    templates of the sources never name one key at both types (see
    [key_spaces_disjoint]), which is why two maps stand for one key space. *)
Record Redis := mkRedis {
  kv : gmap string (Z * RVal);
  hashes : gmap string (option Z * gmap string Q)
}.

Module redis_client.

Definition empty : Redis := mkRedis ∅ ∅.

Definition setex (name : string) (time : Z) (value : RVal) (r : Redis) : Redis :=
  mkRedis (<[name := (time, value)]> (kv r)) (hashes r).

Definition get (name : string) (r : Redis) : option RVal :=
  snd <$> kv r !! name.

Definition exists_ (name : string) (r : Redis) : bool :=
  bool_decide (is_Some (kv r !! name)) || bool_decide (is_Some (hashes r !! name)).

Definition expire (name : string) (time : Z) (r : Redis) : Redis :=
  mkRedis (alter (fun e => (time, snd e)) name (kv r))
          (alter (fun e => (Some time, snd e)) name (hashes r)).

Definition hgetall (name : string) (r : Redis) : gmap string Q :=
  match hashes r !! name with
  | Some (_, h) => h
  | None => ∅
  end.

Definition hlen (name : string) (r : Redis) : Z :=
  Z.of_nat (size (hgetall name r)).

Definition hset (name key : string) (value : Q) (r : Redis) : Redis :=
  match hashes r !! name with
  | Some (t, h) => mkRedis (kv r) (<[name := (t, <[key := value]> h)]> (hashes r))
  | None => mkRedis (kv r) (<[name := (None, {[key := value]})]> (hashes r))
  end.

(** [HDEL name key...]; a hash that becomes empty is removed by the server. *)
Definition hdel (name : string) (keys : list string) (r : Redis) : Redis :=
  match hashes r !! name with
  | Some (t, h) =>
      let h' := foldr delete h keys in
      if bool_decide (h' = ∅)
      then mkRedis (kv r) (delete name (hashes r))
      else mkRedis (kv r) (<[name := (t, h')]> (hashes r))
  | None => r
  end.

End redis_client.

(** ** AppQueueManager (base_app_queue_manager.py) *)

(** [core.app.entities.app_invoke_entities.InvokeFrom] *)
Inductive InvokeFrom := SERVICE_API | WEB_APP | EXPLORE | DEBUGGER.

Module AppQueueManager.

(** The instance: its identity and [self._q], the FIFO channel
    ([queue.Queue()], unbounded); [None] is the close sentinel. *)
Record t := mk {
  _task_id : string;
  _user_id : string;
  _invoke_from : InvokeFrom;
  _q : list (option AppQueueEvent)
}.

Definition with_q (q : list (option AppQueueEvent)) (self : t) : t :=
  mk (_task_id self) (_user_id self) (_invoke_from self) q.

Definition _generate_task_belong_cache_key (task_id : string) : string :=
  "generate_task_belong:" +:+ task_id.

Definition _generate_stopped_cache_key (task_id : string) : string :=
  "generate_task_stopped:" +:+ task_id.

(** ["account" if invoke_from in {EXPLORE, DEBUGGER} else "end-user"] *)
Definition user_prefix (invoke_from : InvokeFrom) : string :=
  match invoke_from with
  | EXPLORE | DEBUGGER => "account"
  | _ => "end-user"
  end.

(** [f"{user_prefix}-{user_id}"] *)
Definition belongs_to (invoke_from : InvokeFrom) (user_id : string) : string :=
  user_prefix invoke_from +:+ "-" +:+ user_id.

Definition __init__ (task_id user_id : string) (invoke_from : InvokeFrom) (r : Redis)
  : Result t * Redis :=
  if bool_decide (user_id = "")
  then (Raise (ValueError "user is required"), r)
  else (Ok (mk task_id user_id invoke_from []),
        redis_client.setex (_generate_task_belong_cache_key task_id) 1800
          (RStr (belongs_to invoke_from user_id)) r).

Definition stop_listen (self : t) : t :=
  with_q (_q self ++ [None]) self.

(** Modelled from the spec: [_publish] is abstract here and its
    implementations (the queue managers of the app kinds) are not among the
    sources.  The spec's contract of publish: it "appends an Event to the
    internal channel". *)
Definition _publish (event : AppQueueEvent) (pub_from : PublishFrom) (self : t) : Result t :=
  Ok (with_q (_q self ++ [Some event]) self).

Definition publish (event : AppQueueEvent) (pub_from : PublishFrom) (self : t) : Result t :=
  match _check_for_sqlalchemy_models (model_dump event) with
  | Raise e => Raise e
  | Ok _ => _publish event pub_from self
  end.

Definition publish_error (e : PyExc) (pub_from : PublishFrom) (self : t) : Result t :=
  publish (QueueErrorEvent e) pub_from self.

Definition set_stop_flag (task_id : string) (invoke_from : InvokeFrom) (user_id : string)
    (r : Redis) : Redis :=
  match redis_client.get (_generate_task_belong_cache_key task_id) r with
  | None => r
  | Some result =>
      if bool_decide (decode result ≠ belongs_to invoke_from user_id)
      then r
      else redis_client.setex (_generate_stopped_cache_key task_id) 600 (RInt 1) r
  end.

Definition _is_stopped (self : t) (r : Redis) : bool :=
  bool_decide (is_Some (redis_client.get (_generate_stopped_cache_key (_task_id self)) r)).

(** *** [listen] *)

(** What the environment contributes to one turn of the [while True] loop. *)
Record Poll := mkPoll {
  (** put by producers by the time [self._q.get(timeout=1)] returns *)
  arrived : list (option AppQueueEvent);
  (** put by producers between that and the [finally] block, that is while
      the generator is suspended at [yield] *)
  arrived_late : list (option AppQueueEvent);
  (** [time.time()] as read in the [finally] block *)
  now : Q;
  (** the store as [_is_stopped] reads it *)
  store : Redis
}.

Inductive GeneratorState := Running | Finished | Failed (e : PyExc).

(** The frame of a running [listen()]. *)
Record Listening := mkListening {
  self : t;
  listen_timeout : Z;
  start_time : Q;
  last_ping_time : Z;
  state : GeneratorState
}.

(** The first lines of [listen]: [listen_timeout] is
    [dify_config.APP_MAX_EXECUTION_TIME], [start] the clock at the call. *)
Definition listen (APP_MAX_EXECUTION_TIME : Z) (start : Q) (self : t) : Listening :=
  mkListening self APP_MAX_EXECUTION_TIME start 0 Running.

(** What one turn of the loop shows: the message it yields, and the events
    it passes to [publish] itself. *)
Record Turn := mkTurn {
  yielded : option AppQueueEvent;
  published : list (AppQueueEvent * PublishFrom)
}.

Definition elapsed_time (p : Poll) (l : Listening) : Q :=
  (now p - start_time l)%Q.

(** [elapsed_time >= listen_timeout or self._is_stopped()] *)
Definition stop_due (p : Poll) (l : Listening) : bool :=
  Qle_bool (inject_Z (listen_timeout l)) (elapsed_time p l)
  || _is_stopped (self l) (store p).

(** [elapsed_time // 10] *)
Definition boundary (p : Poll) (l : Listening) : Z :=
  Qfloor (elapsed_time p l / 10).

(** [elapsed_time // 10 > last_ping_time] *)
Definition ping_due (p : Poll) (l : Listening) : bool :=
  last_ping_time l <? boundary p l.

(** [self.publish(event, pub_from)] inside the generator: an exception ends
    the generator, otherwise the call is noted and [k] goes on. *)
Definition publishing (event : AppQueueEvent) (pub_from : PublishFrom)
    (k : Listening -> list (AppQueueEvent * PublishFrom) -> Listening * list (AppQueueEvent * PublishFrom))
    (l : Listening) (done : list (AppQueueEvent * PublishFrom))
  : Listening * list (AppQueueEvent * PublishFrom) :=
  match publish event pub_from (self l) with
  | Ok self' =>
      k (mkListening self' (listen_timeout l) (start_time l) (last_ping_time l) (state l))
        (done ++ [(event, pub_from)])
  | Raise e =>
      (mkListening (self l) (listen_timeout l) (start_time l) (last_ping_time l) (Failed e), done)
  end.

(** The [finally] block; [next] is where control goes after it ([Running]
    for [continue] and for the resumption after [yield], [Finished] for
    [break]). *)
Definition listen_finally (p : Poll) (next : GeneratorState) (l : Listening)
  : Listening * list (AppQueueEvent * PublishFrom) :=
  let heartbeat l1 done :=
    if ping_due p l1
    then publishing QueuePingEvent TASK_PIPELINE
           (fun l2 done2 =>
              (mkListening (self l2) (listen_timeout l2) (start_time l2) (boundary p l2) next, done2))
           l1 done
    else (mkListening (self l1) (listen_timeout l1) (start_time l1) (last_ping_time l1) next, done) in
  if stop_due p l
  then publishing (QueueStopEvent USER_MANUAL) TASK_PIPELINE heartbeat l []
  else heartbeat l [].

Definition receive (q : list (option AppQueueEvent)) (l : Listening) : Listening :=
  mkListening (with_q q (self l)) (listen_timeout l) (start_time l) (last_ping_time l) (state l).

(** One turn of [while True]: [get], then [break] / [yield] / [continue],
    then the [finally] block.  A generator that has returned or raised runs
    no code. *)
Definition listen_poll (p : Poll) (l : Listening) : Listening * Turn :=
  match state l with
  | Running =>
      match _q (self l) ++ arrived p with
      | [] =>
          let '(l', pub) := listen_finally p Running (receive (arrived_late p) l) in
          (l', mkTurn None pub)
      | None :: rest =>
          let '(l', pub) := listen_finally p Finished (receive (rest ++ arrived_late p) l) in
          (l', mkTurn None pub)
      | Some message :: rest =>
          let '(l', pub) := listen_finally p Running (receive (rest ++ arrived_late p) l) in
          (l', mkTurn (Some message) pub)
      end
  | _ => (l, mkTurn None [])
  end.

(** The loop driven through the given turns. *)
Fixpoint listen_run (polls : list Poll) (l : Listening) : Listening * list Turn :=
  match polls with
  | [] => (l, [])
  | p :: polls' =>
      let '(l1, turn) := listen_poll p l in
      let '(l2, turns) := listen_run polls' l1 in
      (l2, turn :: turns)
  end.

(** Everything [listen()] yields over the given turns. *)
Definition yields (turns : list Turn) : list AppQueueEvent :=
  omap yielded turns.

(** A producer publishing a sequence of events. *)
Fixpoint publish_all (events : list (AppQueueEvent * PublishFrom)) (self : t) : Result t :=
  match events with
  | [] => Ok self
  | (event, pub_from) :: rest =>
      match publish event pub_from self with
      | Ok self' => publish_all rest self'
      | Raise e => Raise e
      end
  end.

End AppQueueManager.

(** ** Stateful computations that may raise *)

(** A method body: it runs on a state, returns or raises, and leaves the
    state it reached either way (mutation survives an exception). *)
Definition M (S A : Type) : Type := S -> Result A * S.

Definition ret {S A} (a : A) : M S A := fun s => (Ok a, s).

Definition raise {S A} (e : PyExc) : M S A := fun s => (Raise e, s).

Definition bind {S A B} (m : M S A) (k : A -> M S B) : M S B :=
  fun s =>
    match m s with
    | (Ok a, s') => k a s'
    | (Raise e, s') => (Raise e, s')
    end.

Definition get_state {S} : M S S := fun s => (Ok s, s).
Definition put_state {S} (s : S) : M S unit := fun _ => (Ok tt, s).

Notation "x <- m ;; k" := (bind m (fun x => k))
  (at level 62, m at next level, right associativity).
Notation "m ;;; k" := (bind m (fun _ => k))
  (at level 62, right associativity).

(** Comparison of clock readings. *)
Definition Qltb (a b : Q) : bool := negb (Qle_bool b a).

(** ** RateLimit (rate_limit.py) *)

Module RateLimit.

Definition _MAX_ACTIVE_REQUESTS_KEY (client_id : string) : string :=
  "dify:rate_limit:" +:+ client_id +:+ ":max_active_requests".
Definition _ACTIVE_REQUESTS_KEY (client_id : string) : string :=
  "dify:rate_limit:" +:+ client_id +:+ ":active_requests".
Definition _UNLIMITED_REQUEST_ID : string := "unlimited_request_id".
Definition _REQUEST_MAX_ALIVE_TIME : Z := 10 * 60.
Definition _ACTIVE_REQUESTS_COUNT_FLUSH_INTERVAL : Z := 5 * 60.
(** [timedelta(days=1)] in seconds *)
Definition one_day : Z := 86400.

(** The attributes [__init__] sets once, behind [self.initialized];
    [last_recalculate_time = None] is [float("-inf")]. *)
Record Attrs := mkAttrs {
  client_id : string;
  active_requests_key : string;
  max_active_requests_key : string;
  last_recalculate_time : option Q
}.

(** An instance.  [initialized = None]: [hasattr(self, "initialized")] is
    false and the attributes above do not exist yet. *)
Record t := mk {
  max_active_requests : Z;
  initialized : option Attrs
}.

(** A method runs on its instance and the store. *)
Definition Method (A : Type) : Type := M (t * Redis) A.

Definition disabled (self : t) : bool := max_active_requests self <=? 0.

(** Reading an attribute of [self] that [__init__] has not set. *)
Definition attrs : Method Attrs :=
  fun s =>
    match initialized (fst s) with
    | Some a => (Ok a, s)
    | None => (Raise (AttributeError "'RateLimit' object has no attribute"), s)
    end.

Definition set_last_recalculate_time (now : Q) : Method unit :=
  fun s =>
    match initialized (fst s) with
    | Some a =>
        (Ok tt, (mk (max_active_requests (fst s))
                    (Some (mkAttrs (client_id a) (active_requests_key a)
                                   (max_active_requests_key a) (Some now))),
                 snd s))
    | None => (Raise (AttributeError "'RateLimit' object has no attribute"), s)
    end.

Definition set_max_active_requests (n : Z) : Method unit :=
  fun s => (Ok tt, (mk n (initialized (fst s)), snd s)).

(** A call on [redis_client] that changes the store. *)
Definition redis_do (f : Redis -> Redis) : Method unit :=
  fun s => (Ok tt, (fst s, f (snd s))).

(** A call on [redis_client] that reads the store. *)
Definition redis_ask {A} (f : Redis -> A) : Method A :=
  fun s => (Ok (f (snd s)), s).

(** [int(redis_client.get(key).decode("utf-8"))] *)
Definition get_int (key : string) : Method Z :=
  fun s =>
    match redis_client.get key (snd s) with
    | Some value =>
        match int_ (decode value) with
        | Some z => (Ok z, s)
        | None => (Raise (ValueError "invalid literal for int() with base 10"), s)
        end
    | None => (Raise (AttributeError "'NoneType' object has no attribute 'decode'"), s)
    end.

(** The keys of [request_details] whose request has been alive for more
    than [_REQUEST_MAX_ALIVE_TIME]. *)
Definition timeout_requests (now : Q) (request_details : gmap string Q) : list string :=
  fst <$> filter (fun kv => Qltb (inject_Z _REQUEST_MAX_ALIVE_TIME) (now - snd kv)%Q = true)
                 (map_to_list request_details).

Definition flush_cache (now : Q) (use_local_value : bool) : Method unit :=
  s <- get_state ;;
  if disabled (fst s) then ret tt else
  set_last_recalculate_time now ;;;
  a <- attrs ;;
  key_exists <- redis_ask (redis_client.exists_ (max_active_requests_key a)) ;;
  (if use_local_value || negb key_exists
   then redis_do (redis_client.setex (max_active_requests_key a) one_day
                    (RInt (max_active_requests (fst s))))
   else n <- get_int (max_active_requests_key a) ;; set_max_active_requests n) ;;;
  redis_do (redis_client.expire (max_active_requests_key a) one_day) ;;;
  hash_exists <- redis_ask (redis_client.exists_ (active_requests_key a)) ;;
  if negb hash_exists then ret tt else
  request_details <- redis_ask (redis_client.hgetall (active_requests_key a)) ;;
  redis_do (redis_client.expire (active_requests_key a) one_day) ;;;
  match timeout_requests now request_details with
  | [] => ret tt
  | stale => redis_do (redis_client.hdel (active_requests_key a) stale)
  end.

Definition quota_exceeded (client_id : string) (max_active_requests : Z) : PyExc :=
  AppInvokeQuotaExceededError
    ("Too many requests. Please try again later. The current maximum concurrent requests allowed for "
     +:+ client_id +:+ " is " +:+ pretty max_active_requests +:+ ".").

(** [time.time() - self.last_recalculate_time > _ACTIVE_REQUESTS_COUNT_FLUSH_INTERVAL] *)
Definition flush_is_due (now : Q) (a : Attrs) : bool :=
  match last_recalculate_time a with
  | None => true
  | Some last => Qltb (inject_Z _ACTIVE_REQUESTS_COUNT_FLUSH_INTERVAL) (now - last)%Q
  end.

(** [if not request_id: request_id = RateLimit.gen_request_key()];
    [uuid4] is the key [gen_request_key] would return. *)
Definition request_key (uuid4 : string) (request_id : option string) : string :=
  match request_id with
  | Some id => if bool_decide (id = "") then uuid4 else id
  | None => uuid4
  end.

(** The part of [enter] after the [disabled] test and before the count:
    the lazy refresh. *)
Definition refresh (now : Q) : Method unit :=
  a <- attrs ;;
  if flush_is_due now a then flush_cache now false else ret tt.

Definition enter (now : Q) (uuid4 : string) (request_id : option string) : Method string :=
  s <- get_state ;;
  if disabled (fst s) then ret _UNLIMITED_REQUEST_ID else
  refresh now ;;;
  let request_id := request_key uuid4 request_id in
  a <- attrs ;;
  active_requests_count <- redis_ask (redis_client.hlen (active_requests_key a)) ;;
  s1 <- get_state ;;
  if max_active_requests (fst s1) <=? active_requests_count
  then raise (quota_exceeded (client_id a) (max_active_requests (fst s1)))
  else
    redis_do (redis_client.hset (active_requests_key a) request_id now) ;;;
    ret request_id.

Definition exit (request_id : string) : Method unit :=
  if bool_decide (request_id = _UNLIMITED_REQUEST_ID) then ret tt else
  a <- attrs ;;
  redis_do (redis_client.hdel (active_requests_key a) [request_id]).

(** *** Construction: the per-[client_id] singleton *)

(** The class attribute [_instance_dict] and the store.  An instance is only
    ever reached through [_instance_dict], so a reference to it is its
    [client_id] key and every holder of the reference sees the same
    attributes. *)
Record World := mkWorld {
  _instance_dict : gmap string t;
  redis : Redis
}.

(** [super().__new__(cls)]: an object without attributes.  [__init__]
    assigns [max_active_requests] before anything reads it. *)
Definition blank : t := mk 0 None.

Definition __new__ (client_id : string) (max_active_requests : Z)
    (d : gmap string t) : gmap string t :=
  match d !! client_id with
  | None => <[client_id := blank]> d
  | Some _ => d
  end.

Definition __init__ (now : Q) (client_id : string) (max_active_requests : Z) : Method unit :=
  set_max_active_requests max_active_requests ;;;
  s <- get_state ;;
  if disabled (fst s) then ret tt else
  match initialized (fst s) with
  | Some _ => ret tt
  | None =>
      put_state (mk (RateLimit.max_active_requests (fst s))
                    (Some (mkAttrs client_id (_ACTIVE_REQUESTS_KEY client_id)
                                   (_MAX_ACTIVE_REQUESTS_KEY client_id) None)),
                 snd s) ;;;
      flush_cache now true
  end.

(** A method call through a reference. *)
Definition on_instance {A} (ref : string) (m : Method A) : M World A :=
  fun w =>
    match _instance_dict w !! ref with
    | Some self =>
        let '(res, (self', r')) := m (self, redis w) in
        (res, mkWorld (<[ref := self']> (_instance_dict w)) r')
    | None => (Raise (AttributeError "no such instance"), w)
    end.

(** The expression [RateLimit(client_id, max_active_requests)]: [__new__],
    then [__init__] on what it returned; the value is the reference. *)
Definition construct (now : Q) (client_id : string) (max_active_requests : Z) : M World string :=
  fun w =>
    let w1 := mkWorld (__new__ client_id max_active_requests (_instance_dict w)) (redis w) in
    (on_instance client_id (__init__ now client_id max_active_requests) ;;; ret client_id) w1.

End RateLimit.

(** ** RateLimitGenerator (rate_limit.py) *)

Module RateLimitGenerator.

(** The wrapped generator, as what its successive [next()] calls do: return
    a chunk or raise; when the list is used up it raises [StopIteration]. *)
Definition Generator : Type := list (Result string).

Definition next (g : Generator) : Result string * Generator :=
  match g with
  | [] => (Raise StopIteration, [])
  | Ok chunk :: rest => (Ok chunk, rest)
  | Raise e :: _ => (Raise e, [])
  end.

Record t := mk {
  rate_limit : string;      (** the reference to the limiter *)
  generator : Generator;
  request_id : string;
  closed : bool
}.

Definition __init__ (rate_limit : string) (generator : Generator) (request_id : string) : t :=
  mk rate_limit generator request_id false.

(** [close]: the body sets [self.closed] and then evaluates the expression
    [self.rate_limit.exit], an attribute lookup that calls nothing. *)
Definition close : M (t * RateLimit.World) unit :=
  fun s =>
    let '(self, w) := s in
    if closed self then (Ok tt, s)
    else (Ok tt, (mk (rate_limit self) (generator self) (request_id self) true, w)).

Definition __next__ : M (t * RateLimit.World) string :=
  fun s =>
    let '(self, w) := s in
    if closed self then (Raise StopIteration, s)
    else
      let '(res, g') := next (generator self) in
      let s1 := (mk (rate_limit self) g' (request_id self) (closed self), w) in
      match res with
      | Ok chunk => (Ok chunk, s1)
      | Raise e =>
          if isinstance e "Exception"
          then (Raise e, snd (close s1))
          else (Raise e, s1)
      end.

(** The consumer iterating until the wrapper raises ([for chunk in it]);
    [fuel] bounds the number of [__next__] calls. *)
Fixpoint drain (fuel : nat) (s : t * RateLimit.World)
  : list string * option PyExc * (t * RateLimit.World) :=
  match fuel with
  | O => ([], None, s)
  | S fuel' =>
      match __next__ s with
      | (Ok chunk, s1) =>
          let '(chunks, end_, s2) := drain fuel' s1 in (chunk :: chunks, end_, s2)
      | (Raise e, s1) => ([], Some e, s1)
      end
  end.

End RateLimitGenerator.

(** [RateLimit.generate]: a [Mapping] (the blocking result) is returned as it
    is, a generator is wrapped. *)
Definition generate (rate_limit : string)
    (generator : RateLimitGenerator.Generator + PyVal) (request_id : string)
  : RateLimitGenerator.t + PyVal :=
  match generator with
  | inr mapping => inr mapping
  | inl g => inl (RateLimitGenerator.__init__ rate_limit g request_id)
  end.

(** ** ChatAppGenerator._generate_worker (app_generator.py) *)

Module ChatAppGenerator.

(** The body of the [try]: fetching the conversation and the message and
    [ChatAppRunner().run(...)].  It publishes through the queue manager it
    is given and returns or raises. *)
Definition Work : Type := M AppQueueManager.t unit.

Definition publish_error (e : PyExc) (pub_from : PublishFrom) : M AppQueueManager.t unit :=
  fun queue_manager =>
    match AppQueueManager.publish_error e pub_from queue_manager with
    | Ok queue_manager' => (Ok tt, queue_manager')
    | Raise e' => (Raise e', queue_manager)
    end.

(** The [except] clauses in their order; an exception none of them matches
    leaves the function.  The Flask application context around the [try] and
    [db.session.close()] in its [finally] act on collaborators outside the
    model. *)
Definition handle (e : PyExc) : M AppQueueManager.t unit :=
  if isinstance e "GenerateTaskStoppedError" then ret tt
  else if isinstance e "InvokeAuthorizationError"
  then publish_error (InvokeAuthorizationError "提供的API key不正确") APPLICATION_MANAGER
  else if isinstance e "ValidationError" then publish_error e APPLICATION_MANAGER
  else if isinstance e "ValueError" then publish_error e APPLICATION_MANAGER
  else if isinstance e "Exception" then publish_error e APPLICATION_MANAGER
  else raise e.

Definition _generate_worker (work : Work) : M AppQueueManager.t unit :=
  fun queue_manager =>
    match work queue_manager with
    | (Ok _, queue_manager') => (Ok tt, queue_manager')
    | (Raise e, queue_manager') => handle e queue_manager'
    end.

End ChatAppGenerator.

(** ** The sorted sets of the store *)

(** The sorted-set keys, next to the string and hash keys of [Redis]: per
    key the TTL last given to it and the score of every member.  The only
    sorted sets of the sources are those of [RateLimiter], whose members are
    integers (the server keeps their decimal text). *)
Module redis_sorted_sets.

Definition t : Type := gmap string (option Z * gmap Z Z).

(** The members of a key with their scores; a key that is not there is an
    empty set. *)
Definition zrange (name : string) (z : t) : gmap Z Z :=
  match z !! name with
  | Some (_, members) => members
  | None => ∅
  end.

(** [min <= score <= max], [min = None] being ["-inf"] *)
Definition in_score_range (min : option Z) (max : Z) (score : Z) : bool :=
  match min with
  | Some lo => (lo <=? score) && (score <=? max)
  | None => score <=? max
  end.

(** [ZREMRANGEBYSCORE name min max]; a set that becomes empty is removed by
    the server. *)
Definition zremrangebyscore (name : string) (min : option Z) (max : Z) (z : t) : t :=
  match z !! name with
  | Some (ttl, members) =>
      let members' := filter (fun ms => in_score_range min max (snd ms) = false) members in
      if bool_decide (members' = ∅)
      then delete name z
      else <[name := (ttl, members')]> z
  | None => z
  end.

Definition zcard (name : string) (z : t) : Z :=
  Z.of_nat (size (zrange name z)).

(** [ZADD name score member] *)
Definition zadd (name : string) (member score : Z) (z : t) : t :=
  match z !! name with
  | Some (ttl, members) => <[name := (ttl, <[member := score]> members)]> z
  | None => <[name := (None, {[member := score]})]> z
  end.

Definition expire (name : string) (time : Z) (z : t) : t :=
  alter (fun e => (Some time, snd e)) name z.

End redis_sorted_sets.

(** ** RateLimiter (libs/helper.py) *)

Module RateLimiter.

Record t := mk {
  prefix : string;
  max_attempts : Z;
  time_window : Z
}.

(** [f"{self.prefix}:{email}"] *)
Definition _get_key (self : t) (email : string) : string :=
  prefix self +:+ ":" +:+ email.

(** [current_time] is the reading [int(time.time())].  The value is the
    truth value of [attempts and int(attempts) >= self.max_attempts], which
    is what the callers test. *)
Definition is_rate_limited (current_time : Z) (self : t) (email : string)
  : M redis_sorted_sets.t bool :=
  fun z =>
    let key := _get_key self email in
    let z1 := redis_sorted_sets.zremrangebyscore key None (current_time - time_window self) z in
    let attempts := redis_sorted_sets.zcard key z1 in
    (Ok (negb (attempts =? 0) && (max_attempts self <=? attempts)), z1).

(** [zadd(key, {current_time: current_time})]: the second is member and
    score. *)
Definition increment_rate_limit (current_time : Z) (self : t) (email : string)
  : M redis_sorted_sets.t unit :=
  fun z =>
    let key := _get_key self email in
    (Ok tt, redis_sorted_sets.expire key (time_window self * 2)
              (redis_sorted_sets.zadd key current_time current_time z)).

End RateLimiter.

(** ** AppGenerateService (app_generate_service.py) *)

(** [services.errors.llm.InvokeRateLimitError] *)
Definition InvokeRateLimitError := builtin_exception "InvokeRateLimitError".

Module AppGenerateService.

(** The members of [models.model.AppMode] the service names. *)
Inductive AppMode := COMPLETION | AGENT_CHAT | CHAT | ADVANCED_CHAT | WORKFLOW.

(** What [generate] reads of [app_model]. *)
Record App := mkApp {
  app_id : string;
  app_tenant_id : string;
  app_mode : string;
  app_is_agent : bool;
  app_max_active_requests : option Z
}.

(** What one call takes from outside: the configuration, the values of the
    [AppMode] members ([models.model] is not among the sources), the plan
    the billing service reports, what the app generator of each kind does
    for this request ([X.convert_to_event_stream(X().generate(...))], for
    the workflow kinds after [_get_workflow]), the clock readings and the
    UUIDs in the order they are taken. *)
Record Env := mkEnv {
  BILLING_ENABLED : bool;
  APP_DAILY_RATE_LIMIT : Z;
  AppMode_value : AppMode -> string;
  subscription_plan : Result string;
  app_generator : AppMode -> Result (RateLimitGenerator.Generator + PyVal);
  (** [int(time.time())] in [is_rate_limited] and in [increment_rate_limit] *)
  checked_at : Z;
  incremented_at : Z;
  (** [time.time()] in [RateLimit(...)] and in [enter] *)
  constructed_at : Q;
  entered_at : Q;
  (** [uuid.uuid4()] in [gen_request_key], here and inside [enter] *)
  uuid4 : string;
  uuid4_in_enter : string
}.

Definition system_rate_limiter (env : Env) : RateLimiter.t :=
  RateLimiter.mk "app_daily_rate_limiter" (APP_DAILY_RATE_LIMIT env) 86400.

Definition _get_max_active_requests (app_model : App) : Z :=
  match app_max_active_requests app_model with
  | Some max_active_requests => max_active_requests
  | None => 10
  end.

(** The sorted sets of the daily limiter, and the limiter instances with
    the rest of the store. *)
Definition State : Type := redis_sorted_sets.t * RateLimit.World.

Definition on_sorted_sets {A} (m : M redis_sorted_sets.t A) : M State A :=
  fun s => let '(res, z) := m (fst s) in (res, (z, snd s)).

Definition on_world {A} (m : M RateLimit.World A) : M State A :=
  fun s => let '(res, w) := m (snd s) in (res, (fst s, w)).

(** The [if]/[elif] chain on [app_model.mode], up to the argument of
    [rate_limit.generate]. *)
Definition dispatch (env : Env) (app_model : App)
  : Result (RateLimitGenerator.Generator + PyVal) :=
  if bool_decide (app_mode app_model = AppMode_value env COMPLETION)
  then app_generator env COMPLETION
  else if bool_decide (app_mode app_model = AppMode_value env AGENT_CHAT)
          || app_is_agent app_model
  then app_generator env AGENT_CHAT
  else if bool_decide (app_mode app_model = AppMode_value env CHAT)
  then app_generator env CHAT
  else if bool_decide (app_mode app_model = AppMode_value env ADVANCED_CHAT)
  then app_generator env ADVANCED_CHAT
  else if bool_decide (app_mode app_model = AppMode_value env WORKFLOW)
  then app_generator env WORKFLOW
  else Raise (ValueError ("无效的应用模式 " +:+ app_mode app_model)).

(** The system-level check at the head of [generate]. *)
Definition daily_limit (env : Env) (app_model : App) : M State unit :=
  if BILLING_ENABLED env then
    plan <- (fun s => (subscription_plan env, s)) ;;
    if bool_decide (plan = "sandbox") then
      limited <- on_sorted_sets
                   (RateLimiter.is_rate_limited (checked_at env) (system_rate_limiter env)
                      (app_tenant_id app_model)) ;;
      if limited
      then raise (InvokeRateLimitError
                    ("请求频率超限，请升级订阅计划 或保持每日请求数不超过 "
                     +:+ pretty (APP_DAILY_RATE_LIMIT env)))
      else on_sorted_sets
             (RateLimiter.increment_rate_limit (incremented_at env) (system_rate_limiter env)
                (app_tenant_id app_model))
    else ret tt
  else ret tt.

(** The [try] block: what it returns or raises, and the variable
    [request_id] as the handlers and the [finally] block find it. *)
Definition try_block (env : Env) (app_model : App) (rate_limit request_id : string)
  : State -> Result (RateLimitGenerator.t + PyVal) * string * State :=
  fun s =>
    match on_world
            (RateLimit.on_instance rate_limit
               (RateLimit.enter (entered_at env) (uuid4_in_enter env) (Some request_id))) s with
    | (Raise e, s1) => (Raise e, request_id, s1)
    | (Ok request_id', s1) =>
        match dispatch env app_model with
        | Ok generator => (Ok (generate rate_limit generator request_id'), request_id', s1)
        | Raise e => (Raise e, request_id', s1)
        end
    end.

(** [rate_limit.exit(request_id)] in a handler or in the [finally] block:
    when it returns, [after] is what goes on (the [raise], or what was
    pending); when it raises, that exception takes over. *)
Definition exit_then {A} (rate_limit request_id : string) (after : Result A) : M State A :=
  on_world (RateLimit.on_instance rate_limit (RateLimit.exit request_id)) ;;;
  (fun s => (after, s)).

(** The [try] statement: the block, the [except] clauses in their order,
    the [finally] block. *)
Definition try_statement (env : Env) (app_model : App) (streaming : bool)
    (rate_limit request_id : string) : M State (RateLimitGenerator.t + PyVal) :=
  fun s =>
    let '(res, request_id, s1) := try_block env app_model rate_limit request_id s in
    let '(res1, s2) :=
      match res with
      | Ok _ => (res, s1)
      | Raise e =>
          if isinstance e "RateLimitError"
          then (Raise (InvokeRateLimitError (exc_msg e)), s1)
          else if isinstance e "Exception"
          then exit_then rate_limit request_id (Raise e) s1
          else (Raise e, s1)
      end in
    if streaming then (res1, s2) else exit_then rate_limit request_id res1 s2.

(** [user], [args] and [invoke_from] only go on to the app generator, whose
    outcome [env] holds. *)
Definition generate (env : Env) (app_model : App) (streaming : bool)
  : M State (RateLimitGenerator.t + PyVal) :=
  daily_limit env app_model ;;;
  let max_active_request := _get_max_active_requests app_model in
  rate_limit <- on_world (RateLimit.construct (constructed_at env) (app_id app_model)
                            max_active_request) ;;
  let request_id := uuid4 env in
  try_statement env app_model streaming rate_limit request_id.

End AppGenerateService.

(** ** AppRunner.recalc_llm_max_tokens (base_app_runner.py) *)

Module AppRunner.

(** What the method reads of a parameter rule of the model schema. *)
Record ParameterRule := mkRule {
  name : string;
  use_template : option string
}.

(** [parameter_rule.name == "max_tokens" or (parameter_rule.use_template
    and parameter_rule.use_template == "max_tokens")] *)
Definition names_max_tokens (parameter_rule : ParameterRule) : bool :=
  bool_decide (name parameter_rule = "max_tokens")
  || match use_template parameter_rule with
     | Some template => negb (bool_decide (template = "")) && bool_decide (template = "max_tokens")
     | None => false
     end.

(** Python's [a or b] on what [dict.get] returns for an integer parameter:
    [None] and [0] are false. *)
Definition or_ (a b : option Z) : option Z :=
  match a with
  | Some z => if z =? 0 then b else a
  | None => b
  end.

(** [(parameters.get(rule.name) or parameters.get(rule.use_template or "")) or 0] *)
Definition configured (parameters : gmap string Z) (parameter_rule : ParameterRule) : Z :=
  default 0 (or_ (or_ (parameters !! name parameter_rule)
                      (parameters !! default "" (use_template parameter_rule)))
                 (Some 0)).

(** The first loop: [max_tokens] as the rules and the parameters give it. *)
Definition max_tokens_of (parameter_rules : list ParameterRule) (parameters : gmap string Z) : Z :=
  foldl (fun max_tokens parameter_rule =>
           if names_max_tokens parameter_rule
           then configured parameters parameter_rule
           else max_tokens)
        0 parameter_rules.

(** [context_size] is [model_properties.get(ModelPropertyKey.CONTEXT_SIZE)],
    [prompt_tokens] what [get_llm_num_tokens(prompt_messages)] returns.
    The method returns [-1] or nothing; [model_config.parameters] is
    updated in place. *)
Definition recalc_llm_max_tokens (context_size : option Z)
    (parameter_rules : list ParameterRule) (prompt_tokens : Z) (parameters : gmap string Z)
  : option Z * gmap string Z :=
  let max_tokens := max_tokens_of parameter_rules parameters in
  match context_size with
  | None => (Some (-1), parameters)
  | Some model_context_tokens =>
      if model_context_tokens <? prompt_tokens + max_tokens
      then
        let max_tokens := Z.max (model_context_tokens - prompt_tokens) 16 in
        (None,
         foldl (fun parameters parameter_rule =>
                  if names_max_tokens parameter_rule
                  then <[name parameter_rule := max_tokens]> parameters
                  else parameters)
               parameters parameter_rules)
      else (None, parameters)
  end.

End AppRunner.

(** ** BasedGenerateTaskPipeline._handle_error (based_generate_task_pipeline.py) *)

Module BasedGenerateTaskPipeline.

(** The two columns of [models.model.Message] the method writes. *)
Record Message := mkMessage {
  status : string;
  error : option string
}.

(** [Exception(message)] *)
Definition Exception_ (message : string) : PyExc := mkExc ["Exception"; "BaseException"] message.

Section with_attributes.

(** The attribute [description] of an exception instance: [None] when the
    instance has none, [Some None] when it is [None], the text otherwise.
    The classes that define it are not among the sources. *)
Variable description : PyExc -> option (option string).

Definition _error_to_desc (e : PyExc) : string :=
  if isinstance e "QuotaExceededError"
  then "您的DIFY托管模型提供商配额已用完。请前往设置->模型提供商完成自己的提供商凭证配置。"
  else
    let message :=
      match description e with
      | Some attribute => attribute
      | None => Some (exc_msg e)
      end in
    match message with
    | Some text => if bool_decide (text = "") then "内部服务器错误，请联系技术支持。" else text
    | None => "内部服务器错误，请联系技术支持。"
    end.

(** [session] is the table of messages by id when a session is given;
    [message_id = ""] when none is given. *)
Definition _handle_error (e : PyExc) (session : option (gmap string Message))
    (message_id : string) : PyExc * option (gmap string Message) :=
  let err :=
    if isinstance e "InvokeAuthorizationError"
    then InvokeAuthorizationError "提供的API密钥不正确"
    else if isinstance e "InvokeError" || isinstance e "ValueError"
    then e
    else Exception_ (match description e with
                     | Some (Some text) => text
                     | _ => exc_msg e
                     end) in
  match session with
  | None => (err, session)
  | Some messages =>
      if bool_decide (message_id = "") then (err, session) else
      match messages !! message_id with
      | None => (err, session)
      | Some message =>
          let err_desc := _error_to_desc err in
          (err, Some (<[message_id := mkMessage "error" (Some err_desc)]> messages))
      end
  end.

End with_attributes.

End BasedGenerateTaskPipeline.

(** ** CompletionStopApi.post (controllers/service_api/app/completion.py) *)

(** [controllers.service_api.app.error.AppUnavailableError] *)
Definition AppUnavailableError := builtin_exception "AppUnavailableError" "".

Module CompletionStopApi.

(** [app_mode] is [app_model.mode], [end_user_id] is [end_user.id]; the
    value is the body and the status of the response. *)
Definition post (app_mode end_user_id task_id : string) : M Redis (PyVal * Z) :=
  if bool_decide (app_mode <> "completion")
  then raise AppUnavailableError
  else
    fun r =>
      (Ok (PyDict [("result", PyStr "success")], 200),
       AppQueueManager.set_stop_flag task_id SERVICE_API end_user_id r).

End CompletionStopApi.

(** * The vocabulary of the properties *)

(** ** Induction over values *)

(** Induction over values that reaches below dictionaries, lists and tuples. *)
Section PyVal_induction.
Variable P : PyVal -> Prop.
Hypothesis P_none : P PyNone.
Hypothesis P_bool : forall b, P (PyBool b).
Hypothesis P_int : forall z, P (PyInt z).
Hypothesis P_str : forall s, P (PyStr s).
Hypothesis P_dict : forall items, Forall (fun kv => P (snd kv)) items -> P (PyDict items).
Hypothesis P_list : forall items, Forall P items -> P (PyList items).
Hypothesis P_tuple : forall items, Forall P items -> P (PyTuple items).
Hypothesis P_exc : forall e, P (PyExcVal e).
Hypothesis P_object : forall o, P (PyObject o).

Fixpoint PyVal_nested_ind (v : PyVal) : P v :=
  match v with
  | PyNone => P_none
  | PyBool b => P_bool b
  | PyInt z => P_int z
  | PyStr s => P_str s
  | PyDict items =>
      P_dict items
        ((fix below (l : list (string * PyVal)) : Forall (fun kv => P (snd kv)) l :=
            match l with
            | [] => List.Forall_nil _
            | kv :: rest => List.Forall_cons _ kv rest (PyVal_nested_ind (snd kv)) (below rest)
            end) items)
  | PyList items =>
      P_list items
        ((fix below (l : list PyVal) : Forall P l :=
            match l with
            | [] => List.Forall_nil _
            | x :: rest => List.Forall_cons _ x rest (PyVal_nested_ind x) (below rest)
            end) items)
  | PyTuple items =>
      P_tuple items
        ((fix below (l : list PyVal) : Forall P l :=
            match l with
            | [] => List.Forall_nil _
            | x :: rest => List.Forall_cons _ x rest (PyVal_nested_ind x) (below rest)
            end) items)
  | PyExcVal e => P_exc e
  | PyObject o => P_object o
  end.
End PyVal_induction.

(** ** The payload of an event *)

(** A live handle to a storage record: an instance of [DeclarativeMeta], or
    an object that carries [_sa_instance_state]. *)
Definition storage_handle (v : PyVal) : Prop :=
  exists o, v = PyObject o /\
    (is_declarative_meta o = true \/ has_sa_instance_state o = true).

(** [v] is at a position of [data] below dictionaries and lists only: [data]
    itself, a dictionary value, a list item, and so on below those. *)
Inductive below_dicts_and_lists : PyVal -> PyVal -> Prop :=
| at_the_top v : below_dicts_and_lists v v
| below_a_value items k x v :
    In (k, x) items -> below_dicts_and_lists x v -> below_dicts_and_lists (PyDict items) v
| below_an_item items x v :
    In x items -> below_dicts_and_lists x v -> below_dicts_and_lists (PyList items) v.

(** [v] is anywhere in [data]: the positions below tuples are counted too. *)
Inductive contains : PyVal -> PyVal -> Prop :=
| contains_itself v : contains v v
| contains_in_value items k x v :
    In (k, x) items -> contains x v -> contains (PyDict items) v
| contains_in_item items x v :
    In x items -> contains x v -> contains (PyList items) v
| contains_in_member items x v :
    In x items -> contains x v -> contains (PyTuple items) v.

(** ** The channel and the turns of [listen] *)

Section listen_vocabulary.
Import AppQueueManager.

(** The channel entries of published events. *)
Definition queued (events : list (AppQueueEvent * PublishFrom)) : list (option AppQueueEvent) :=
  map (fun x => Some (fst x)) events.

(** What the [finally] block of a turn publishes. *)
Definition finally_events (p : Poll) (l : Listening) : list (AppQueueEvent * PublishFrom) :=
  (if stop_due p l then [(QueueStopEvent USER_MANUAL, TASK_PIPELINE)] else [])
  ++ (if ping_due p l then [(QueuePingEvent, TASK_PIPELINE)] else []).

Definition is_running (l : Listening) : bool :=
  match state l with Running => true | _ => false end.

(** The manager as one turn leaves it right after [get]: the head of the
    channel is taken, late arrivals are in. *)
Definition after_get (p : Poll) (l : Listening) : t :=
  with_q (tail (_q (self l) ++ arrived p) ++ arrived_late p) (self l).

(** Everything that enters the channel while the generator runs over the
    given turns: what the producers put and what the loop publishes itself,
    in channel order. *)
Fixpoint entered (polls : list Poll) (l : Listening) : list (option AppQueueEvent) :=
  match polls with
  | [] => []
  | p :: polls' =>
      if is_running l
      then arrived p ++ arrived_late p
           ++ queued (published (snd (listen_poll p l)))
           ++ entered polls' (fst (listen_poll p l))
      else []
  end.

Definition is_ping (x : AppQueueEvent * PublishFrom) : bool :=
  match event (fst x) with PING => true | _ => false end.

(** The number of [QueuePingEvent]s a turn publishes. *)
Definition heartbeats (turn : Turn) : nat :=
  length (filter (fun x => is_ping x = true) (published turn)).

(** The turn with another view of the store. *)
Definition with_store (r : Redis) (p : Poll) : Poll :=
  mkPoll (arrived p) (arrived_late p) (now p) r.

End listen_vocabulary.

(** ** The limiter *)

Section limiter_vocabulary.
Import RateLimit.

(** The attributes after [self.last_recalculate_time = time.time()]. *)
Definition touch (now : Q) (a : Attrs) : Attrs :=
  mkAttrs (client_id a) (active_requests_key a) (max_active_requests_key a) (Some now).

(** The attributes are in place, the ceiling key is a string key, and the
    ceiling in the store, when there is one, is the ceiling in memory. *)
Definition coherent (self : t) (r : Redis) : Prop :=
  exists a, initialized self = Some a /\
    hashes r !! max_active_requests_key a = None /\
    active_requests_key a <> max_active_requests_key a /\
    (forall v, redis_client.get (max_active_requests_key a) r = Some v ->
               v = RInt (max_active_requests self)).

(** The number a string key holds, as [get_int] reads it. *)
Definition stored_int (key : string) (r : Redis) : option Z :=
  redis_client.get key r ≫= fun value => int_ (decode value).

End limiter_vocabulary.

(** ** Concrete inputs *)

(** The spec's scenario: two chunks and the end of the message. *)
Definition hello_events : list (AppQueueEvent * PublishFrom) :=
  [(mkEvent LLM_CHUNK [("index", PyInt 0); ("delta_text", PyStr "Hel")], APPLICATION_MANAGER);
   (mkEvent LLM_CHUNK [("index", PyInt 1); ("delta_text", PyStr "lo")], APPLICATION_MANAGER);
   (mkEvent MESSAGE_END [("usage", PyDict [("total_tokens", PyInt 5)]);
                         ("full_text", PyStr "Hello")], APPLICATION_MANAGER)].

Definition hello_queue : AppQueueManager.t :=
  AppQueueManager.mk "task" "user" SERVICE_API [].

(** A turn at the given time in which no producer puts anything and no flag
    is set. *)
Definition quiet_poll (now : Q) : AppQueueManager.Poll :=
  AppQueueManager.mkPoll [] [] now redis_client.empty.

(** A running listener with a maximum execution time of 5, started at 0. *)
Definition quiet_listener (q : list (option AppQueueEvent)) : AppQueueManager.Listening :=
  AppQueueManager.mkListening (AppQueueManager.mk "task" "user" SERVICE_API q)
    5 0 0 AppQueueManager.Running.

Definition late_poll : AppQueueManager.Poll := quiet_poll 5.

(** The spec's scenario: task ["X"] registered under ["end-user-u2"], and a
    stop request of user ["u1"] through the service API. *)
Definition registry_of_X : Redis :=
  snd (AppQueueManager.__init__ "X" "u2" SERVICE_API redis_client.empty).

(** A limiter for ["app"] with ceiling 2, set up at time 0. *)
Definition app_attrs : RateLimit.Attrs :=
  RateLimit.mkAttrs "app" (RateLimit._ACTIVE_REQUESTS_KEY "app")
    (RateLimit._MAX_ACTIVE_REQUESTS_KEY "app") (Some 0%Q).

Definition app_limiter : RateLimit.t := RateLimit.mk 2 (Some app_attrs).

Definition app_world : RateLimit.World :=
  snd (RateLimit.construct 0 "app" 2 (RateLimit.mkWorld ∅ redis_client.empty)).

(** A limiter for client ["app"] with ceiling 1 that has admitted
    ["request-1"] at time 1. *)
Definition one_slot_taken : RateLimit.World :=
  snd (RateLimit.on_instance "app" (RateLimit.enter 1 "uuid-1" (Some "request-1"))
         (snd (RateLimit.construct 0 "app" 1 (RateLimit.mkWorld ∅ redis_client.empty)))).

Definition members (w : RateLimit.World) : gmap string Q :=
  redis_client.hgetall (RateLimit._ACTIVE_REQUESTS_KEY "app") (RateLimit.redis w).

(** The stream of ["request-1"], wrapped as [RateLimit.generate] wraps a
    generator, next to the world it runs in. *)
Definition wrap (g : RateLimitGenerator.Generator) : RateLimitGenerator.t * RateLimit.World :=
  (RateLimitGenerator.__init__ "app" g "request-1", one_slot_taken).

(** A message record of the database, an event that carries it in a list of
    dictionaries, and an event that carries it in a tuple. *)
Definition message_record : PyObj := mkObj "Message" false true.

Definition event_with_record : AppQueueEvent :=
  mkEvent RETRIEVER_RESOURCES
    [("retriever_resources", PyList [PyDict [("message", PyObject message_record)]])].

Definition event_with_record_in_tuple : AppQueueEvent :=
  mkEvent MESSAGE_FILE [("message_file", PyTuple [PyStr "image"; PyObject message_record])].

(** [SystemExit], which derives from [BaseException] directly, and a worker
    body that raises it ([sys.exit()]). *)
Definition SystemExit : PyExc := mkExc ["SystemExit"; "BaseException"] "".

Definition exiting_work : ChatAppGenerator.Work :=
  fun queue_manager => (Raise SystemExit, queue_manager).

(** A worker body that raises. *)
Definition failing_work : ChatAppGenerator.Work :=
  fun queue_manager => (Raise (ValueError "query is required"), queue_manager).

(** ** The records of the limiter across calls *)

(** No hash of the first store has a member that the second lacks. *)
Definition shrinks (r' r : Redis) : Prop :=
  forall name, redis_client.hgetall name r' ⊆ redis_client.hgetall name r.

(** The store after [exit request_id] on an instance. *)
Definition released (request_id : string) (self : RateLimit.t) (r : Redis) : Redis :=
  if bool_decide (request_id = RateLimit._UNLIMITED_REQUEST_ID) then r else
  match RateLimit.initialized self with
  | Some a => redis_client.hdel (RateLimit.active_requests_key a) [request_id] r
  | None => r
  end.

(** An exception that the [except Exception] clause of the service handles:
    an [Exception] that is no [RateLimitError]. *)
Definition plain_exception (e : PyExc) : Prop :=
  isinstance e "Exception" = true /\ isinstance e "RateLimitError" = false.

(** The records of a hash that are not stale at [now]. *)
Definition fresh_records (now : Q) (request_details : gmap string Q) : gmap string Q :=
  filter (fun kv => Qltb (inject_Z RateLimit._REQUEST_MAX_ALIVE_TIME) (now - snd kv)%Q = false)
         request_details.

(** ** The wrapped stream *)

Section stream_vocabulary.
Import RateLimitGenerator.

(** The chunks a generator yields before it ends. *)
Fixpoint chunks_of (g : Generator) : list string :=
  match g with
  | Ok chunk :: rest => chunk :: chunks_of rest
  | _ => []
  end.

(** The exception a generator ends with: the one it raises, or
    [StopIteration] when it is used up. *)
Fixpoint end_of (g : Generator) : PyExc :=
  match g with
  | [] => StopIteration
  | Ok _ :: rest => end_of rest
  | Raise e :: _ => e
  end.

End stream_vocabulary.

(** ** The channel up to its sentinel *)

(** The messages of a channel ahead of its first close sentinel. *)
Fixpoint ahead_of_sentinel (q : list (option AppQueueEvent)) : list AppQueueEvent :=
  match q with
  | Some message :: rest => message :: ahead_of_sentinel rest
  | _ => []
  end.

(** ** Calls on a RateLimiter *)

(** The two methods, with the second each of them reads. *)
Inductive LimiterCall := Check (current_time : Z) | Increment (current_time : Z).

Definition limiter_call (self : RateLimiter.t) (email : string) (c : LimiterCall)
    (z : redis_sorted_sets.t) : redis_sorted_sets.t :=
  match c with
  | Check current_time => snd (RateLimiter.is_rate_limited current_time self email z)
  | Increment current_time => snd (RateLimiter.increment_rate_limit current_time self email z)
  end.

(** The store after the calls, made in their order. *)
Definition limiter_calls (self : RateLimiter.t) (email : string) (calls : list LimiterCall)
    (z : redis_sorted_sets.t) : redis_sorted_sets.t :=
  foldl (fun z c => limiter_call self email c z) z calls.

(** The seconds at which [increment_rate_limit] was called. *)
Definition increments (calls : list LimiterCall) : list Z :=
  omap (fun c => match c with Increment s => Some s | Check _ => None end) calls.

(** The seconds with an increment that lie inside the window that ends at
    [current_time]. *)
Definition seconds_in_window (self : RateLimiter.t) (current_time : Z) (calls : list LimiterCall)
  : gset Z :=
  list_to_set (filter (fun s => current_time - RateLimiter.time_window self < s)
                      (increments calls)).

(** What the sorted set of the key holds with respect to a later reading
    [current_time]: members are seconds at which an increment came, each
    with itself as score, and none of those inside the window is missing. *)
Definition window_kept (self : RateLimiter.t) (email : string) (current_time : Z)
    (seconds : list Z) (z : redis_sorted_sets.t) : Prop :=
  (forall member score,
     redis_sorted_sets.zrange (RateLimiter._get_key self email) z !! member = Some score ->
     score = member /\ member ∈ seconds) /\
  (forall member, member ∈ seconds -> current_time - RateLimiter.time_window self < member ->
     redis_sorted_sets.zrange (RateLimiter._get_key self email) z !! member = Some member).

(** The stores that differ at most in the hash [active] and in the string
    key [ceiling]. *)
Definition same_elsewhere (active ceiling : string) (r' r : Redis) : Prop :=
  (forall name, name <> active -> redis_client.hgetall name r' = redis_client.hgetall name r) /\
  (forall name, name <> ceiling -> redis_client.get name r' = redis_client.get name r).

(** ** More concrete inputs *)

(** Two records of the limiter of ["app"], entered at 0 and at 900. *)
Definition two_records : Redis :=
  redis_client.hset (RateLimit._ACTIVE_REQUESTS_KEY "app") "new" 900
    (redis_client.hset (RateLimit._ACTIVE_REQUESTS_KEY "app") "old" 0
       (RateLimit.redis app_world)).

(** The limiter of ["app"] after its ceiling in memory has been set to 5,
    and its store after another writer has set the ceiling there to the
    text ["7"]. *)
Definition raised_limiter : RateLimit.t := RateLimit.mk 5 (Some app_attrs).

Definition ceiling_as_text : Redis :=
  redis_client.setex (RateLimit._MAX_ACTIVE_REQUESTS_KEY "app") RateLimit.one_day (RStr "7")
    (RateLimit.redis app_world).

(** A stream that breaks after its first chunk. *)
Definition broken_stream : RateLimitGenerator.Generator :=
  [Ok "Hel"; Raise (ValueError "boom")].

(** The turns and the listener of the spec's scenario. *)
Definition hello_polls : list AppQueueManager.Poll :=
  [quiet_poll 1; quiet_poll 2; quiet_poll 3; quiet_poll 4; quiet_poll 30].

Definition hello_listener : AppQueueManager.Listening :=
  AppQueueManager.listen 1200 0
    (AppQueueManager.stop_listen (AppQueueManager.with_q (queued hello_events) hello_queue)).

(** A limiter of three attempts a day, and three attempts of which two fall
    into the same second. *)
Definition daily_limiter : RateLimiter.t := RateLimiter.mk "app_daily_rate_limiter" 3 86400.

Definition three_attempts : list LimiterCall :=
  [Check 5; Increment 5; Check 5; Increment 5; Check 6; Increment 6].

(** A chat app without a ceiling of its own, of a sandbox tenant, and a
    request whose app generator streams two chunks. *)
Definition mode_names (app_mode : AppGenerateService.AppMode) : string :=
  match app_mode with
  | AppGenerateService.COMPLETION => "completion"
  | AppGenerateService.AGENT_CHAT => "agent-chat"
  | AppGenerateService.CHAT => "chat"
  | AppGenerateService.ADVANCED_CHAT => "advanced-chat"
  | AppGenerateService.WORKFLOW => "workflow"
  end.

Definition chat_app : AppGenerateService.App :=
  AppGenerateService.mkApp "app" "tenant" "chat" false None.

Definition chat_env : AppGenerateService.Env :=
  AppGenerateService.mkEnv true 2 mode_names (Ok "sandbox")
    (fun _ => Ok (inl [Ok "Hel"; Ok "lo"])) 100 100 100 101 "uuid-1" "uuid-2".

Definition fresh_state : AppGenerateService.State :=
  (∅, RateLimit.mkWorld ∅ redis_client.empty).

(** A model whose context of 4096 tokens a prompt of 4000 tokens nearly
    fills, configured for 512 tokens of output. *)
Definition max_tokens_rule : list AppRunner.ParameterRule :=
  [AppRunner.mkRule "temperature" None; AppRunner.mkRule "max_tokens" None].

Definition configured_512 : gmap string Z := {["max_tokens" := 512]}.

(** A listener of the task ["X"], and a turn that reads the store after
    the owner's stop request from the web app. *)
Definition listener_of_X : AppQueueManager.Listening :=
  AppQueueManager.listen 1200 0 (AppQueueManager.mk "X" "u2" SERVICE_API []).

Definition poll_after_stop : AppQueueManager.Poll :=
  AppQueueManager.mkPoll [] [] 1 (AppQueueManager.set_stop_flag "X" WEB_APP "u2" registry_of_X).

(** A worker body that fails with the provider's authorization error. *)
Definition unauthorized_work : ChatAppGenerator.Work :=
  fun queue_manager =>
    (Raise (InvokeAuthorizationError "Incorrect API key provided: sk-test"), queue_manager).

(** * Properties *)

(** ** The payload scan *)

Lemma check_result (data : PyVal) :
  _check_for_sqlalchemy_models data = Ok tt \/
  _check_for_sqlalchemy_models data = Raise sqlalchemy_error.
Proof.
  induction data using PyVal_nested_ind; simpl; auto.
  - induction H as [|[k v] rest [Hv|Hv] _ IH]; simpl in *; auto; rewrite Hv; auto.
  - induction H as [|v rest [Hv|Hv] _ IH]; simpl in *; auto; rewrite Hv; auto.
  - destruct (is_declarative_meta o || has_sa_instance_state o); auto.
Qed.

Lemma check_dict_ok (items : list (string * PyVal)) :
  _check_for_sqlalchemy_models (PyDict items) = Ok tt <->
  (forall k v, In (k, v) items -> _check_for_sqlalchemy_models v = Ok tt).
Proof.
  induction items as [|[k v] rest IH]; simpl.
  - split; [intros _ ? ? [] | reflexivity].
  - destruct (check_result v) as [Hv|Hv]; rewrite Hv.
    + simpl in IH. rewrite IH. split.
      * intros Hrest k' v' [Heq|Hin]; [inversion Heq; subst; exact Hv | eauto].
      * intros Hall k' v' Hin. eauto.
    + split; [discriminate|].
      intros Hall. rewrite (Hall k v) in Hv by auto. discriminate.
Qed.

Lemma check_list_ok (items : list PyVal) :
  _check_for_sqlalchemy_models (PyList items) = Ok tt <->
  (forall v, In v items -> _check_for_sqlalchemy_models v = Ok tt).
Proof.
  induction items as [|v rest IH]; simpl.
  - split; [intros _ ? [] | reflexivity].
  - destruct (check_result v) as [Hv|Hv]; rewrite Hv.
    + simpl in IH. rewrite IH. split.
      * intros Hrest v' [Heq|Hin]; [subst; exact Hv | eauto].
      * intros Hall v' Hin. eauto.
    + split; [discriminate|].
      intros Hall. rewrite (Hall v) in Hv by auto. discriminate.
Qed.

(** The scan passes exactly the values whose payload graph holds no handle. *)
Lemma check_ok_iff (data : PyVal) :
  _check_for_sqlalchemy_models data = Ok tt <-> ~ holds_handle data.
Proof.
  induction data using PyVal_nested_ind;
    try (simpl; split; [intros _ Hh; inversion Hh | reflexivity]).
  - rewrite check_dict_ok. rewrite List.Forall_forall in H. split.
    + intros Hall Hh. inversion Hh as [|items' k v Hin Hv|]; subst.
      apply (H (k, v)) in Hv; [exact Hv | exact Hin | eauto].
    + intros Hno k v Hin. apply (H (k, v) Hin). intros Hv.
      apply Hno. econstructor; eauto.
  - rewrite check_list_ok. rewrite List.Forall_forall in H. split.
    + intros Hall Hh. inversion Hh as [| |items' v Hin Hv]; subst.
      apply (H v) in Hv; [exact Hv | exact Hin | eauto].
    + intros Hno v Hin. apply (H v Hin). intros Hv.
      apply Hno. econstructor; eauto.
  - simpl. destruct (is_declarative_meta o || has_sa_instance_state o) eqn:Hf; split.
    + discriminate.
    + intros Hno. exfalso. apply Hno. constructor. exact Hf.
    + intros _ Hh. inversion Hh as [o' Hf'| |]; subst. simpl in Hf'. congruence.
    + reflexivity.
Qed.

Lemma check_raise_holds (data : PyVal) :
  _check_for_sqlalchemy_models data = Raise sqlalchemy_error -> holds_handle data.
Proof.
  induction data using PyVal_nested_ind; simpl; try discriminate.
  - induction H as [|[k v] rest Hv _ IH]; simpl in *; [discriminate|].
    destruct (check_result v) as [Hok|Hraise].
    + rewrite Hok. intros Hrest. apply IH in Hrest.
      inversion Hrest as [|items' k' v' Hin Hh|]; subst.
      apply holds_in_dict with k' v'; [right; exact Hin | exact Hh].
    + intros _. apply holds_in_dict with k v; [left; reflexivity | auto].
  - induction H as [|v rest Hv _ IH]; simpl in *; [discriminate|].
    destruct (check_result v) as [Hok|Hraise].
    + rewrite Hok. intros Hrest. apply IH in Hrest.
      inversion Hrest as [| |items' v' Hin Hh]; subst.
      apply holds_in_list with v'; [right; exact Hin | exact Hh].
    + intros _. apply holds_in_list with v; [left; reflexivity | auto].
  - destruct (is_declarative_meta o || has_sa_instance_state o) eqn:Hf; [|discriminate].
    intros _. constructor. exact Hf.
Qed.

Lemma check_raises_iff (data : PyVal) :
  _check_for_sqlalchemy_models data = Raise sqlalchemy_error <-> holds_handle data.
Proof.
  split; [apply check_raise_holds|].
  intros Hh. destruct (check_result data) as [Hok|Hraise]; [|exact Hraise].
  apply check_ok_iff in Hok. contradiction.
Qed.

(** ** publish *)

Section publish_properties.
Import AppQueueManager.

Lemma publish_clean (event : AppQueueEvent) (pub_from : PublishFrom) (self : t) :
  ~ holds_handle (model_dump event) ->
  publish event pub_from self = Ok (with_q (_q self ++ [Some event]) self).
Proof.
  intros Hno. apply check_ok_iff in Hno. unfold publish. rewrite Hno. reflexivity.
Qed.

Lemma publish_handle (event : AppQueueEvent) (pub_from : PublishFrom) (self : t) :
  holds_handle (model_dump event) ->
  publish event pub_from self = Raise sqlalchemy_error.
Proof.
  intros Hh. apply check_raises_iff in Hh. unfold publish. rewrite Hh. reflexivity.
Qed.

Lemma publish_ok_inv (event : AppQueueEvent) (pub_from : PublishFrom) (self self' : t) :
  publish event pub_from self = Ok self' ->
  ~ holds_handle (model_dump event) /\ self' = with_q (_q self ++ [Some event]) self.
Proof.
  unfold publish. intros H.
  destruct (_check_for_sqlalchemy_models (model_dump event)) as [[]|e] eqn:Hc; [|discriminate].
  split; [apply check_ok_iff; exact Hc | unfold _publish in H; congruence].
Qed.

(** The handles the scan finds are the storage handles below dictionaries
    and lists. *)
Lemma holds_handle_iff (data : PyVal) :
  holds_handle data <-> exists h, storage_handle h /\ below_dicts_and_lists data h.
Proof.
  split.
  - induction 1 as [o Hf|items k v Hin _ (h & Hh & Hb)|items v Hin _ (h & Hh & Hb)].
    + exists (PyObject o). split; [|constructor].
      exists o. split; [reflexivity|]. apply orb_true_iff. exact Hf.
    + exists h. split; [exact Hh | econstructor; eassumption].
    + exists h. split; [exact Hh | econstructor; eassumption].
  - intros (h & (o & -> & Hf) & Hb).
    remember (PyObject o) as h eqn:Hh.
    induction Hb as [v|items k x v Hin _ IH|items x v Hin _ IH]; subst.
    + constructor. apply orb_true_iff. exact Hf.
    + apply holds_in_dict with k x; [exact Hin | apply IH; reflexivity].
    + apply holds_in_list with x; [exact Hin | apply IH; reflexivity].
Qed.

Lemma below_contains (data v : PyVal) : below_dicts_and_lists data v -> contains data v.
Proof. induction 1; econstructor; eassumption. Qed.

(** C6, as the code has it.  [publish] scans [event.model_dump()] before
    anything else, going down through dictionary values and list items.  When
    a storage handle (an instance of [DeclarativeMeta] or an object with
    [_sa_instance_state]) is at such a position the call raises the
    [TypeError] and nothing is appended; when none is, the event is appended
    at the end of the channel.  So whatever the channel holds after a
    [publish] was there before, or is the event, and then the event has no
    storage handle at a position below dictionaries and lists. *)
Theorem publish_rejects_scanned_handles
    (event : AppQueueEvent) (pub_from : PublishFrom) (self : t) :
  isinstance sqlalchemy_error "TypeError" = true /\
  (forall h, storage_handle h -> below_dicts_and_lists (model_dump event) h ->
     publish event pub_from self = Raise sqlalchemy_error) /\
  ((forall h, storage_handle h -> ~ below_dicts_and_lists (model_dump event) h) ->
     publish event pub_from self = Ok (with_q (_q self ++ [Some event]) self)) /\
  (forall self' waiting,
     publish event pub_from self = Ok self' ->
     In (Some waiting) (_q self') ->
     In (Some waiting) (_q self) \/
     (waiting = event /\
      forall h, storage_handle h -> ~ below_dicts_and_lists (model_dump event) h)).
Proof.
  split; [reflexivity|]. split; [|split].
  - intros h Hh Hb. apply publish_handle. apply holds_handle_iff. eauto.
  - intros Hnone. apply publish_clean. intros Hh.
    apply holds_handle_iff in Hh as (h & Hh & Hb). exact (Hnone h Hh Hb).
  - intros self' waiting Hpub Hin. apply publish_ok_inv in Hpub as [Hno ->].
    simpl in Hin. apply in_app_or in Hin as [Hin|[Heq|[]]]; [left; exact Hin|].
    right. inversion Heq; subst. split; [reflexivity|].
    intros h Hh Hb. apply Hno. apply holds_handle_iff. eauto.
Qed.

(** C6 as stated fails: an event that carries a message record inside a
    tuple passes the scan and is appended to the channel. *)
Lemma publish_appends_handle_in_tuple :
  storage_handle (PyObject message_record) /\
  contains (model_dump event_with_record_in_tuple) (PyObject message_record) /\
  publish event_with_record_in_tuple APPLICATION_MANAGER hello_queue
  = Ok (with_q [Some event_with_record_in_tuple] hello_queue).
Proof.
  split; [|split].
  - exists message_record. split; [reflexivity | right; reflexivity].
  - apply contains_in_value with "message_file"
      (PyTuple [PyStr "image"; PyObject message_record]); [right; left; reflexivity|].
    apply contains_in_member with (PyObject message_record); [right; left; reflexivity|].
    constructor.
  - reflexivity.
Qed.

Lemma publish_stop (stopped_by : StopBy) (pub_from : PublishFrom) (self : t) :
  publish (QueueStopEvent stopped_by) pub_from self
  = Ok (with_q (_q self ++ [Some (QueueStopEvent stopped_by)]) self).
Proof. reflexivity. Qed.

Lemma publish_ping (pub_from : PublishFrom) (self : t) :
  publish QueuePingEvent pub_from self = Ok (with_q (_q self ++ [Some QueuePingEvent]) self).
Proof. reflexivity. Qed.

Lemma publish_error_ok (e : PyExc) (pub_from : PublishFrom) (self : t) :
  publish_error e pub_from self = Ok (with_q (_q self ++ [Some (QueueErrorEvent e)]) self).
Proof. reflexivity. Qed.

Lemma publish_all_ok (events : list (AppQueueEvent * PublishFrom)) (self self' : t) :
  publish_all events self = Ok self' ->
  self' = with_q (_q self ++ map (fun x => Some (fst x)) events) self.
Proof.
  revert self. induction events as [|[event pub_from] rest IH]; simpl; intros self H.
  - inversion H; subst. rewrite app_nil_r. destruct self'; reflexivity.
  - destruct (publish event pub_from self) as [self1|e] eqn:Hp; [|discriminate].
    apply publish_ok_inv in Hp as [_ ->]. apply IH in H. subst self'.
    destruct self; unfold with_q; simpl. rewrite <- app_assoc. reflexivity.
Qed.

End publish_properties.

(** ** listen *)

Section listen_properties.
Import AppQueueManager.

(** The [finally] block never raises: it appends what it publishes, moves
    [last_ping_time] when a heartbeat is due, and passes control on. *)
Lemma listen_finally_eq (p : Poll) (next : GeneratorState) (l : Listening) :
  listen_finally p next l
  = (mkListening (with_q (_q (self l) ++ queued (finally_events p l)) (self l))
       (listen_timeout l) (start_time l)
       (if ping_due p l then boundary p l else last_ping_time l) next,
     finally_events p l).
Proof.
  unfold listen_finally, finally_events, publishing.
  destruct l as [[tid uid inv q] timeout start last st].
  change (ping_due p (mkListening (mk tid uid inv q) timeout start last st))
    with (last <? Qfloor ((now p - start)%Q / 10)).
  change (boundary p (mkListening (mk tid uid inv q) timeout start last st))
    with (Qfloor ((now p - start)%Q / 10)).
  destruct (stop_due p _); simpl;
    unfold ping_due, boundary, elapsed_time; simpl;
    destruct (last <? _); simpl;
    unfold with_q; simpl; rewrite <- ?app_assoc, ?app_nil_r; reflexivity.
Qed.

(** A generator that is not running any more runs no code. *)
Lemma listen_poll_stopped (p : Poll) (l : Listening) :
  state l <> Running -> listen_poll p l = (l, mkTurn None []).
Proof. unfold listen_poll. destruct (state l); congruence. Qed.

Lemma listen_run_stopped (polls : list Poll) (l : Listening) :
  state l <> Running ->
  listen_run polls l = (l, map (fun _ => mkTurn None []) polls).
Proof.
  induction polls as [|p polls IH]; simpl; intros Hs; [reflexivity|].
  rewrite listen_poll_stopped by exact Hs. rewrite IH by exact Hs. reflexivity.
Qed.

Lemma yields_idle (polls : list Poll) :
  yields (map (fun _ => mkTurn None []) polls) = [].
Proof. induction polls; simpl; auto. Qed.

(** One turn on a running generator, by what [get] finds. *)
Lemma listen_poll_running (p : Poll) (l : Listening) :
  state l = Running ->
  listen_poll p l =
    match _q (self l) ++ arrived p with
    | [] =>
        (fst (listen_finally p Running (receive (arrived_late p) l)),
         mkTurn None (finally_events p l))
    | None :: rest =>
        (fst (listen_finally p Finished (receive (rest ++ arrived_late p) l)),
         mkTurn None (finally_events p l))
    | Some message :: rest =>
        (fst (listen_finally p Running (receive (rest ++ arrived_late p) l)),
         mkTurn (Some message) (finally_events p l))
    end.
Proof.
  intros Hs. unfold listen_poll. rewrite Hs.
  destruct (_q (self l) ++ arrived p) as [|[m|] rest];
    rewrite listen_finally_eq; reflexivity.
Qed.

(** Draining a channel that already holds [events] and then the sentinel. *)
Lemma listen_run_drains (events : list AppQueueEvent) :
  forall (behind : list (option AppQueueEvent)) (polls : list Poll) (l : Listening),
    state l = Running ->
    _q (self l) = map Some events ++ None :: behind ->
    (length events < length polls)%nat ->
    yields (snd (listen_run polls l)) = events /\
    state (fst (listen_run polls l)) = Finished.
Proof.
  induction events as [|e events IH]; intros behind polls l Hs Hq Hlen.
  - destruct polls as [|p polls]; [simpl in Hlen; lia|]. simpl.
    rewrite (listen_poll_running p l Hs), Hq. simpl.
    rewrite listen_finally_eq. simpl.
    rewrite listen_run_stopped by (simpl; discriminate). simpl.
    unfold yields. simpl. split; [apply yields_idle | reflexivity].
  - destruct polls as [|p polls]; [simpl in Hlen; lia|]. simpl.
    rewrite (listen_poll_running p l Hs), Hq. simpl.
    rewrite listen_finally_eq. simpl.
    match goal with
    | |- context [listen_run polls ?l1] =>
        destruct (IH (behind ++ arrived p ++ arrived_late p
                        ++ queued (finally_events p (receive
                             ((map Some events ++ None :: behind ++ arrived p) ++ arrived_late p) l)))
                     polls l1) as [Hy Hf]
    end.
    + reflexivity.
    + simpl. rewrite <- !app_assoc. simpl. rewrite <- !app_assoc. reflexivity.
    + simpl in Hlen. lia.
    + destruct (listen_run polls _) as [l2 turns] eqn:Hrun. simpl in *.
      split; [unfold yields in *; simpl; f_equal; exact Hy | exact Hf].
Qed.

(** C1.  A producer publishes [events] into an empty channel and then calls
    [stop_listen].  [listen()], given at least one turn more than there are
    events, yields exactly those events in publish order and has returned;
    whatever turns follow yield nothing.  This holds for every clock and
    stop-flag reading, hence in particular when the execution time is not
    reached and the flag is never set: what the loop publishes itself is
    queued behind the sentinel. *)
Theorem listen_yields_published_then_terminates
    (events : list (AppQueueEvent * PublishFrom)) (self0 self1 : t)
    (APP_MAX_EXECUTION_TIME : Z) (start : Q) (polls : list Poll) :
  _q self0 = [] ->
  publish_all events self0 = Ok self1 ->
  (length events < length polls)%nat ->
  let run := listen_run polls (listen APP_MAX_EXECUTION_TIME start (stop_listen self1)) in
  yields (snd run) = map fst events /\ state (fst run) = Finished.
Proof.
  intros Hq0 Hpub Hlen.
  apply publish_all_ok in Hpub. subst self1.
  apply listen_run_drains with (behind := []).
  - reflexivity.
  - simpl. rewrite Hq0. simpl. rewrite map_map. reflexivity.
  - rewrite length_map. exact Hlen.
Qed.

End listen_properties.

(** ** The stop signal and the heartbeat *)

Section signal_properties.
Import AppQueueManager.

Lemma listen_poll_turn (p : Poll) (l : Listening) :
  state l = Running ->
  published (snd (listen_poll p l)) = finally_events p l /\
  yielded (snd (listen_poll p l)) = mjoin (head (_q (self l) ++ arrived p)) /\
  self (fst (listen_poll p l))
    = with_q (_q (after_get p l) ++ queued (finally_events p l)) (self l) /\
  start_time (fst (listen_poll p l)) = start_time l /\
  listen_timeout (fst (listen_poll p l)) = listen_timeout l /\
  last_ping_time (fst (listen_poll p l))
    = (if ping_due p l then boundary p l else last_ping_time l) /\
  state (fst (listen_poll p l))
    = match _q (self l) ++ arrived p with None :: _ => Finished | _ => Running end.
Proof.
  intros Hs. rewrite (listen_poll_running p l Hs). unfold after_get.
  destruct (_q (self l) ++ arrived p) as [|[m|] rest];
    rewrite listen_finally_eq; simpl; repeat split; reflexivity.
Qed.

(** C2 on the code.  On a running [listen()], a turn that observes the
    elapsed time at or past the maximum execution time, or the stop flag set,
    passes a [QueueStopEvent] with [USER_MANUAL] to [publish] with origin
    [TASK_PIPELINE], and does so once: the stop event is the first event the
    turn publishes, and what follows it is at most the heartbeat.  The
    comment next to the call says that the signal is sent twice. *)
Theorem stop_published_once_when_due (p : Poll) (l : Listening) :
  state l = Running ->
  stop_due p l = true ->
  published (snd (listen_poll p l))
  = (QueueStopEvent USER_MANUAL, TASK_PIPELINE)
    :: (if ping_due p l then [(QueuePingEvent, TASK_PIPELINE)] else []).
Proof.
  intros Hs Hdue.
  destruct (listen_poll_turn p l Hs) as (Hpub & _).
  rewrite Hpub. unfold finally_events. rewrite Hdue. reflexivity.
Qed.

Lemma entered_stopped (polls : list Poll) (l : Listening) :
  state l <> Running -> entered polls l = [].
Proof.
  intros Hs. destruct polls as [|p polls]; [reflexivity|]. simpl.
  unfold is_running. destruct (state l); congruence.
Qed.

(** First in, first out.  Over any turns of a running [listen()], what was
    in the channel followed by what entered it is: what has been yielded,
    then the sentinel if the generator has returned, then what is still
    waiting.  So the messages yielded are those ahead of the first sentinel,
    in channel order, whoever published them. *)
Lemma listen_fifo (polls : list Poll) :
  forall l,
    state l = Running ->
    _q (self l) ++ entered polls l
    = map Some (yields (snd (listen_run polls l)))
      ++ (match state (fst (listen_run polls l)) with Finished => [None] | _ => [] end)
      ++ _q (self (fst (listen_run polls l))).
Proof.
  induction polls as [|p polls IH]; intros l Hs.
  - simpl. rewrite Hs, app_nil_r. reflexivity.
  - simpl. unfold is_running. rewrite Hs.
    destruct (listen_poll_turn p l Hs) as (Hpub & Hy & Hself & _ & _ & _ & Hstate).
    destruct (listen_poll p l) as [l1 turn] eqn:Hpoll. simpl in *.
    destruct (listen_run polls l1) as [l2 turns] eqn:Hrun. simpl.
    unfold yields. simpl. rewrite Hy, Hpub. unfold after_get in Hself.
    destruct (_q (self l) ++ arrived p) as [|[m|] rest] eqn:Hq; simpl in *.
    + specialize (IH l1 Hstate). rewrite Hrun in IH. simpl in IH.
      unfold yields in IH. rewrite <- IH, Hself. simpl.
      rewrite app_assoc, Hq. simpl. rewrite <- !app_assoc. reflexivity.
    + specialize (IH l1 Hstate). rewrite Hrun in IH. simpl in IH.
      unfold yields in IH. rewrite <- IH, Hself. simpl.
      rewrite app_assoc, Hq. simpl. rewrite <- !app_assoc. reflexivity.
    + assert (Hdone : state l1 <> Running) by (rewrite Hstate; discriminate).
      rewrite (listen_run_stopped polls l1 Hdone) in Hrun. inversion Hrun; subst l2 turns.
      rewrite (entered_stopped polls l1 Hdone), Hstate, Hself.
      fold (yields (map (fun _ => mkTurn None []) polls)). rewrite yields_idle. simpl.
      rewrite app_assoc, Hq, app_nil_r. simpl. rewrite <- !app_assoc. reflexivity.
Qed.

End signal_properties.

(** ** The heartbeat *)

Section heartbeat_properties.
Import AppQueueManager.

Lemma heartbeats_finally (p : Poll) (l : Listening) :
  length (filter (fun x => is_ping x = true) (finally_events p l))
  = if ping_due p l then 1%nat else 0%nat.
Proof.
  unfold finally_events. destruct (stop_due p l), (ping_due p l); reflexivity.
Qed.

Lemma heartbeats_poll (p : Poll) (l : Listening) :
  heartbeats (snd (listen_poll p l))
  = if is_running l && ping_due p l then 1%nat else 0%nat.
Proof.
  unfold heartbeats, is_running. destruct (state l) eqn:Hs.
  - destruct (listen_poll_turn p l Hs) as (-> & _). apply heartbeats_finally.
  - rewrite listen_poll_stopped by congruence. reflexivity.
  - rewrite listen_poll_stopped by congruence. reflexivity.
Qed.

Lemma boundary_start (p : Poll) (l l' : Listening) :
  start_time l' = start_time l -> boundary p l' = boundary p l.
Proof. unfold boundary, elapsed_time. intros ->. reflexivity. Qed.

(** One turn never moves [last_ping_time] back, and a heartbeat moves it up
    to the boundary of the turn. *)
Lemma listen_poll_last_ping (p : Poll) (l : Listening) :
  start_time (fst (listen_poll p l)) = start_time l /\
  last_ping_time l <= last_ping_time (fst (listen_poll p l)) /\
  (heartbeats (snd (listen_poll p l)) <> 0%nat ->
   last_ping_time l < boundary p l /\
   last_ping_time (fst (listen_poll p l)) = boundary p l).
Proof.
  rewrite heartbeats_poll. unfold is_running. destruct (state l) eqn:Hs; simpl.
  - destruct (listen_poll_turn p l Hs) as (_ & _ & _ & -> & _ & -> & _).
    unfold ping_due. destruct (Z.ltb_spec (last_ping_time l) (boundary p l));
      repeat split; try lia; congruence.
  - rewrite listen_poll_stopped by congruence. simpl. repeat split; try lia; congruence.
  - rewrite listen_poll_stopped by congruence. simpl. repeat split; try lia; congruence.
Qed.

Lemma listen_run_last_ping (polls : list Poll) :
  forall l,
    start_time (fst (listen_run polls l)) = start_time l /\
    last_ping_time l <= last_ping_time (fst (listen_run polls l)) /\
    (forall (i : nat) turn p,
       snd (listen_run polls l) !! i = Some turn -> polls !! i = Some p ->
       heartbeats turn <> 0%nat ->
       last_ping_time l < boundary p l /\
       boundary p l <= last_ping_time (fst (listen_run polls l))) /\
    (forall (i j : nat) ti tj pi pj,
       (i < j)%nat ->
       snd (listen_run polls l) !! i = Some ti -> polls !! i = Some pi ->
       snd (listen_run polls l) !! j = Some tj -> polls !! j = Some pj ->
       heartbeats ti <> 0%nat -> heartbeats tj <> 0%nat ->
       boundary pi l < boundary pj l).
Proof.
  induction polls as [|p polls IH]; intros l; simpl.
  - repeat split; try lia; intros; discriminate.
  - destruct (listen_poll_last_ping p l) as (Hst & Hle & Hbeat).
    destruct (listen_poll p l) as [l1 turn] eqn:Hpoll. simpl in *.
    destruct (IH l1) as (Hst' & Hle' & Hone & Htwo).
    destruct (listen_run polls l1) as [l2 turns] eqn:Hrun. simpl in *.
    split; [congruence|]. split; [lia|]. split.
    + intros [|i] t' p' Ht Hp Hb; simpl in *.
      * inversion Ht; inversion Hp; subst. destruct (Hbeat Hb). lia.
      * destruct (Hone i t' p' Ht Hp Hb) as [Hlo Hhi].
        rewrite (boundary_start p' l l1 Hst) in Hlo, Hhi. lia.
    + intros [|i] [|j] ti tj pi pj Hij Hti Hpi Htj Hpj Hbi Hbj; simpl in *; try lia.
      * inversion Hti; inversion Hpi; subst.
        destruct (Hbeat Hbi) as [_ Heq].
        destruct (Hone j tj pj Htj Hpj Hbj) as [Hlo _].
        rewrite (boundary_start pj l l1 Hst) in Hlo. lia.
      * assert (Hij' : (i < j)%nat) by lia.
        specialize (Htwo i j ti tj pi pj Hij' Hti Hpi Htj Hpj Hbi Hbj).
        rewrite !(boundary_start _ l l1 Hst) in Htwo. exact Htwo.
Qed.

Lemma listen_run_app (polls1 polls2 : list Poll) (l : Listening) :
  listen_run (polls1 ++ polls2) l
  = (fst (listen_run polls2 (fst (listen_run polls1 l))),
     snd (listen_run polls1 l) ++ snd (listen_run polls2 (fst (listen_run polls1 l)))).
Proof.
  revert l. induction polls1 as [|p polls1 IH]; intros l; simpl.
  - destruct (listen_run polls2 l); reflexivity.
  - destruct (listen_poll p l) as [l1 turn]. rewrite IH.
    destruct (listen_run polls1 l1) as [l2 turns]. reflexivity.
Qed.

End heartbeat_properties.

Section heartbeat_theorem.
Import AppQueueManager.

Lemma listen_run_turn (polls : list Poll) :
  forall l (i : nat) turn,
    snd (listen_run polls l) !! i = Some turn ->
    exists p li, polls !! i = Some p /\ turn = snd (listen_poll p li).
Proof.
  induction polls as [|p polls IH]; intros l i turn; simpl; [discriminate|].
  destruct (listen_poll p l) as [l1 t1] eqn:Hpoll.
  destruct (listen_run polls l1) as [l2 turns] eqn:Hrun. simpl.
  destruct i as [|i]; simpl.
  - intros Ht. inversion Ht; subst. exists p, l. rewrite Hpoll. auto.
  - intros Ht. apply (IH l1 i turn). rewrite Hrun. exact Ht.
Qed.

(** C7.  In a run of [listen()] over any turns and clock readings:
    a turn publishes at most one [QueuePingEvent], and only once the elapsed
    time has crossed a 10-unit boundary ([elapsed_time // 10 >= 1]); of two
    turns that publish one, the later is at a strictly higher boundary, so no
    boundary gets two; and once the generator has returned or raised, every
    further turn publishes nothing and yields nothing. *)
Theorem ping_once_per_boundary
    (APP_MAX_EXECUTION_TIME : Z) (start : Q) (self0 : t) (polls : list Poll) :
  let l0 := listen APP_MAX_EXECUTION_TIME start self0 in
  let turns := snd (listen_run polls l0) in
  (forall (i : nat) turn p,
     turns !! i = Some turn -> polls !! i = Some p ->
     (heartbeats turn <= 1)%nat /\
     (heartbeats turn = 1%nat -> 1 <= boundary p l0)) /\
  (forall (i j : nat) ti tj pi pj,
     (i < j)%nat ->
     turns !! i = Some ti -> polls !! i = Some pi ->
     turns !! j = Some tj -> polls !! j = Some pj ->
     heartbeats ti = 1%nat -> heartbeats tj = 1%nat ->
     boundary pi l0 < boundary pj l0) /\
  (forall more,
     state (fst (listen_run polls l0)) <> Running ->
     snd (listen_run (polls ++ more) l0) = turns ++ map (fun _ => mkTurn None []) more).
Proof.
  cbv zeta. set (l0 := listen APP_MAX_EXECUTION_TIME start self0).
  destruct (listen_run_last_ping polls l0) as (_ & _ & Hone & Htwo).
  split; [|split].
  - intros i turn p Ht Hp. split.
    + destruct (listen_run_turn polls l0 i turn Ht) as (p' & li & _ & ->).
      rewrite heartbeats_poll. destruct (is_running li && ping_due p' li); lia.
    + intros Hb. destruct (Hone i turn p Ht Hp) as [Hlo _]; [lia|].
      change (last_ping_time l0) with 0 in Hlo. lia.
  - intros i j ti tj pi pj Hij Hti Hpi Htj Hpj Hbi Hbj.
    apply (Htwo i j ti tj pi pj Hij Hti Hpi Htj Hpj); lia.
  - intros more Hdone. rewrite listen_run_app. simpl.
    rewrite (listen_run_stopped more _ Hdone). reflexivity.
Qed.

End heartbeat_theorem.

(** ** The stop flag and its owner *)

Section stop_flag_properties.
Import AppQueueManager.

(** Unfolds the appends to a literal in front of a key or an owner string. *)
Ltac peel_literal H :=
  cbv beta iota delta [String.append] in H; fold String.append in H.

(** The owner string determines the pair it was made of. *)
Lemma belongs_to_inj (invoke_from invoke_from' : InvokeFrom) (user_id user_id' : string) :
  belongs_to invoke_from user_id = belongs_to invoke_from' user_id' <->
  (user_prefix invoke_from, user_id) = (user_prefix invoke_from', user_id').
Proof.
  unfold belongs_to.
  destruct invoke_from, invoke_from'; split; intros H; simpl in H;
    peel_literal H; inversion H; subst; reflexivity.
Qed.

Lemma stopped_key_inj (task_id task_id' : string) :
  _generate_stopped_cache_key task_id = _generate_stopped_cache_key task_id' ->
  task_id = task_id'.
Proof.
  unfold _generate_stopped_cache_key. intros H. peel_literal H. inversion H. reflexivity.
Qed.

Lemma belong_key_not_stopped_key (task_id task_id' : string) :
  _generate_task_belong_cache_key task_id <> _generate_stopped_cache_key task_id'.
Proof.
  unfold _generate_task_belong_cache_key, _generate_stopped_cache_key.
  intros H. peel_literal H. inversion H.
Qed.

Lemma string_length_app (s s' : string) :
  String.length (s +:+ s') = (String.length s + String.length s')%nat.
Proof.
  induction s as [|a s IH]; [reflexivity|].
  change (S (String.length (s +:+ s')) = S (String.length s + String.length s')).
  rewrite IH. reflexivity.
Qed.

Lemma max_suffix_not_active_suffix (c : string) :
  forall c', c +:+ ":max_active_requests" <> c' +:+ ":active_requests".
Proof.
  induction c as [|a c IH]; intros c' H.
  - assert (Hlen := f_equal String.length H).
    rewrite !string_length_app in Hlen.
    destruct c' as [|a1 [|a2 [|a3 [|a4 [|a5 c']]]]]; cbn in Hlen; try lia.
    peel_literal H. inversion H.
  - destruct c' as [|a' c'].
    + assert (Hlen := f_equal String.length H).
      rewrite !string_length_app in Hlen. cbn in Hlen. lia.
    + peel_literal H. inversion H. eapply IH. eassumption.
Qed.

(** The hash key of the limiter is no string key of the sources: the key
    templates are pairwise apart. *)
Lemma key_spaces_disjoint (task_id client_id client_id' : string) :
  RateLimit._ACTIVE_REQUESTS_KEY client_id <> _generate_task_belong_cache_key task_id /\
  RateLimit._ACTIVE_REQUESTS_KEY client_id <> _generate_stopped_cache_key task_id /\
  RateLimit._ACTIVE_REQUESTS_KEY client_id <> RateLimit._MAX_ACTIVE_REQUESTS_KEY client_id'.
Proof.
  unfold _generate_task_belong_cache_key, _generate_stopped_cache_key,
    RateLimit._MAX_ACTIVE_REQUESTS_KEY, RateLimit._ACTIVE_REQUESTS_KEY.
  repeat split; intros H; peel_literal H; try (inversion H; fail).
  inversion H as [H']. symmetry in H'. exact (max_suffix_not_active_suffix _ _ H').
Qed.

Lemma init_registers_owner (task_id user_id : string) (invoke_from : InvokeFrom)
    (r r1 : Redis) (self : t) :
  __init__ task_id user_id invoke_from r = (Ok self, r1) ->
  _task_id self = task_id /\ _q self = [] /\ user_id <> "" /\
  redis_client.get (_generate_task_belong_cache_key task_id) r1
    = Some (RStr (belongs_to invoke_from user_id)) /\
  _is_stopped self r1 = _is_stopped self r.
Proof.
  unfold __init__. case_bool_decide as Hu; [discriminate|].
  intros H. inversion H; subst. simpl. repeat split; try assumption.
  - unfold redis_client.get, redis_client.setex. simpl.
    rewrite lookup_insert_eq. reflexivity.
  - unfold _is_stopped, redis_client.get, redis_client.setex. simpl.
    rewrite lookup_insert_ne by apply belong_key_not_stopped_key. reflexivity.
Qed.

(** The owner's own call sets the flag. *)
Lemma set_stop_flag_by_owner (task_id user_id : string) (invoke_from : InvokeFrom)
    (r : Redis) (self : t) :
  _task_id self = task_id ->
  redis_client.get (_generate_task_belong_cache_key task_id) r
    = Some (RStr (belongs_to invoke_from user_id)) ->
  _is_stopped self (set_stop_flag task_id invoke_from user_id r) = true.
Proof.
  intros Hid Hget. unfold set_stop_flag. rewrite Hget. simpl.
  case_bool_decide as Hne; [congruence|].
  unfold _is_stopped, redis_client.get, redis_client.setex. simpl. rewrite Hid.
  rewrite lookup_insert_eq. reflexivity.
Qed.

(** C4.  Let the registry entry of [task_id] be absent, or be the owner string
    ["{prefix}-{user_id}"] while the caller's resolved pair of prefix and user
    is another one.  Then [set_stop_flag] leaves the store as it is: the stop
    flag of the task reads as before, and a turn of [listen] that looks at the
    store after the call does what it does on the store before it. *)
Theorem set_stop_flag_needs_owner
    (task_id user_id : string) (invoke_from : InvokeFrom)
    (invoke_from' : InvokeFrom) (user_id' : string) (r : Redis) (self : t) :
  redis_client.get (_generate_task_belong_cache_key task_id) r = None \/
  (redis_client.get (_generate_task_belong_cache_key task_id) r
     = Some (RStr (belongs_to invoke_from user_id)) /\
   (user_prefix invoke_from', user_id') <> (user_prefix invoke_from, user_id)) ->
  set_stop_flag task_id invoke_from' user_id' r = r /\
  _is_stopped self (set_stop_flag task_id invoke_from' user_id' r) = _is_stopped self r /\
  (forall p l,
     store p = r ->
     listen_poll (with_store (set_stop_flag task_id invoke_from' user_id' r) p) l
     = listen_poll p l).
Proof.
  intros Hreg.
  assert (Hsame : set_stop_flag task_id invoke_from' user_id' r = r).
  { unfold set_stop_flag. destruct Hreg as [-> | [-> Hne]]; [reflexivity|]. simpl.
    case_bool_decide as Hd; [reflexivity|]. exfalso.
    apply Hne. symmetry. apply belongs_to_inj. exact Hd. }
  rewrite Hsame. repeat split. intros p l <-. destruct p; reflexivity.
Qed.

End stop_flag_properties.

(** ** Numbers as text *)

Section int_properties.

Lemma digit_cases (d : N) :
  (d < 10)%N ->
  (d = 0 \/ d = 1 \/ d = 2 \/ d = 3 \/ d = 4 \/ d = 5 \/ d = 6 \/ d = 7 \/ d = 8 \/ d = 9)%N.
Proof. lia. Qed.

Lemma is_nat_pretty_N_char (d : N) :
  (d < 10)%N -> Ascii.is_nat (pretty_N_char d) = Some (N.to_nat d).
Proof.
  intros Hd. apply digit_cases in Hd.
  repeat (destruct Hd as [->|Hd]; [reflexivity|]). subst d. reflexivity.
Qed.

(** A literal that starts with a digit has neither blanks nor a sign to
    skip. *)
Lemma int_digit_first (d : N) (rest : string) :
  (d < 10)%N ->
  int_ (String (pretty_N_char d) rest) = int_digits 0 false (String (pretty_N_char d) rest).
Proof.
  intros Hd. apply digit_cases in Hd.
  repeat (destruct Hd as [->|Hd]; [reflexivity|]). subst d. reflexivity.
Qed.

Lemma quotient_zero (x : N) : ~ (0 < x `div` 10)%N -> (x `div` 10 = 0)%N.
Proof. intros Hq. apply N.le_antisymm; [apply N.nlt_ge; exact Hq | apply N.le_0_l]. Qed.

(** Reading the digits that [str] writes, most significant first. *)
Lemma int_digits_pretty_N_go (x : N) :
  forall (after_digit : bool) (s : string),
    (0 < x)%N ->
    int_digits 0 after_digit (pretty_N_go x s) = int_digits (Z.of_N x) true s.
Proof.
  induction (N.lt_wf_0 x) as [x _ IH]. intros after_digit s Hx.
  rewrite pretty_N_go_step by exact Hx.
  assert (Hd : (x `mod` 10 < 10)%N) by (apply N.mod_lt; discriminate).
  assert (Hx10 : Z.of_N x = 10 * Z.of_N (x `div` 10) + Z.of_N (x `mod` 10)).
  { rewrite (N.div_mod x 10) at 1 by discriminate.
    rewrite N2Z.inj_add, N2Z.inj_mul. reflexivity. }
  destruct (decide (0 < x `div` 10)%N) as [Hq|Hq].
  - assert (Hlt : (x `div` 10 < x)%N) by (apply N.div_lt; [exact Hx | reflexivity]).
    rewrite (IH _ Hlt after_digit _ Hq).
    cbn [int_digits]. rewrite (is_nat_pretty_N_char _ Hd), N_nat_Z, Hx10. reflexivity.
  - rewrite (quotient_zero x Hq) in *. rewrite pretty_N_go_0.
    cbn [int_digits]. rewrite (is_nat_pretty_N_char _ Hd), N_nat_Z, Hx10. reflexivity.
Qed.

Lemma pretty_N_go_head (x : N) :
  forall s : string,
    (0 < x)%N ->
    exists d rest, (d < 10)%N /\ pretty_N_go x s = String (pretty_N_char d) rest.
Proof.
  induction (N.lt_wf_0 x) as [x _ IH]. intros s Hx.
  rewrite pretty_N_go_step by exact Hx.
  destruct (decide (0 < x `div` 10)%N) as [Hq|Hq].
  - assert (Hlt : (x `div` 10 < x)%N) by (apply N.div_lt; [exact Hx | reflexivity]).
    apply (IH _ Hlt _ Hq).
  - rewrite (quotient_zero x Hq), pretty_N_go_0.
    exists (x `mod` 10)%N, s. split; [apply N.mod_lt; discriminate | reflexivity].
Qed.

Lemma int_digits_pretty_positive (p : positive) :
  int_digits 0 false (pretty p) = Some (Z.pos p).
Proof.
  unfold pretty, pretty_positive, pretty, pretty_N. rewrite decide_False by discriminate.
  rewrite int_digits_pretty_N_go by reflexivity. reflexivity.
Qed.

(** Literals [int] reads, and text it refuses. *)
Lemma int_literals :
  int_ <$> ["7"; " 7 "; "+7"; "-7"; "007"; "1_000"; "-0"]
  = [Some 7; Some 7; Some 7; Some (-7); Some 7; Some 1000; Some 0] /\
  int_ <$> [""; "-"; "_1"; "1_"; "1__0"; "- 7"; "7.0"; "0x10"; "1 2"; "seven"]
  = [None; None; None; None; None; None; None; None; None; None].
Proof. split; vm_compute; reflexivity. Qed.

(** [int(str(z)) == z]: what was written as an [int] is read back. *)
Lemma int_pretty (z : Z) : int_ (pretty z) = Some z.
Proof.
  destruct z as [|p|p].
  - reflexivity.
  - rewrite <- int_digits_pretty_positive.
    unfold pretty, pretty_Z, pretty, pretty_positive, pretty, pretty_N.
    rewrite decide_False by discriminate.
    destruct (pretty_N_go_head (N.pos p) "") as (d & rest & Hd & ->); [reflexivity|].
    apply int_digit_first. exact Hd.
  - unfold pretty, pretty_Z. cbv beta iota delta [String.append]. fold String.append.
    unfold int_. cbn [lstrip Ascii.is_space].
    rewrite int_digits_pretty_positive. reflexivity.
Qed.

Lemma get_int_written (key : string) (z : Z) (self : RateLimit.t) (r : Redis) :
  redis_client.get key r = Some (RInt z) ->
  RateLimit.get_int key (self, r) = (Ok z, (self, r)).
Proof.
  intros Hget. unfold RateLimit.get_int. cbn [fst snd]. rewrite Hget.
  cbn [decode]. rewrite int_pretty. reflexivity.
Qed.

End int_properties.

(** ** The store operations *)

Section redis_properties.
Import redis_client.

Lemma get_setex (name name' : string) (time : Z) (value : RVal) (r : Redis) :
  get name' (setex name time value r)
  = if bool_decide (name = name') then Some value else get name' r.
Proof.
  unfold get, setex. simpl. rewrite lookup_insert.
  destruct (decide (name = name')) as [->|Hne].
  - rewrite bool_decide_eq_true_2 by reflexivity. reflexivity.
  - rewrite bool_decide_eq_false_2 by exact Hne. reflexivity.
Qed.

Lemma get_expire (name name' : string) (time : Z) (r : Redis) :
  get name' (expire name time r) = get name' r.
Proof.
  unfold get, expire. simpl. rewrite lookup_alter.
  destruct (decide (name = name')) as [->|Hne]; [|reflexivity].
  destruct (kv r !! name') as [[t v]|]; reflexivity.
Qed.

Lemma hashes_expire (name name' : string) (time : Z) (r : Redis) :
  snd <$> hashes (expire name time r) !! name' = snd <$> hashes r !! name'.
Proof.
  unfold expire. simpl. rewrite lookup_alter.
  destruct (decide (name = name')) as [->|Hne]; [|reflexivity].
  destruct (hashes r !! name') as [[t h]|]; reflexivity.
Qed.

Lemma hgetall_alt (name : string) (r : Redis) :
  hgetall name r = default ∅ (snd <$> hashes r !! name).
Proof. unfold hgetall. destruct (hashes r !! name) as [[t h]|]; reflexivity. Qed.

Lemma hgetall_expire (name name' : string) (time : Z) (r : Redis) :
  hgetall name' (expire name time r) = hgetall name' r.
Proof. rewrite !hgetall_alt, hashes_expire. reflexivity. Qed.

Lemma hgetall_setex (name name' : string) (time : Z) (value : RVal) (r : Redis) :
  hgetall name' (setex name time value r) = hgetall name' r.
Proof. reflexivity. Qed.

Lemma hgetall_hset (name key : string) (value : Q) (r : Redis) :
  hgetall name (hset name key value r) = <[key := value]> (hgetall name r).
Proof.
  unfold hgetall, hset. destruct (hashes r !! name) as [[t h]|] eqn:Hh; simpl;
    rewrite lookup_insert_eq; reflexivity.
Qed.

Lemma get_hset (name key name' : string) (value : Q) (r : Redis) :
  get name' (hset name key value r) = get name' r.
Proof. unfold get, hset. destruct (hashes r !! name) as [[t h]|]; reflexivity. Qed.

Lemma hgetall_hdel (name : string) (keys : list string) (r : Redis) :
  hgetall name (hdel name keys r) = foldr delete (hgetall name r) keys.
Proof.
  unfold hgetall, hdel. destruct (hashes r !! name) as [[t h]|] eqn:Hh; simpl.
  - case_bool_decide as He; simpl.
    + rewrite lookup_delete_eq. symmetry. exact He.
    + rewrite lookup_insert_eq. reflexivity.
  - rewrite Hh. induction keys as [|k keys IH]; simpl; [reflexivity|].
    rewrite <- IH. symmetry. apply delete_empty.
Qed.

Lemma get_hdel (name name' : string) (keys : list string) (r : Redis) :
  get name' (hdel name keys r) = get name' r.
Proof.
  unfold get, hdel. destruct (hashes r !! name) as [[t h]|]; [|reflexivity].
  case_bool_decide; reflexivity.
Qed.

Lemma foldr_delete_subseteq (keys : list string) (h : gmap string Q) :
  foldr delete h keys ⊆ h.
Proof.
  induction keys as [|k keys IH]; simpl; [reflexivity|].
  etrans; [apply delete_subseteq | exact IH].
Qed.

Lemma foldr_delete_lookup (keys : list string) (h : gmap string Q) (k : string) :
  k ∈ keys -> foldr delete h keys !! k = None.
Proof.
  induction keys as [|k' keys IH]; simpl; intros Hin.
  - inversion Hin.
  - destruct (decide (k' = k)) as [->|Hne].
    + apply lookup_delete_eq.
    + rewrite lookup_delete_ne by exact Hne. apply IH.
      inversion Hin; subst; [congruence | assumption].
Qed.

End redis_properties.

(** ** The concurrency limiter *)

Section limiter_properties.
Import RateLimit.

Lemma hashes_hdel_ne (name name' : string) (keys : list string) (r : Redis) :
  name <> name' -> hashes (redis_client.hdel name keys r) !! name' = hashes r !! name'.
Proof.
  intros Hne. unfold redis_client.hdel. destruct (hashes r !! name) as [[t h]|]; [|reflexivity].
  case_bool_decide; simpl; [rewrite lookup_delete_ne | rewrite lookup_insert_ne]; auto.
Qed.

Lemma hashes_expire_none (name name' : string) (time : Z) (r : Redis) :
  hashes r !! name' = None -> hashes (redis_client.expire name time r) !! name' = None.
Proof.
  intros Hn. pose proof (hashes_expire name name' time r) as H. rewrite Hn in H.
  destruct (hashes (redis_client.expire name time r) !! name'); [discriminate | reflexivity].
Qed.

Lemma flush_cache_keeps (now : Q) (self : t) (r : Redis) (a : Attrs) :
  disabled self = false ->
  initialized self = Some a ->
  hashes r !! max_active_requests_key a = None ->
  active_requests_key a <> max_active_requests_key a ->
  (forall v, redis_client.get (max_active_requests_key a) r = Some v ->
             v = RInt (max_active_requests self)) ->
  exists r',
    flush_cache now false (self, r)
      = (Ok tt, (mk (max_active_requests self) (Some (touch now a)), r')) /\
    redis_client.get (max_active_requests_key a) r' = Some (RInt (max_active_requests self)) /\
    hashes r' !! max_active_requests_key a = None /\
    redis_client.hgetall (active_requests_key a) r' ⊆ redis_client.hgetall (active_requests_key a) r.
Proof.
  intros Hdis Hinit Hhash Hkeys Hceil.
  unfold flush_cache, bind, get_state, ret, set_last_recalculate_time, attrs, redis_ask, redis_do.
  cbn [fst snd]. rewrite Hdis. cbn [fst snd]. rewrite Hinit.
  cbn [fst snd initialized max_active_requests_key active_requests_key].
  assert (Hex : redis_client.exists_ (max_active_requests_key a) r
                = bool_decide (is_Some (redis_client.get (max_active_requests_key a) r))).
  { unfold redis_client.exists_, redis_client.get. rewrite Hhash.
    destruct (kv r !! max_active_requests_key a); reflexivity. }
  rewrite Hex. clear Hex.
  destruct (redis_client.get (max_active_requests_key a) r) as [v|] eqn:Hget; cbn.
  - rewrite (Hceil v eq_refl) in Hget. unfold get_int. cbn [fst snd]. rewrite Hget.
    cbn [decode]. rewrite int_pretty.
    unfold set_max_active_requests. cbn [fst snd initialized].
    destruct (redis_client.exists_ (active_requests_key a) _); cbn;
      [destruct (timeout_requests now _) as [|k stale]; cbn|];
      (eexists; split; [reflexivity|]);
      rewrite ?get_hdel, ?get_expire, ?hgetall_hdel, ?hgetall_expire, ?hashes_hdel_ne
        by exact Hkeys;
      (split; [exact Hget|]);
      (split; [repeat apply hashes_expire_none; exact Hhash|]);
      try reflexivity; apply (foldr_delete_subseteq (k :: stale)).
  - destruct (redis_client.exists_ (active_requests_key a) _); cbn;
      [destruct (timeout_requests now _) as [|k stale]; cbn|];
      (eexists; split; [reflexivity|]);
      rewrite ?get_hdel, ?get_expire, ?hgetall_hdel, ?hgetall_expire, ?hashes_hdel_ne,
        ?hgetall_setex, ?get_setex by exact Hkeys;
      rewrite ?bool_decide_eq_true_2 by reflexivity;
      (split; [reflexivity|]);
      (split; [repeat apply hashes_expire_none; exact Hhash|]);
      try reflexivity; apply (foldr_delete_subseteq (k :: stale)).
Qed.

Lemma hashes_hset_ne (name key name' : string) (value : Q) (r : Redis) :
  name <> name' -> hashes (redis_client.hset name key value r) !! name' = hashes r !! name'.
Proof.
  intros Hne. unfold redis_client.hset. destruct (hashes r !! name) as [[t h]|]; simpl;
    rewrite lookup_insert_ne by exact Hne; reflexivity.
Qed.

Lemma refresh_ok (now : Q) (self : t) (r : Redis) (a : Attrs) :
  disabled self = false ->
  initialized self = Some a ->
  hashes r !! max_active_requests_key a = None ->
  active_requests_key a <> max_active_requests_key a ->
  (forall v, redis_client.get (max_active_requests_key a) r = Some v ->
             v = RInt (max_active_requests self)) ->
  exists a' r',
    refresh now (self, r) = (Ok tt, (mk (max_active_requests self) (Some a'), r')) /\
    active_requests_key a' = active_requests_key a /\
    max_active_requests_key a' = max_active_requests_key a /\
    client_id a' = client_id a /\
    hashes r' !! max_active_requests_key a = None /\
    (forall v, redis_client.get (max_active_requests_key a) r' = Some v ->
               v = RInt (max_active_requests self)) /\
    redis_client.hgetall (active_requests_key a) r' ⊆ redis_client.hgetall (active_requests_key a) r.
Proof.
  intros Hdis Hinit Hhash Hkeys Hceil.
  unfold refresh, bind, attrs. cbn [fst snd]. rewrite Hinit.
  destruct (flush_is_due now a).
  - destruct (flush_cache_keeps now self r a Hdis Hinit Hhash Hkeys Hceil)
      as (r' & Hflush & Hget & Hh & Hsub).
    exists (touch now a), r'. rewrite Hflush.
    split; [reflexivity|]. split; [reflexivity|]. split; [reflexivity|].
    split; [reflexivity|]. split; [exact Hh|]. split; [|exact Hsub].
    intros v Hv. congruence.
  - exists a, r. destruct self as [n i]; simpl in *; subst i.
    split; [reflexivity|]. split; [reflexivity|]. split; [reflexivity|].
    split; [reflexivity|]. split; [exact Hhash|]. split; [exact Hceil|reflexivity].
Qed.

(** [enter] on an enabled limiter: the refresh, then the count against the
    ceiling. *)
Lemma enter_enabled (now : Q) (uuid4 : string) (request_id : option string)
    (self : t) (r : Redis) :
  disabled self = false ->
  enter now uuid4 request_id (self, r) =
    match refresh now (self, r) with
    | (Raise e, s) => (Raise e, s)
    | (Ok _, (self1, r1)) =>
        match initialized self1 with
        | None => (Raise (AttributeError "'RateLimit' object has no attribute"), (self1, r1))
        | Some a =>
            if max_active_requests self1 <=? redis_client.hlen (active_requests_key a) r1
            then (Raise (quota_exceeded (client_id a) (max_active_requests self1)), (self1, r1))
            else (Ok (request_key uuid4 request_id),
                  (self1, redis_client.hset (active_requests_key a)
                            (request_key uuid4 request_id) now r1))
        end
    end.
Proof.
  intros Hdis. unfold enter, bind, get_state. cbn [fst snd]. rewrite Hdis.
  destruct (refresh now (self, r)) as [[[]|e] [self1 r1]]; [|reflexivity].
  unfold attrs, redis_ask, redis_do, raise, ret. cbn [fst snd].
  destruct (initialized self1) as [a|]; [|reflexivity].
  cbn [fst snd]. destruct (_ <=? _); reflexivity.
Qed.

Lemma exit_removes (request_id : string) (self : t) (r : Redis) (a : Attrs) :
  request_id <> _UNLIMITED_REQUEST_ID ->
  initialized self = Some a ->
  exit request_id (self, r)
  = (Ok tt, (self, redis_client.hdel (active_requests_key a) [request_id] r)).
Proof.
  intros Hne Hinit. unfold exit. rewrite bool_decide_eq_false_2 by exact Hne.
  unfold bind, attrs, redis_do. cbn [fst snd]. rewrite Hinit. reflexivity.
Qed.

Lemma hlen_mono (name : string) (r r' : Redis) :
  redis_client.hgetall name r' ⊆ redis_client.hgetall name r ->
  redis_client.hlen name r' <= redis_client.hlen name r.
Proof.
  intros Hsub. unfold redis_client.hlen. apply Nat2Z.inj_le.
  apply map_subseteq_size. exact Hsub.
Qed.

Lemma hlen_nonneg (name : string) (r : Redis) : 0 <= redis_client.hlen name r.
Proof. unfold redis_client.hlen. lia. Qed.

Lemma flush_cache_members (now : Q) (use_local_value : bool) (self self' : t) (r r' : Redis)
    (a : Attrs) (res : Result unit) :
  initialized self = Some a ->
  flush_cache now use_local_value (self, r) = (res, (self', r')) ->
  redis_client.hgetall (active_requests_key a) r' ⊆ redis_client.hgetall (active_requests_key a) r /\
  exists a', initialized self' = Some a' /\ active_requests_key a' = active_requests_key a
             /\ client_id a' = client_id a.
Proof.
  intros Hinit.
  unfold flush_cache, bind, get_state, ret, set_last_recalculate_time, attrs, redis_ask, redis_do.
  cbn [fst snd]. destruct (disabled self).
  { intros H. inversion H; subst. split; [reflexivity | eauto]. }
  cbn [fst snd]. rewrite Hinit.
  cbn [fst snd initialized max_active_requests_key active_requests_key].
  destruct (use_local_value || negb _); cbn [fst snd].
  - destruct (redis_client.exists_ (active_requests_key a) _); cbn;
      [destruct (timeout_requests now _) as [|k stale]; cbn|];
      intros H; inversion H; subst;
      rewrite ?hgetall_hdel, ?hgetall_expire, ?hgetall_setex;
      (split; [first [reflexivity | apply (foldr_delete_subseteq (k :: stale))] | eauto]).
  - unfold get_int. cbn [fst snd].
    destruct (redis_client.get (max_active_requests_key a) r) as [v|];
      [destruct (int_ (decode v)) as [z|]|]; cbn;
      try (intros H; inversion H; subst; split; [reflexivity | eauto]; fail).
    destruct (redis_client.exists_ (active_requests_key a) _); cbn;
      [destruct (timeout_requests now _) as [|k stale]; cbn|];
      intros H; inversion H; subst;
      rewrite ?hgetall_hdel, ?hgetall_expire, ?hgetall_setex;
      (split; [first [reflexivity | apply (foldr_delete_subseteq (k :: stale))] | eauto]).
Qed.

Lemma refresh_members (now : Q) (self self1 : t) (r r1 : Redis) (a : Attrs) (res : Result unit) :
  refresh now (self, r) = (res, (self1, r1)) ->
  initialized self1 = Some a ->
  redis_client.hgetall (active_requests_key a) r1 ⊆ redis_client.hgetall (active_requests_key a) r.
Proof.
  unfold refresh, bind, attrs. cbn [fst snd].
  destruct (initialized self) as [a0|] eqn:Hinit.
  - destruct (flush_is_due now a0).
    + intros Hflush Hinit1.
      destruct (flush_cache_members now false self self1 r r1 a0 res Hinit Hflush)
        as (Hsub & a' & Ha' & Hk & _).
      rewrite Hinit1 in Ha'. inversion Ha'; subst a'. rewrite Hk. exact Hsub.
    + intros H _. inversion H; subst. reflexivity.
  - intros H _. inversion H; subst. reflexivity.
Qed.

(** C5.  Take an enabled limiter whose lazy refresh goes through, and count
    the members of the active-requests hash after it.  With the count at or
    above the ceiling [enter] raises [AppInvokeQuotaExceededError] and the
    store is the refreshed one, whose members were all there before; below
    the ceiling [enter] returns the request id and the hash gains the id,
    mapped to the current time.  In the second case [exit] on that id (any id
    but the unlimited sentinel) removes the record, and on a limiter whose
    stored ceiling agrees with the one in memory every following [enter]
    succeeds. *)
Theorem enter_counts_against_ceiling
    (now : Q) (uuid4 : string) (request_id : option string)
    (self : t) (r : Redis) (self1 : t) (r1 : Redis) (a : Attrs) :
  0 < max_active_requests self ->
  refresh now (self, r) = (Ok tt, (self1, r1)) ->
  initialized self1 = Some a ->
  let key := active_requests_key a in
  let count := redis_client.hlen key r1 in
  let ceiling := max_active_requests self1 in
  let rid := request_key uuid4 request_id in
  let r2 := redis_client.hset key rid now r1 in
  (ceiling <= count ->
     enter now uuid4 request_id (self, r)
       = (Raise (quota_exceeded (client_id a) ceiling), (self1, r1)) /\
     isinstance (quota_exceeded (client_id a) ceiling) "AppInvokeQuotaExceededError" = true /\
     redis_client.hgetall key r1 ⊆ redis_client.hgetall key r) /\
  (count < ceiling ->
     enter now uuid4 request_id (self, r) = (Ok rid, (self1, r2)) /\
     redis_client.hgetall key r2 = <[rid := now]> (redis_client.hgetall key r1)) /\
  (count < ceiling -> rid <> _UNLIMITED_REQUEST_ID -> coherent self1 r1 ->
     exists r3,
       exit rid (self1, r2) = (Ok tt, (self1, r3)) /\
       redis_client.hgetall key r3 !! rid = None /\
       forall now' uuid4' request_id',
         exists s4, enter now' uuid4' request_id' (self1, r3)
                    = (Ok (request_key uuid4' request_id'), s4)).
Proof.
  intros Hpos Href Hinit. cbv zeta.
  assert (Hdis : disabled self = false) by (unfold disabled; lia).
  pose proof (enter_enabled now uuid4 request_id self r Hdis) as Henter.
  rewrite Href, Hinit in Henter.
  split; [|split].
  - intros Hfull. rewrite Henter.
    destruct (Z.leb_spec (max_active_requests self1)
                (redis_client.hlen (active_requests_key a) r1)); [|lia].
    split; [reflexivity|]. split; [reflexivity|].
    exact (refresh_members now self self1 r r1 a (Ok tt) Href Hinit).
  - intros Hfree. rewrite Henter.
    destruct (Z.leb_spec (max_active_requests self1)
                (redis_client.hlen (active_requests_key a) r1)); [lia|].
    split; [reflexivity | apply hgetall_hset].
  - intros Hfree Hrid (a0 & Hinit0 & Hhash & Hkeys & Hceil).
    rewrite Hinit in Hinit0. inversion Hinit0; subst a0. clear Hinit0.
    set (key := active_requests_key a) in *.
    set (rid := request_key uuid4 request_id) in *.
    set (r2 := redis_client.hset key rid now r1).
    exists (redis_client.hdel key [rid] r2).
    split; [apply exit_removes; assumption|].
    assert (Hall : redis_client.hgetall key (redis_client.hdel key [rid] r2)
                   = delete rid (redis_client.hgetall key r1)).
    { rewrite hgetall_hdel. simpl. unfold r2. rewrite hgetall_hset.
      apply delete_insert_eq. }
    split; [rewrite Hall; apply lookup_delete_eq|].
    intros now' uuid4' request_id'.
    assert (Hdis1 : disabled self1 = false).
    { unfold disabled. pose proof (hlen_nonneg key r1). lia. }
    destruct (refresh_ok now' self1 (redis_client.hdel key [rid] r2) a Hdis1 Hinit)
      as (a' & r' & Href' & Hk & _ & _ & _ & _ & Hsub).
    + rewrite hashes_hdel_ne by exact Hkeys. unfold r2.
      rewrite hashes_hset_ne by exact Hkeys. exact Hhash.
    + exact Hkeys.
    + intros v. rewrite get_hdel. unfold r2. rewrite get_hset. apply Hceil.
    + rewrite (enter_enabled now' uuid4' request_id' self1 _ Hdis1), Href'.
      cbn [initialized max_active_requests]. rewrite Hk. fold key.
      assert (Hle : redis_client.hlen key r' <= redis_client.hlen key r1).
      { etrans; [apply hlen_mono; exact Hsub|]. apply hlen_mono. rewrite Hall.
        apply delete_subseteq. }
      destruct (Z.leb_spec (max_active_requests self1) (redis_client.hlen key r')); [lia|].
      eexists. reflexivity.
Qed.

Lemma flush_cache_disabled (now : Q) (use_local_value : bool) (self : t) (r : Redis) :
  disabled self = true -> flush_cache now use_local_value (self, r) = (Ok tt, (self, r)).
Proof.
  intros Hdis. unfold flush_cache, bind, get_state. cbn [fst snd]. rewrite Hdis. reflexivity.
Qed.

Lemma enter_disabled (now : Q) (uuid4 : string) (request_id : option string)
    (self : t) (r : Redis) :
  disabled self = true ->
  enter now uuid4 request_id (self, r) = (Ok _UNLIMITED_REQUEST_ID, (self, r)).
Proof.
  intros Hdis. unfold enter, bind, get_state. cbn [fst snd]. rewrite Hdis. reflexivity.
Qed.

(** C9.  With a ceiling of zero or less, [enter] returns the unlimited
    sentinel and leaves the instance and the store as they are, whatever the
    store holds (so it neither reads nor writes membership, and raises
    nothing); [exit] on the sentinel leaves them as they are as well, and so
    does [flush_cache]. *)
Theorem disabled_limiter_is_noop
    (now : Q) (uuid4 : string) (request_id : option string) (self : t) (r : Redis) :
  max_active_requests self <= 0 ->
  enter now uuid4 request_id (self, r) = (Ok _UNLIMITED_REQUEST_ID, (self, r)) /\
  exit _UNLIMITED_REQUEST_ID (self, r) = (Ok tt, (self, r)) /\
  (forall use_local_value, flush_cache now use_local_value (self, r) = (Ok tt, (self, r))).
Proof.
  intros Hn.
  assert (Hdis : disabled self = true) by (unfold disabled; lia).
  split; [|split].
  - apply enter_disabled. exact Hdis.
  - reflexivity.
  - intros b. apply flush_cache_disabled. exact Hdis.
Qed.

Lemma init_again (now : Q) (cid : string) (n : Z) (self : t) (r : Redis) (a : Attrs) :
  initialized self = Some a ->
  __init__ now cid n (self, r) = (Ok tt, (mk n (Some a), r)).
Proof.
  intros Hinit. unfold __init__, bind, set_max_active_requests, get_state.
  cbn [fst snd initialized]. rewrite Hinit.
  destruct (disabled _); reflexivity.
Qed.

Lemma flush_cache_adopts_store (now : Q) (n m t0 : Z) (a : Attrs) (r : Redis) :
  0 < n ->
  kv r !! max_active_requests_key a = Some (t0, RInt m) ->
  exists r', flush_cache now false (mk n (Some a), r) = (Ok tt, (mk m (Some (touch now a)), r')).
Proof.
  intros Hn Hkv.
  unfold flush_cache, bind, get_state, ret, set_last_recalculate_time, attrs, redis_ask, redis_do.
  cbn [fst snd]. unfold disabled. cbn [max_active_requests initialized].
  destruct (Z.leb_spec n 0); [lia|].
  cbn [fst snd initialized max_active_requests_key active_requests_key].
  assert (Hex : redis_client.exists_ (max_active_requests_key a) r = true).
  { unfold redis_client.exists_. rewrite Hkv. reflexivity. }
  rewrite Hex. cbn. unfold get_int, redis_client.get. cbn [fst snd]. rewrite Hkv.
  cbn [fmap option_fmap option_map snd decode]. rewrite int_pretty. cbn.
  destruct (redis_client.exists_ (active_requests_key a) _); cbn;
    [destruct (timeout_requests now _) as [|k stale]; cbn|];
    eexists; reflexivity.
Qed.

(** C10, as the code has it.  When [_instance_dict] already holds an
    initialized instance for the client, the construction returns the
    reference to that instance, sets its ceiling in memory to the new value
    and changes nothing else: the attributes, the other instances and the
    store stay.  With a new ceiling of zero or less every later [enter]
    through the reference returns the unlimited sentinel; with a positive
    one, an [enter] that needs no refresh counts against the new ceiling,
    and the next [flush_cache] puts the ceiling of the store back. *)
Theorem construct_reuses_initialized_instance
    (now : Q) (cid : string) (n : Z) (w : World) (self : t) (a : Attrs) :
  _instance_dict w !! cid = Some self ->
  initialized self = Some a ->
  let w' := mkWorld (<[cid := mk n (Some a)]> (_instance_dict w)) (redis w) in
  construct now cid n w = (Ok cid, w') /\
  (n <= 0 ->
     forall now' uuid4 request_id,
       on_instance cid (enter now' uuid4 request_id) w' = (Ok _UNLIMITED_REQUEST_ID, w')) /\
  (0 < n ->
     forall now' uuid4 request_id,
       flush_is_due now' a = false ->
       on_instance cid (enter now' uuid4 request_id) w' =
         if n <=? redis_client.hlen (active_requests_key a) (redis w)
         then (Raise (quota_exceeded (client_id a) n), w')
         else (Ok (request_key uuid4 request_id),
               mkWorld (_instance_dict w')
                 (redis_client.hset (active_requests_key a)
                    (request_key uuid4 request_id) now' (redis w)))) /\
  (0 < n ->
     forall now' m t0,
       kv (redis w) !! max_active_requests_key a = Some (t0, RInt m) ->
       max_active_requests (fst (snd (flush_cache now' false (mk n (Some a), redis w)))) = m).
Proof.
  intros Hd Hinit. cbv zeta. split; [|split; [|split]].
  - unfold construct, __new__. rewrite Hd. unfold bind, on_instance. cbn [_instance_dict redis].
    rewrite Hd. rewrite (init_again now cid n self (redis w) a Hinit). reflexivity.
  - intros Hn now' uuid4 request_id. unfold on_instance. cbn [_instance_dict redis].
    rewrite lookup_insert_eq.
    rewrite enter_disabled by (unfold disabled; cbn; lia).
    rewrite insert_insert_eq. reflexivity.
  - intros Hn now' uuid4 request_id Hdue. unfold on_instance. cbn [_instance_dict redis].
    rewrite lookup_insert_eq.
    rewrite enter_enabled by (unfold disabled; cbn; lia).
    unfold refresh, bind, attrs. cbn [fst snd initialized]. rewrite Hdue.
    unfold ret. cbn [initialized max_active_requests].
    destruct (n <=? _); rewrite insert_insert_eq; reflexivity.
  - intros Hn now' m t0 Hkv.
    destruct (flush_cache_adopts_store now' n m t0 a (redis w) Hn Hkv) as [r' ->]. reflexivity.
Qed.

(** C10 as stated fails.  An instance that was constructed with a ceiling of
    zero exists without being initialized; the next construction with a
    positive ceiling initializes it and writes the ceiling to the store. *)
Lemma construct_writes_when_uninitialized :
  let w1 := snd (construct 0 "app" 0 (mkWorld ∅ redis_client.empty)) in
  let w2 := snd (construct 1 "app" 3 w1) in
  _instance_dict w1 !! "app" = Some (mk 0 None) /\
  redis w1 = redis_client.empty /\
  fst (construct 1 "app" 3 w1) = Ok "app" /\
  redis_client.get (_MAX_ACTIVE_REQUESTS_KEY "app") (redis w1) = None /\
  redis_client.get (_MAX_ACTIVE_REQUESTS_KEY "app") (redis w2) = Some (RInt 3).
Proof. vm_compute. repeat split; reflexivity. Qed.

(** The spec's scenario on [app_world] (ceiling 2): two requests are
    admitted, the third is refused, and after one [exit] the next is admitted
    again. *)
Lemma two_slots_scenario :
  let enter_ now id w := on_instance "app" (enter now "uuid" (Some id)) w in
  let w1 := snd (enter_ 1%Q "a" app_world) in
  let w2 := snd (enter_ 2%Q "b" w1) in
  let w3 := snd (on_instance "app" (exit "a") w2) in
  fst (enter_ 1%Q "a" app_world) = Ok "a" /\
  fst (enter_ 2%Q "b" w1) = Ok "b" /\
  is_ok (fst (enter_ 3%Q "c" w2)) = false /\
  fst (enter_ 4%Q "c" w3) = Ok "c".
Proof. vm_compute. repeat split; reflexivity. Qed.

End limiter_properties.

(** ** The streaming wrapper *)

Section wrapper_properties.
Import RateLimitGenerator.

Lemma close_keeps_world (s : t * RateLimit.World) :
  fst (close s) = Ok tt /\ snd (snd (close s)) = snd s /\ closed (fst (snd (close s))) = true.
Proof.
  destruct s as [self w]. unfold close. destruct (closed self) eqn:Hc; simpl; auto.
Qed.

Lemma next_keeps_world (s : t * RateLimit.World) :
  snd (snd (__next__ s)) = snd s.
Proof.
  destruct s as [self w]. unfold __next__. destruct (closed self) eqn:Hc; [reflexivity|].
  destruct (next (generator self)) as [[chunk|e] g']; [reflexivity|].
  destruct (isinstance e "Exception"); [|reflexivity].
  unfold close. simpl. destruct (closed self); reflexivity.
Qed.

(** Whatever the consumer does with the wrapper, the store and the limiter
    are as they were: nothing on this path calls [RateLimit.exit]. *)
Lemma drain_keeps_world (fuel : nat) :
  forall s, snd (snd (drain fuel s)) = snd s.
Proof.
  induction fuel as [|fuel IH]; intros s; [reflexivity|]. simpl.
  pose proof (next_keeps_world s) as Hn.
  destruct (__next__ s) as [[chunk|e] s1]; simpl in *.
  - specialize (IH s1). destruct (drain fuel s1) as [[chunks end_] s2]. simpl in *. congruence.
  - exact Hn.
Qed.

(** C3 on the code.  The stream of ["request-1"] is wrapped and then runs to
    its end, or raises, or is closed by the consumer.  Each time the wrapper
    ends up closed, and each time the membership record of ["request-1"] is
    still in the store, so that the next [enter] of the client is refused. *)
Theorem streaming_slot_is_not_released :
  members one_slot_taken !! "request-1" = Some 1%Q /\
  generate "app" (inl [Ok "Hel"; Ok "lo"]) "request-1" = inl (fst (wrap [Ok "Hel"; Ok "lo"])) /\
  (let '(chunks, end_, (it, w)) := drain 5 (wrap [Ok "Hel"; Ok "lo"]) in
   chunks = ["Hel"; "lo"] /\ end_ = Some StopIteration /\ closed it = true /\
   members w !! "request-1" = Some 1%Q /\
   is_ok (fst (RateLimit.on_instance "app" (RateLimit.enter 2 "uuid-2" None) w)) = false) /\
  (let '(chunks, end_, (it, w)) := drain 5 (wrap [Ok "Hel"; Raise (ValueError "boom")]) in
   chunks = ["Hel"] /\ end_ = Some (ValueError "boom") /\ closed it = true /\
   members w !! "request-1" = Some 1%Q /\
   is_ok (fst (RateLimit.on_instance "app" (RateLimit.enter 2 "uuid-2" None) w)) = false) /\
  (let '(_, (it, w)) := close (wrap [Ok "Hel"; Ok "lo"]) in
   closed it = true /\
   members w !! "request-1" = Some 1%Q /\
   is_ok (fst (RateLimit.on_instance "app" (RateLimit.enter 2 "uuid-2" None) w)) = false).
Proof. vm_compute. repeat split; reflexivity. Qed.

(** What releasing would have done: after [exit] the record is gone and the
    next [enter] is admitted. *)
Lemma exit_would_release :
  let w := snd (RateLimit.on_instance "app" (RateLimit.exit "request-1") one_slot_taken) in
  members w !! "request-1" = None /\
  fst (RateLimit.on_instance "app" (RateLimit.enter 2 "uuid-2" None) w) = Ok "uuid-2".
Proof. vm_compute. split; reflexivity. Qed.

End wrapper_properties.

(** ** The worker *)

Section worker_properties.
Import ChatAppGenerator.

(** C8, as the code has it.  Let the body of the worker raise an exception
    [e] that is an instance of [Exception].  [_generate_worker] then returns
    normally.  When [e] is a [GenerateTaskStoppedError] the queue manager is
    as the body left it; otherwise exactly one [QueueErrorEvent] has been
    published through [publish_error] with origin [APPLICATION_MANAGER] and
    is the last entry of the channel; it carries [e], or, for an
    [InvokeAuthorizationError], a fresh instance of that class. *)
Theorem worker_republishes_exceptions
    (work : Work) (queue_manager queue_manager1 : AppQueueManager.t) (e : PyExc) :
  work queue_manager = (Raise e, queue_manager1) ->
  isinstance e "Exception" = true ->
  exists queue_manager2,
    _generate_worker work queue_manager = (Ok tt, queue_manager2) /\
    if isinstance e "GenerateTaskStoppedError"
    then queue_manager2 = queue_manager1
    else exists reported,
        AppQueueManager.publish_error reported APPLICATION_MANAGER queue_manager1
          = Ok queue_manager2 /\
        AppQueueManager._q queue_manager2
          = AppQueueManager._q queue_manager1 ++ [Some (QueueErrorEvent reported)] /\
        (reported = e \/
         (isinstance e "InvokeAuthorizationError" = true /\
          isinstance reported "InvokeAuthorizationError" = true)).
Proof.
  intros Hwork Hexc. unfold _generate_worker. rewrite Hwork. unfold handle.
  destruct (isinstance e "GenerateTaskStoppedError"); [eexists; split; reflexivity|].
  destruct (isinstance e "InvokeAuthorizationError") eqn:Hauth.
  { eexists. split; [reflexivity|]. eexists. split; [reflexivity|].
    split; [reflexivity|]. right. split; reflexivity. }
  destruct (isinstance e "ValidationError");
    [|destruct (isinstance e "ValueError"); [|rewrite Hexc]];
    (eexists; split; [reflexivity|]; exists e; split; [reflexivity|];
     split; [reflexivity | left; reflexivity]).
Qed.

(** An exception that is no [Exception] (a [SystemExit], say) is not caught. *)
Lemma worker_lets_base_exceptions_through
    (work : Work) (queue_manager queue_manager1 : AppQueueManager.t) (e : PyExc) :
  work queue_manager = (Raise e, queue_manager1) ->
  exc_mro e = ["SystemExit"; "BaseException"] ->
  _generate_worker work queue_manager = (Raise e, queue_manager1).
Proof.
  intros Hwork Hmro. unfold _generate_worker. rewrite Hwork.
  unfold handle, isinstance. rewrite Hmro. reflexivity.
Qed.

(** C8 as stated fails: a [SystemExit] raised by the body is no [Exception];
    it leaves the worker as it was raised, and nothing is published. *)
Lemma system_exit_leaves_the_worker :
  isinstance SystemExit "BaseException" = true /\
  isinstance SystemExit "Exception" = false /\
  _generate_worker exiting_work hello_queue = (Raise SystemExit, hello_queue) /\
  AppQueueManager._q hello_queue = [].
Proof.
  split; [reflexivity|]. split; [reflexivity|]. split; [|reflexivity].
  apply worker_lets_base_exceptions_through; reflexivity.
Qed.

(** A stopped task: nothing is published and the worker returns. *)
Lemma worker_swallows_stop (queue_manager : AppQueueManager.t) :
  _generate_worker (fun qm => (Raise GenerateTaskStoppedError, qm)) queue_manager
  = (Ok tt, queue_manager).
Proof. reflexivity. Qed.

(** A body that returns: the worker returns, and publishes nothing of its own. *)
Lemma worker_returns
    (work : Work) (queue_manager queue_manager1 : AppQueueManager.t) :
  work queue_manager = (Ok tt, queue_manager1) ->
  _generate_worker work queue_manager = (Ok tt, queue_manager1).
Proof. intros Hwork. unfold _generate_worker. rewrite Hwork. reflexivity. Qed.

End worker_properties.

(** ** More on the concurrency limiter *)

Section limiter_more_properties.
Import RateLimit.

Lemma timeout_requests_elem (now : Q) (h : gmap string Q) (k : string) :
  k ∈ timeout_requests now h <->
  exists t, h !! k = Some t /\ Qltb (inject_Z _REQUEST_MAX_ALIVE_TIME) (now - t)%Q = true.
Proof.
  unfold timeout_requests. rewrite list_elem_of_fmap. split.
  - intros ([k' t] & -> & Hin). apply list_elem_of_filter in Hin as [Hst Hin].
    apply elem_of_map_to_list in Hin. exists t. split; assumption.
  - intros (t & Hk & Hst). exists (k, t). split; [reflexivity|].
    apply list_elem_of_filter. split; [exact Hst|]. apply elem_of_map_to_list. exact Hk.
Qed.

Lemma foldr_delete_lookup_ne (keys : list string) (h : gmap string Q) (k : string) :
  k ∉ keys -> foldr delete h keys !! k = h !! k.
Proof.
  induction keys as [|k' keys IH]; simpl; intros Hin; [reflexivity|].
  apply not_elem_of_cons in Hin as [Hne Hin].
  rewrite lookup_delete_ne by congruence. apply IH. exact Hin.
Qed.

Lemma hgetall_not_exists (name : string) (r : Redis) :
  redis_client.exists_ name r = false -> redis_client.hgetall name r = ∅.
Proof.
  unfold redis_client.exists_, redis_client.hgetall. intros H.
  apply orb_false_elim in H as [_ H].
  destruct (hashes r !! name) as [[t h]|]; [|reflexivity].
  rewrite bool_decide_eq_true_2 in H by eauto. discriminate.
Qed.

Lemma flush_cache_hgetall (now : Q) (use_local_value : bool) (self self' : t) (r r' : Redis)
    (a : Attrs) :
  disabled self = false ->
  initialized self = Some a ->
  flush_cache now use_local_value (self, r) = (Ok tt, (self', r')) ->
  redis_client.hgetall (active_requests_key a) r'
  = foldr delete (redis_client.hgetall (active_requests_key a) r)
      (timeout_requests now (redis_client.hgetall (active_requests_key a) r)).
Proof.
  intros Hdis Hinit.
  unfold flush_cache, bind, get_state, ret, set_last_recalculate_time, attrs, redis_ask, redis_do.
  cbn [fst snd]. rewrite Hdis. cbn [fst snd]. rewrite Hinit.
  cbn [fst snd initialized max_active_requests_key active_requests_key].
  destruct (use_local_value || negb _); cbn [fst snd].
  - destruct (redis_client.exists_ (active_requests_key a) _) eqn:Hex; cbn.
    + rewrite !hgetall_expire, ?hgetall_setex.
      destruct (timeout_requests now _) as [|k stale] eqn:Hst; cbn;
        intros H; inversion H; subst;
        rewrite ?hgetall_hdel, ?hgetall_expire, ?hgetall_setex; reflexivity.
    + intros H; inversion H; subst.
      apply hgetall_not_exists in Hex. rewrite Hex.
      rewrite !hgetall_expire, ?hgetall_setex in Hex. rewrite Hex. reflexivity.
  - unfold get_int. cbn [fst snd].
    destruct (redis_client.get (max_active_requests_key a) r) as [v|];
      [destruct (int_ (decode v)) as [z|]|]; cbn;
      try (intros H; inversion H; fail).
    destruct (redis_client.exists_ (active_requests_key a) _) eqn:Hex; cbn.
    + rewrite !hgetall_expire.
      destruct (timeout_requests now _) as [|k stale] eqn:Hst; cbn;
        intros H; inversion H; subst;
        rewrite ?hgetall_hdel, ?hgetall_expire, ?hgetall_setex; reflexivity.
    + intros H; inversion H; subst.
      apply hgetall_not_exists in Hex. rewrite Hex.
      rewrite !hgetall_expire in Hex. rewrite Hex. reflexivity.
Qed.

(** X1.  A [flush_cache] that goes through on an enabled, initialized limiter
    purges the active-requests hash of exactly the stale records: a request
    is a member afterwards, with its time of entry, if and only if it was a
    member before and has been alive for at most [_REQUEST_MAX_ALIVE_TIME]
    (600 seconds) at the time of the flush. *)
Theorem flush_cache_drops_exactly_the_stale
    (now : Q) (use_local_value : bool) (self self' : t) (r r' : Redis) (a : Attrs) :
  disabled self = false ->
  initialized self = Some a ->
  flush_cache now use_local_value (self, r) = (Ok tt, (self', r')) ->
  forall (request_id : string) (entered_at : Q),
    redis_client.hgetall (active_requests_key a) r' !! request_id = Some entered_at <->
    redis_client.hgetall (active_requests_key a) r !! request_id = Some entered_at /\
    (now - entered_at <= inject_Z _REQUEST_MAX_ALIVE_TIME)%Q.
Proof.
  intros Hdis Hinit Hflush request_id entered_at.
  rewrite (flush_cache_hgetall now use_local_value self self' r r' a Hdis Hinit Hflush).
  set (h := redis_client.hgetall (active_requests_key a) r).
  destruct (decide (request_id ∈ timeout_requests now h)) as [Hin|Hout].
  - rewrite foldr_delete_lookup by exact Hin.
    apply timeout_requests_elem in Hin as (t0 & Hk & Hst).
    split; [discriminate|]. intros [Hk' Hle]. rewrite Hk in Hk'. inversion Hk'; subst t0.
    unfold Qltb in Hst. apply negb_true_iff in Hst.
    apply Qle_bool_iff in Hle. congruence.
  - rewrite foldr_delete_lookup_ne by exact Hout. split.
    + intros Hk. split; [exact Hk|].
      destruct (Qle_bool (now - entered_at) (inject_Z _REQUEST_MAX_ALIVE_TIME)) eqn:Hle.
      * apply Qle_bool_iff. exact Hle.
      * exfalso. apply Hout. apply timeout_requests_elem. exists entered_at.
        split; [exact Hk|]. unfold Qltb. rewrite Hle. reflexivity.
    + intros [Hk _]. exact Hk.
Qed.

(** X2.  After a [flush_cache] that goes through on an enabled, initialized
    limiter the number under the ceiling key of the store, read as the code
    reads it, is the ceiling in memory, and [last_recalculate_time] is the
    time of the flush.  Which of the two ceilings wins is as the code says:
    with [use_local_value], or when the store has no entry, the one in memory
    is kept and written; otherwise the one in the store is adopted, written
    as a number or as text, and the entry stays as it was. *)
Theorem flush_cache_settles_the_ceiling
    (now : Q) (use_local_value : bool) (self self' : t) (r r' : Redis) (a : Attrs) :
  disabled self = false ->
  initialized self = Some a ->
  flush_cache now use_local_value (self, r) = (Ok tt, (self', r')) ->
  initialized self' = Some (touch now a) /\
  stored_int (max_active_requests_key a) r' = Some (max_active_requests self') /\
  (if use_local_value || negb (redis_client.exists_ (max_active_requests_key a) r)
   then max_active_requests self' = max_active_requests self /\
        redis_client.get (max_active_requests_key a) r'
        = Some (RInt (max_active_requests self))
   else stored_int (max_active_requests_key a) r = Some (max_active_requests self') /\
        redis_client.get (max_active_requests_key a) r'
        = redis_client.get (max_active_requests_key a) r).
Proof.
  intros Hdis Hinit.
  unfold flush_cache, bind, get_state, ret, set_last_recalculate_time, attrs, redis_ask, redis_do.
  cbn [fst snd]. rewrite Hdis. cbn [fst snd]. rewrite Hinit.
  cbn [fst snd initialized max_active_requests_key active_requests_key].
  destruct (use_local_value || negb _); cbn [fst snd].
  - destruct (redis_client.exists_ (active_requests_key a) _); cbn;
      [destruct (timeout_requests now _) as [|k stale]; cbn|];
      intros H; inversion H; subst; cbn [initialized max_active_requests];
      unfold stored_int;
      rewrite ?get_hdel, ?get_expire, ?get_setex, ?bool_decide_eq_true_2 by reflexivity;
      cbn [mbind option_bind decode]; rewrite int_pretty;
      repeat split; reflexivity.
  - unfold get_int. cbn [fst snd].
    destruct (redis_client.get (max_active_requests_key a) r) as [v|] eqn:Hget;
      [destruct (int_ (decode v)) as [z|] eqn:Hint|]; cbn;
      try (intros H; inversion H; fail).
    destruct (redis_client.exists_ (active_requests_key a) _); cbn;
      [destruct (timeout_requests now _) as [|k stale]; cbn|];
      intros H; inversion H; subst; cbn [initialized max_active_requests];
      unfold stored_int;
      rewrite ?get_hdel, ?get_expire, ?Hget;
      cbn [mbind option_bind]; rewrite ?Hint;
      repeat split; reflexivity.
Qed.

Lemma hlen_hset (name key : string) (value : Q) (r : Redis) :
  redis_client.hlen name (redis_client.hset name key value r) <= redis_client.hlen name r + 1.
Proof.
  unfold redis_client.hlen. rewrite hgetall_hset, map_size_insert.
  destruct (redis_client.hgetall name r !! key); simpl; lia.
Qed.

(** X3.  When [enter] on an enabled limiter returns a request id, that id
    is the one asked for (or the generated one), it is recorded in the
    active-requests hash with the current time, and the hash then has no
    more members than the ceiling in memory allows. *)
Theorem enter_stays_within_ceiling
    (now : Q) (uuid4 : string) (request_id : option string)
    (self self1 : t) (r r2 : Redis) (rid : string) (a : Attrs) :
  disabled self = false ->
  enter now uuid4 request_id (self, r) = (Ok rid, (self1, r2)) ->
  initialized self1 = Some a ->
  rid = request_key uuid4 request_id /\
  redis_client.hgetall (active_requests_key a) r2 !! rid = Some now /\
  redis_client.hlen (active_requests_key a) r2 <= max_active_requests self1.
Proof.
  intros Hdis Henter Hinit.
  rewrite (enter_enabled now uuid4 request_id self r Hdis) in Henter.
  destruct (refresh now (self, r)) as [[[]|e] [self0 r1]]; [|discriminate].
  destruct (initialized self0) as [a0|] eqn:Ha0; [|discriminate].
  destruct (Z.leb_spec (max_active_requests self0)
              (redis_client.hlen (active_requests_key a0) r1)); [discriminate|].
  inversion Henter; subst. rewrite Hinit in Ha0. inversion Ha0; subst a0.
  split; [reflexivity|]. split.
  - rewrite hgetall_hset. apply lookup_insert_eq.
  - pose proof (hlen_hset (active_requests_key a) (request_key uuid4 request_id) now r1). lia.
Qed.

(** X4.  [exit] undoes [enter]: after [enter] has returned an id (other than
    the unlimited sentinel) and [exit] has been called on it, the
    active-requests hash is the one [enter] found after its lazy refresh,
    without that id; when the id was not a member before, the membership is
    exactly what it was after the refresh. *)
Theorem exit_undoes_enter
    (now : Q) (uuid4 : string) (request_id : option string)
    (self self1 : t) (r r2 : Redis) (rid : string) (a : Attrs) :
  disabled self = false ->
  enter now uuid4 request_id (self, r) = (Ok rid, (self1, r2)) ->
  initialized self1 = Some a ->
  rid <> _UNLIMITED_REQUEST_ID ->
  exists r1 r3,
    refresh now (self, r) = (Ok tt, (self1, r1)) /\
    exit rid (self1, r2) = (Ok tt, (self1, r3)) /\
    redis_client.hgetall (active_requests_key a) r3
      = delete rid (redis_client.hgetall (active_requests_key a) r1) /\
    (redis_client.hgetall (active_requests_key a) r1 !! rid = None ->
     redis_client.hgetall (active_requests_key a) r3
       = redis_client.hgetall (active_requests_key a) r1).
Proof.
  intros Hdis Henter Hinit Hrid.
  rewrite (enter_enabled now uuid4 request_id self r Hdis) in Henter.
  destruct (refresh now (self, r)) as [[[]|e] [self0 r1]]; [|discriminate].
  destruct (initialized self0) as [a0|] eqn:Ha0; [|discriminate].
  destruct (Z.leb_spec (max_active_requests self0)
              (redis_client.hlen (active_requests_key a0) r1)); [discriminate|].
  inversion Henter; subst. rewrite Hinit in Ha0. inversion Ha0; subst a0.
  exists r1. eexists. split; [reflexivity|].
  split; [apply (exit_removes _ _ _ a); assumption|].
  assert (Hall : redis_client.hgetall (active_requests_key a)
                   (redis_client.hdel (active_requests_key a) [request_key uuid4 request_id]
                      (redis_client.hset (active_requests_key a)
                         (request_key uuid4 request_id) now r1))
                 = delete (request_key uuid4 request_id)
                     (redis_client.hgetall (active_requests_key a) r1)).
  { rewrite hgetall_hdel. simpl. rewrite hgetall_hset. apply delete_insert_eq. }
  split; [exact Hall|]. intros Hfresh. rewrite Hall. apply delete_id. exact Hfresh.
Qed.

Lemma hdel_idempotent (name key : string) (r : Redis) :
  redis_client.hdel name [key] (redis_client.hdel name [key] r) = redis_client.hdel name [key] r.
Proof.
  unfold redis_client.hdel at 2 3. destruct (hashes r !! name) as [[t h]|] eqn:Hh; simpl.
  - case_bool_decide as He.
    + unfold redis_client.hdel. simpl. rewrite lookup_delete_eq. reflexivity.
    + unfold redis_client.hdel. simpl. rewrite lookup_insert_eq. simpl.
      rewrite delete_delete_eq. rewrite bool_decide_eq_false_2 by exact He.
      rewrite insert_insert_eq. reflexivity.
  - unfold redis_client.hdel. rewrite Hh. reflexivity.
Qed.

(** X5.  [exit] is idempotent and touches nothing but its own record: a
    second [exit] on the same id returns the same and leaves the instance
    and the store as the first one left them; the instance, the string keys,
    every other hash and every other member of the active-requests hash are
    as before the call. *)
Theorem exit_is_idempotent_and_local (request_id : string) (self : t) (r : Redis) :
  let '(res, (self1, r1)) := exit request_id (self, r) in
  exit request_id (self1, r1) = (res, (self1, r1)) /\
  self1 = self /\
  kv r1 = kv r /\
  (forall a name, initialized self = Some a -> name <> active_requests_key a ->
     hashes r1 !! name = hashes r !! name) /\
  (forall a other, initialized self = Some a -> other <> request_id ->
     redis_client.hgetall (active_requests_key a) r1 !! other
     = redis_client.hgetall (active_requests_key a) r !! other).
Proof.
  unfold exit. case_bool_decide as Hs.
  { cbn. repeat split; reflexivity. }
  unfold bind, attrs, redis_do. cbn [fst snd].
  destruct (initialized self) as [a|] eqn:Hinit; cbn.
  - rewrite Hinit. cbn.
    rewrite hdel_idempotent. split; [reflexivity|]. split; [reflexivity|]. split.
    { unfold redis_client.hdel. destruct (hashes r !! active_requests_key a) as [[t0 h]|];
        [case_bool_decide|]; reflexivity. }
    split.
    + intros a' name Ha' Hne. inversion Ha'; subst a'.
      apply hashes_hdel_ne. congruence.
    + intros a' other Ha' Hne. inversion Ha'; subst a'.
      rewrite hgetall_hdel. simpl. apply lookup_delete_ne. congruence.
  - rewrite Hinit.
    repeat split; try reflexivity; intros; discriminate.
Qed.

End limiter_more_properties.

(** ** More on the streaming wrapper, the stop flag and the channel *)

Section stream_properties.
Import RateLimitGenerator.

Lemma drain_open (g : Generator) :
  forall (fuel : nat) (ref rid : string) (w : RateLimit.World),
    (length (chunks_of g) < fuel)%nat ->
    drain fuel (mk ref g rid false, w)
    = (chunks_of g, Some (end_of g), (mk ref [] rid (isinstance (end_of g) "Exception"), w)).
Proof.
  induction g as [|[chunk|e] g IH]; intros fuel ref rid w Hfuel;
    (destruct fuel as [|fuel]; [simpl in Hfuel; lia|]).
  - reflexivity.
  - simpl. rewrite IH by (simpl in Hfuel; lia). reflexivity.
  - simpl. destruct (isinstance e "Exception"); reflexivity.
Qed.

(** X6.  [RateLimitGenerator] is transparent: a consumer that iterates the
    wrapper gets the chunks of the wrapped generator in their order and then
    the exception the generator ends with ([StopIteration] at exhaustion).
    The limiter and the store are untouched.  The wrapper is closed
    afterwards exactly when that exception is an [Exception], and a closed
    wrapper answers every further [__next__] with [StopIteration]. *)
Theorem wrapper_passes_the_stream_through
    (g : Generator) (fuel : nat) (ref rid : string) (w : RateLimit.World) :
  (length (chunks_of g) < fuel)%nat ->
  let '(chunks, end_, s) := drain fuel (__init__ ref g rid, w) in
  chunks = chunks_of g /\
  end_ = Some (end_of g) /\
  snd s = w /\
  closed (fst s) = isinstance (end_of g) "Exception" /\
  (closed (fst s) = true ->
   forall more, (0 < more)%nat -> drain more s = ([], Some StopIteration, s)).
Proof.
  intros Hfuel. unfold __init__. rewrite (drain_open g fuel ref rid w Hfuel).
  cbn [fst snd closed]. repeat split. intros Hc more Hmore.
  destruct more as [|more]; [lia|]. simpl. rewrite Hc. reflexivity.
Qed.

End stream_properties.

Section stop_request_properties.
Import AppQueueManager.

(** A stop request that does not name the owner leaves the store alone. *)
Lemma set_stop_flag_not_owner
    (task_id user_id : string) (invoke_from : InvokeFrom)
    (invoke_from' : InvokeFrom) (user_id' : string) (r : Redis) :
  redis_client.get (_generate_task_belong_cache_key task_id) r
    = Some (RStr (belongs_to invoke_from user_id)) ->
  (user_prefix invoke_from', user_id') <> (user_prefix invoke_from, user_id) ->
  set_stop_flag task_id invoke_from' user_id' r = r.
Proof.
  intros Hget Hne. unfold set_stop_flag. rewrite Hget. simpl.
  case_bool_decide as Hd; [reflexivity|]. exfalso.
  apply Hne. symmetry. apply belongs_to_inj. exact Hd.
Qed.

(** X7.  After [AppQueueManager.__init__] has registered a task for a user,
    a call of [set_stop_flag] leaves the task stopped if and only if the
    task was stopped already or the call names the same user id in the same
    namespace (["account"] for [EXPLORE] and [DEBUGGER], ["end-user"] for
    [SERVICE_API] and [WEB_APP]). *)
Theorem stop_flag_is_set_exactly_by_the_owner
    (task_id user_id : string) (invoke_from : InvokeFrom) (r r1 : Redis) (self : t)
    (invoke_from' : InvokeFrom) (user_id' : string) :
  __init__ task_id user_id invoke_from r = (Ok self, r1) ->
  (_is_stopped self (set_stop_flag task_id invoke_from' user_id' r1) = true <->
   _is_stopped self r = true \/
   (user_prefix invoke_from' = user_prefix invoke_from /\ user_id' = user_id)).
Proof.
  intros Hinit.
  destruct (init_registers_owner task_id user_id invoke_from r r1 self Hinit)
    as (Hid & _ & _ & Hget & Hflag).
  destruct (decide ((user_prefix invoke_from', user_id') = (user_prefix invoke_from, user_id)))
    as [Heq|Hne].
  - split; [|intros _].
    + intros _. right. inversion Heq. auto.
    + apply belongs_to_inj in Heq. rewrite <- Heq in Hget.
      apply set_stop_flag_by_owner; assumption.
  - rewrite (set_stop_flag_not_owner task_id user_id invoke_from invoke_from' user_id' r1 Hget Hne).
    rewrite Hflag. split; [auto|].
    intros [H|[Hp Hu]]; [exact H|]. exfalso. apply Hne. congruence.
Qed.

(** X8.  [set_stop_flag] writes at most the stop flag of its task: the
    hashes and every string key other than that flag are as before, so the
    owner entries and the stop flags of other tasks are; a flag that was set
    stays set; and a second call with the same arguments changes nothing. *)
Theorem set_stop_flag_touches_one_flag
    (task_id : string) (invoke_from : InvokeFrom) (user_id : string) (r : Redis) :
  let r' := set_stop_flag task_id invoke_from user_id r in
  hashes r' = hashes r /\
  (forall name, name <> _generate_stopped_cache_key task_id ->
     redis_client.get name r' = redis_client.get name r) /\
  (forall other, _task_id other <> task_id -> _is_stopped other r' = _is_stopped other r) /\
  (forall other, _is_stopped other r = true -> _is_stopped other r' = true) /\
  set_stop_flag task_id invoke_from user_id r' = r'.
Proof.
  cbv zeta. unfold set_stop_flag.
  destruct (redis_client.get (_generate_task_belong_cache_key task_id) r) as [owner|] eqn:Hget.
  2:{ rewrite Hget. repeat split; auto. }
  case_bool_decide as Hd.
  { rewrite Hget. rewrite bool_decide_eq_true_2 by exact Hd. repeat split; auto. }
  assert (Hframe : forall name, name <> _generate_stopped_cache_key task_id ->
            redis_client.get name
              (redis_client.setex (_generate_stopped_cache_key task_id) 600 (RInt 1) r)
            = redis_client.get name r).
  { intros name Hne. rewrite get_setex. rewrite bool_decide_eq_false_2 by congruence.
    reflexivity. }
  split; [reflexivity|]. split; [exact Hframe|]. split; [|split].
  - intros other Hother. unfold _is_stopped. rewrite Hframe; [reflexivity|].
    intros Heq. apply stopped_key_inj in Heq. contradiction.
  - intros other Hset. unfold _is_stopped. rewrite get_setex.
    destruct (bool_decide (_generate_stopped_cache_key task_id
                           = _generate_stopped_cache_key (_task_id other)));
      [apply bool_decide_eq_true_2; eauto | exact Hset].
  - rewrite Hframe by apply belong_key_not_stopped_key. rewrite Hget.
    rewrite bool_decide_eq_false_2 by (intros Hne; exact (Hne Hd)).
    unfold redis_client.setex. simpl. rewrite insert_insert_eq. reflexivity.
Qed.

End stop_request_properties.

Section channel_order_properties.
Import AppQueueManager.

Lemma ahead_of_sentinel_app (events : list AppQueueEvent) (q : list (option AppQueueEvent)) :
  ahead_of_sentinel (map Some events ++ q) = events ++ ahead_of_sentinel q.
Proof. induction events as [|e events IH]; simpl; [reflexivity|]. rewrite IH. reflexivity. Qed.

Lemma listen_run_never_fails (polls : list Poll) :
  forall l, state l = Running ->
    state (fst (listen_run polls l)) = Running \/ state (fst (listen_run polls l)) = Finished.
Proof.
  induction polls as [|p polls IH]; intros l Hs; [left; exact Hs|].
  simpl. destruct (listen_poll_turn p l Hs) as (_ & _ & _ & _ & _ & _ & Hstate).
  destruct (listen_poll p l) as [l1 turn] eqn:Hpoll. simpl in Hstate.
  destruct (_q (self l) ++ arrived p) as [|[m|] rest].
  - specialize (IH l1 Hstate). destruct (listen_run polls l1). exact IH.
  - specialize (IH l1 Hstate). destruct (listen_run polls l1). exact IH.
  - assert (Hdone : state l1 <> Running) by (rewrite Hstate; discriminate).
    rewrite (listen_run_stopped polls l1 Hdone). right. exact Hstate.
Qed.

(** X9.  First in, first out, whoever publishes.  Over any turns of a running
    [listen()], take the channel as it was followed by everything that
    entered it (what producers put and what the loop published itself).
    When the generator has returned, what it yielded is exactly the messages
    ahead of the first close sentinel, in channel order.  Otherwise it is
    still running (the loop never raises), and the channel is what it
    yielded followed by what is still waiting. *)
Theorem listen_yields_in_channel_order (polls : list Poll) (l : Listening) :
  state l = Running ->
  let run := listen_run polls l in
  let channel := _q (self l) ++ entered polls l in
  (state (fst run) = Finished ->
     yields (snd run) = ahead_of_sentinel channel) /\
  (state (fst run) <> Finished ->
     state (fst run) = Running /\
     channel = map Some (yields (snd run)) ++ _q (self (fst run))).
Proof.
  intros Hs. cbv zeta. pose proof (listen_fifo polls l Hs) as Hfifo.
  destruct (listen_run_never_fails polls l Hs) as [Hr|Hf].
  - rewrite Hr in *. split; [discriminate|]. intros _. split; [reflexivity | exact Hfifo].
  - rewrite Hf in *. split; [|congruence]. intros _.
    rewrite Hfifo, ahead_of_sentinel_app. simpl. rewrite app_nil_r. reflexivity.
Qed.

End channel_order_properties.

(** ** The daily limiter *)

Section rate_limiter_properties.
Import redis_sorted_sets.

Lemma zrange_zremrangebyscore (name : string) (min : option Z) (max : Z) (z : t) :
  zrange name (zremrangebyscore name min max z)
  = filter (fun ms => in_score_range min max (snd ms) = false) (zrange name z).
Proof.
  unfold zrange, zremrangebyscore, t in *. destruct (z !! name) as [[ttl m]|] eqn:Hz; cbv zeta.
  - case_bool_decide as He.
    + rewrite lookup_delete_eq. symmetry. exact He.
    + rewrite lookup_insert_eq. reflexivity.
  - rewrite Hz. symmetry. apply map_filter_empty.
Qed.

Lemma zrange_zadd (name : string) (member score : Z) (z : t) :
  zrange name (zadd name member score z) = <[member := score]> (zrange name z).
Proof.
  unfold zrange, zadd, t in *. destruct (z !! name) as [[ttl m]|]; simpl;
    rewrite lookup_insert_eq; reflexivity.
Qed.

Lemma zrange_expire (name name' : string) (time : Z) (z : t) :
  zrange name' (expire name time z) = zrange name' z.
Proof.
  unfold zrange, expire, t in *. rewrite lookup_alter.
  destruct (decide (name = name')) as [->|Hne]; [|reflexivity].
  destruct (z !! name') as [[ttl m]|]; reflexivity.
Qed.

Lemma increments_app (calls calls' : list LimiterCall) :
  increments (calls ++ calls') = increments calls ++ increments calls'.
Proof. unfold increments. apply omap_app. Qed.

Lemma limiter_call_kept (self : RateLimiter.t) (email : string) (current_time : Z)
    (seconds : list Z) (c : LimiterCall) (z : t) :
  window_kept self email current_time seconds z ->
  (forall checked, c = Check checked -> checked <= current_time) ->
  window_kept self email current_time (seconds ++ increments [c]) (limiter_call self email c z).
Proof.
  intros [Hin Hall] Hle. destruct c as [checked|second]; simpl.
  - rewrite app_nil_r. specialize (Hle checked eq_refl).
    unfold window_kept. rewrite zrange_zremrangebyscore. split.
    + intros member score Hm. apply map_lookup_filter_Some in Hm as [Hm _]. eauto.
    + intros member Hs Hw. apply map_lookup_filter_Some. split; [auto|].
      simpl. apply Z.leb_gt. lia.
  - unfold window_kept. rewrite zrange_expire, zrange_zadd. split.
    + intros member score Hm. rewrite elem_of_app.
      destruct (decide (second = member)) as [->|Hne].
      * rewrite lookup_insert_eq in Hm. inversion Hm; subst.
        split; [reflexivity|]. right. apply list_elem_of_here.
      * rewrite lookup_insert_ne in Hm by exact Hne.
        destruct (Hin member score Hm). auto.
    + intros member Hs Hw. destruct (decide (second = member)) as [->|Hne].
      * apply lookup_insert_eq.
      * rewrite lookup_insert_ne by exact Hne. apply Hall; [|exact Hw].
        apply elem_of_app in Hs as [Hs|Hs]; [exact Hs|].
        apply list_elem_of_singleton in Hs. congruence.
Qed.

Lemma limiter_calls_kept (self : RateLimiter.t) (email : string) (current_time : Z)
    (calls : list LimiterCall) :
  forall (seconds : list Z) (z : t),
    window_kept self email current_time seconds z ->
    (forall checked, In (Check checked) calls -> checked <= current_time) ->
    window_kept self email current_time (seconds ++ increments calls)
      (limiter_calls self email calls z).
Proof.
  induction calls as [|c calls IH]; intros seconds z Hkept Hle.
  - simpl. rewrite app_nil_r. exact Hkept.
  - change (c :: calls) with ([c] ++ calls). rewrite increments_app, app_assoc.
    apply IH.
    + apply limiter_call_kept; [exact Hkept|].
      intros checked ->. apply Hle. left. reflexivity.
    + intros checked Hin. apply Hle. right. exact Hin.
Qed.

(** X10.  [RateLimiter] counts seconds, not attempts.  Start from an empty
    key and make any calls of [is_rate_limited] and [increment_rate_limit],
    the checks no later than [current_time].  A check at [current_time] then
    keeps as members exactly the distinct seconds at which an increment came
    and that lie less than [time_window] back, and answers yes if and only
    if their number is not zero and at least [max_attempts].  Several
    increments within one second count once. *)
Theorem daily_limit_counts_seconds_in_window
    (self : RateLimiter.t) (email : string) (calls : list LimiterCall)
    (current_time : Z) (z : t) :
  zrange (RateLimiter._get_key self email) z = ∅ ->
  (forall checked, In (Check checked) calls -> checked <= current_time) ->
  let '(limited, z') :=
    RateLimiter.is_rate_limited current_time self email (limiter_calls self email calls z) in
  let attempts := Z.of_nat (size (seconds_in_window self current_time calls)) in
  dom (zrange (RateLimiter._get_key self email) z') = seconds_in_window self current_time calls /\
  limited = Ok (negb (attempts =? 0) && (RateLimiter.max_attempts self <=? attempts)).
Proof.
  intros Hempty Hle. unfold RateLimiter.is_rate_limited. cbv zeta.
  assert (Hkept : window_kept self email current_time (increments calls)
                    (limiter_calls self email calls z)).
  { apply (limiter_calls_kept self email current_time calls [] z); [|exact Hle].
    split; intros member; [intros score|]; rewrite ?Hempty, ?lookup_empty;
      [discriminate | intros Hin; inversion Hin]. }
  destruct Hkept as [Hin Hall].
  assert (Hdom : dom (zrange (RateLimiter._get_key self email)
                   (zremrangebyscore (RateLimiter._get_key self email) None
                      (current_time - RateLimiter.time_window self)
                      (limiter_calls self email calls z)))
                 = seconds_in_window self current_time calls).
  { apply set_eq. intros member. unfold seconds_in_window.
    rewrite elem_of_dom, elem_of_list_to_set, list_elem_of_filter, zrange_zremrangebyscore.
    split.
    - intros [score Hm]. apply map_lookup_filter_Some in Hm as [Hm Hout].
      simpl in Hout. apply Z.leb_gt in Hout. destruct (Hin member score Hm) as [-> Hs].
      split; [exact Hout | exact Hs].
    - intros [Hw Hs]. exists member. apply map_lookup_filter_Some.
      split; [apply Hall; assumption|]. simpl. apply Z.leb_gt. exact Hw. }
  split; [exact Hdom|].
  unfold zcard. rewrite <- size_dom, Hdom. reflexivity.
Qed.

End rate_limiter_properties.

(** ** The generate service *)

Section service_lemmas.
Import RateLimit.

Lemma shrinks_refl (r : Redis) : shrinks r r.
Proof. intros name. reflexivity. Qed.

Lemma shrinks_trans (r1 r2 r3 : Redis) : shrinks r1 r2 -> shrinks r2 r3 -> shrinks r1 r3.
Proof. intros H12 H23 name. etrans; [apply H12 | apply H23]. Qed.

Lemma shrinks_setex (name : string) (time : Z) (value : RVal) (r : Redis) :
  shrinks (redis_client.setex name time value r) r.
Proof. intros k. reflexivity. Qed.

Lemma shrinks_expire (name : string) (time : Z) (r : Redis) :
  shrinks (redis_client.expire name time r) r.
Proof. intros k. rewrite hgetall_expire. reflexivity. Qed.

Lemma shrinks_hdel (name : string) (keys : list string) (r : Redis) :
  shrinks (redis_client.hdel name keys r) r.
Proof.
  intros k. destruct (decide (name = k)) as [->|Hne].
  - rewrite hgetall_hdel. apply foldr_delete_subseteq.
  - rewrite !hgetall_alt, hashes_hdel_ne by exact Hne. reflexivity.
Qed.

Lemma shrinks_hdel_hset (name key : string) (value : Q) (r : Redis) :
  shrinks (redis_client.hdel name [key] (redis_client.hset name key value r)) r.
Proof.
  intros k. destruct (decide (name = k)) as [->|Hne].
  - rewrite hgetall_hdel, hgetall_hset. simpl. rewrite delete_insert_eq.
    apply delete_subseteq.
  - rewrite !hgetall_alt, hashes_hdel_ne, hashes_hset_ne by exact Hne. reflexivity.
Qed.

Ltac shrink :=
  repeat first
    [ apply shrinks_refl
    | eapply shrinks_trans;
      [first [apply shrinks_hdel | apply shrinks_expire | apply shrinks_setex]|] ].

Lemma builtin_is_plain (name msg : string) :
  name <> "RateLimitError" -> plain_exception (builtin_exception name msg).
Proof.
  intros Hne. unfold plain_exception, isinstance, builtin_exception. simpl. split.
  - apply bool_decide_eq_true_2. set_solver.
  - apply bool_decide_eq_false_2. intros Hin.
    apply elem_of_cons in Hin as [Heq|Hin]; [congruence|].
    apply elem_of_cons in Hin as [Heq|Hin]; [discriminate|].
    apply elem_of_cons in Hin as [Heq|Hin]; [discriminate|]. inversion Hin.
Qed.

(** [flush_cache]: only stale records go, the instance stays initialized, and
    an exception it raises is an ordinary one. *)
Lemma flush_cache_spec (now : Q) (use_local_value : bool) (self self' : t) (r r' : Redis)
    (res : Result unit) :
  flush_cache now use_local_value (self, r) = (res, (self', r')) ->
  shrinks r' r /\
  (forall a, initialized self = Some a ->
     exists a', initialized self' = Some a' /\ active_requests_key a' = active_requests_key a) /\
  (forall e, res = Raise e -> plain_exception e).
Proof.
  unfold flush_cache, bind, get_state, ret, set_last_recalculate_time, attrs, redis_ask, redis_do.
  cbn [fst snd]. destruct (disabled self).
  { intros H. injection H as <- <- <-. split; [shrink|]. split; [eauto | discriminate]. }
  cbn [fst snd]. destruct (initialized self) as [a|] eqn:Hinit.
  2:{ intros H. injection H as <- <- <-. split; [shrink|]. split; [intros; discriminate|].
      intros e He. inversion He. apply builtin_is_plain. discriminate. }
  cbn [fst snd initialized max_active_requests_key active_requests_key].
  destruct (use_local_value || negb _); cbn [fst snd].
  - destruct (redis_client.exists_ (active_requests_key a) _); cbn;
      [destruct (timeout_requests now _) as [|k stale]; cbn|];
      intros H; injection H as <- <- <-;
      (split; [shrink|]); (split; [intros a0 Ha0; inversion Ha0; subst; eauto | discriminate]).
  - unfold get_int. cbn [fst snd].
    destruct (redis_client.get (max_active_requests_key a) r) as [v|];
      [destruct (int_ (decode v)) as [z|]|]; cbn.
    + destruct (redis_client.exists_ (active_requests_key a) _); cbn;
        [destruct (timeout_requests now _) as [|k stale]; cbn|];
        intros H; injection H as <- <- <-;
        (split; [shrink|]); (split; [intros a0 Ha0; inversion Ha0; subst; eauto | discriminate]).
    + intros H; injection H as <- <- <-. split; [shrink|].
      split; [intros a0 Ha0; inversion Ha0; subst; eauto|].
      intros e He. inversion He. apply builtin_is_plain. discriminate.
    + intros H; injection H as <- <- <-. split; [shrink|].
      split; [intros a0 Ha0; inversion Ha0; subst; eauto|].
      intros e He. inversion He. apply builtin_is_plain. discriminate.
Qed.

Lemma refresh_spec (now : Q) (self self' : t) (r r' : Redis) (res : Result unit) :
  refresh now (self, r) = (res, (self', r')) ->
  shrinks r' r /\
  (forall a, initialized self = Some a ->
     exists a', initialized self' = Some a' /\ active_requests_key a' = active_requests_key a) /\
  (forall e, res = Raise e -> plain_exception e).
Proof.
  unfold refresh, bind, attrs. cbn [fst snd].
  destruct (initialized self) as [a|] eqn:Hinit.
  - destruct (flush_is_due now a).
    + intros H. destruct (flush_cache_spec _ _ _ _ _ _ _ H) as (Hs & Hi & He).
      split; [exact Hs|]. split; [|exact He]. intros a0 Ha0. inversion Ha0; subst a0.
      apply Hi. exact Hinit.
    + intros H. injection H as <- <- <-. split; [shrink|]. split; [|discriminate].
      intros a0 Ha0. inversion Ha0; subst. eauto.
  - intros H. injection H as <- <- <-. split; [shrink|]. split; [intros; discriminate|].
    intros e He. inversion He. apply builtin_is_plain. discriminate.
Qed.

(** [enter], by its outcome. *)
Lemma enter_spec (now : Q) (uuid4 : string) (request_id : option string)
    (self self' : t) (r r' : Redis) (res : Result string) :
  enter now uuid4 request_id (self, r) = (res, (self', r')) ->
  (forall a, initialized self = Some a ->
     exists a', initialized self' = Some a' /\ active_requests_key a' = active_requests_key a) /\
  match res with
  | Raise e => shrinks r' r /\ plain_exception e /\ disabled self = false
  | Ok request_id' =>
      (disabled self = true /\ request_id' = _UNLIMITED_REQUEST_ID /\ self' = self /\ r' = r) \/
      (disabled self = false /\ request_id' = request_key uuid4 request_id /\
       exists a r1,
         initialized self' = Some a /\ shrinks r1 r /\
         redis_client.hlen (active_requests_key a) r1 < max_active_requests self' /\
         r' = redis_client.hset (active_requests_key a) request_id' now r1)
  end.
Proof.
  destruct (disabled self) eqn:Hdis.
  { rewrite enter_disabled by exact Hdis. intros H. injection H as <- <- <-.
    split; [eauto|]. left. auto. }
  rewrite enter_enabled by exact Hdis.
  destruct (refresh now (self, r)) as [[[]|e] [self1 r1]] eqn:Href;
    destruct (refresh_spec _ _ _ _ _ _ Href) as (Hs & Hi & He).
  - destruct (initialized self1) as [a1|] eqn:Hinit1; rewrite <- Hinit1 in Hi.
    + destruct (Z.leb_spec (max_active_requests self1)
                  (redis_client.hlen (active_requests_key a1) r1)).
      * intros H'. injection H' as <- <- <-. split; [exact Hi|].
        split; [exact Hs|]. split; [|reflexivity]. apply builtin_is_plain. discriminate.
      * intros H'. injection H' as <- <- <-. split; [exact Hi|]. right.
        split; [reflexivity|]. split; [reflexivity|]. exists a1, r1. auto.
    + intros H'. injection H' as <- <- <-. split; [exact Hi|].
      split; [exact Hs|]. split; [|reflexivity]. apply builtin_is_plain. discriminate.
  - intros H'. injection H' as <- <- <-. split; [exact Hi|].
    split; [exact Hs|]. split; [|reflexivity]. apply He. reflexivity.
Qed.

Lemma exit_released (request_id : string) (self : t) (r : Redis) :
  request_id = _UNLIMITED_REQUEST_ID \/ is_Some (initialized self) ->
  exit request_id (self, r) = (Ok tt, (self, released request_id self r)).
Proof.
  intros Hcan. unfold exit, released. case_bool_decide as Hs; [reflexivity|].
  destruct Hcan as [Heq|[a Ha]]; [contradiction|].
  unfold bind, attrs, redis_do. cbn [fst snd]. rewrite Ha. reflexivity.
Qed.

Lemma shrinks_released (request_id : string) (self : t) (r : Redis) :
  shrinks (released request_id self r) r.
Proof.
  unfold released. case_bool_decide; [shrink|].
  destruct (initialized self); shrink.
Qed.

End service_lemmas.

Section service_properties.
Import RateLimit AppGenerateService.

Lemma init_spec (now : Q) (cid : string) (n : Z) (self self' : RateLimit.t) (r r' : Redis)
    (res : Result unit) :
  RateLimit.__init__ now cid n (self, r) = (res, (self', r')) ->
  shrinks r' r /\ res = Ok tt /\ max_active_requests self' = n /\
  (disabled self' = true \/ is_Some (initialized self')).
Proof.
  unfold RateLimit.__init__, bind, set_max_active_requests, get_state, put_state, ret.
  cbn [fst snd]. destruct (disabled (mk n (initialized self))) eqn:Hdis.
  { intros H. injection H as <- <- <-. split; [apply shrinks_refl|]. auto. }
  cbn [initialized]. destruct (initialized self) as [a|] eqn:Hinit.
  { intros H. injection H as <- <- <-. split; [apply shrinks_refl|].
    split; [reflexivity|]. split; [reflexivity|]. right. simpl. eauto. }
  cbn [max_active_requests].
  unfold flush_cache, bind, get_state, ret, set_last_recalculate_time, attrs, redis_ask, redis_do.
  cbn [fst snd]. unfold disabled in *. cbn [max_active_requests] in *. rewrite Hdis.
  cbn [fst snd initialized max_active_requests_key active_requests_key orb].
  destruct (redis_client.exists_ (_ACTIVE_REQUESTS_KEY cid) _); cbn;
    [destruct (timeout_requests now _) as [|k stale]; cbn|];
    intros H; injection H as <- <- <-;
    (split; [repeat first [apply shrinks_refl
                          | eapply shrinks_trans;
                            [first [apply shrinks_hdel | apply shrinks_expire
                                   | apply shrinks_setex]|]]|]);
    (split; [reflexivity|]); (split; [reflexivity|]); right; simpl; eauto.
Qed.

Lemma on_instance_run {A} (ref : string) (m : Method A) (w : World) (self : RateLimit.t) :
  _instance_dict w !! ref = Some self ->
  on_instance ref m w
  = (fst (m (self, redis w)),
     mkWorld (<[ref := fst (snd (m (self, redis w)))]> (_instance_dict w))
             (snd (snd (m (self, redis w))))).
Proof.
  intros Hd. unfold on_instance. rewrite Hd.
  destruct (m (self, redis w)) as [res [self' r']]. reflexivity.
Qed.

Lemma construct_spec (now : Q) (cid : string) (n : Z) (w w' : World) (res : Result string) :
  construct now cid n w = (res, w') ->
  shrinks (redis w') (redis w) /\ res = Ok cid /\
  exists self, _instance_dict w' !! cid = Some self /\ max_active_requests self = n /\
               (disabled self = true \/ is_Some (initialized self)).
Proof.
  unfold construct, bind.
  assert (Hd : exists self0, __new__ cid n (_instance_dict w) !! cid = Some self0).
  { unfold __new__. destruct (_instance_dict w !! cid) as [self0|] eqn:Hl; [eauto|].
    rewrite lookup_insert_eq. eauto. }
  destruct Hd as [self0 Hd].
  rewrite (on_instance_run cid _ _ self0) by exact Hd. cbn [redis _instance_dict].
  destruct (RateLimit.__init__ now cid n (self0, redis w)) as [res0 [self1 r1]] eqn:Hinit.
  destruct (init_spec _ _ _ _ _ _ _ _ Hinit) as (Hs & -> & Hmax & Hok).
  cbn [fst snd]. unfold ret. intros H. injection H as <- <-. cbn [redis _instance_dict].
  split; [exact Hs|]. split; [reflexivity|]. exists self1.
  rewrite lookup_insert_eq. auto.
Qed.

Lemma exit_then_run {A} (ref rid : string) (after : Result A)
    (z : redis_sorted_sets.t) (d : gmap string RateLimit.t) (r : Redis) (self : RateLimit.t) :
  d !! ref = Some self ->
  rid = _UNLIMITED_REQUEST_ID \/ is_Some (initialized self) ->
  exit_then ref rid after (z, mkWorld d r)
  = (after, (z, mkWorld (<[ref := self]> d) (released rid self r))).
Proof.
  intros Hd Hcan. unfold exit_then, bind, on_world. cbn [fst snd].
  rewrite (on_instance_run ref _ _ self) by exact Hd. cbn [redis _instance_dict].
  rewrite (exit_released rid self r Hcan). reflexivity.
Qed.

Lemma daily_limit_world (env : Env) (app_model : App) (s : State) :
  snd (snd (daily_limit env app_model s)) = snd s.
Proof.
  unfold daily_limit. destruct (BILLING_ENABLED env); [|reflexivity].
  unfold bind. destruct (subscription_plan env) as [plan|e]; [|reflexivity].
  case_bool_decide; [|reflexivity].
  unfold on_sorted_sets, RateLimiter.is_rate_limited, RateLimiter.increment_rate_limit, raise.
  cbn [fst snd]. destruct (negb _ && _); reflexivity.
Qed.

Lemma request_key_given (uuid4' rid : string) :
  rid <> "" -> request_key uuid4' (Some rid) = rid.
Proof.
  intros Hne. unfold request_key. rewrite bool_decide_eq_false_2 by exact Hne. reflexivity.
Qed.

End service_properties.

Section try_statement_properties.
Import RateLimit.

(** The [try] statement on a limiter that [RateLimit(...)] has returned. *)
Lemma try_statement_cases
    (env : AppGenerateService.Env) (app_model : AppGenerateService.App) (streaming : bool)
    (ref rid : string) (z : redis_sorted_sets.t) (w : World) (self : RateLimit.t)
    (res : Result (RateLimitGenerator.t + PyVal)) (s' : AppGenerateService.State) :
  _instance_dict w !! ref = Some self ->
  disabled self = true \/ is_Some (initialized self) ->
  rid <> "" -> rid <> _UNLIMITED_REQUEST_ID ->
  AppGenerateService.try_statement env app_model streaming ref rid (z, w) = (res, s') ->
  fst s' = z /\
  ((* not admitted, or the limiter is off *)
   (shrinks (redis (snd s')) (redis w) /\
    (disabled self = false -> exists e, res = Raise e /\ plain_exception e)) \/
   (* admitted *)
   (disabled self = false /\
    exists self1 a r1,
      initialized self1 = Some a /\ shrinks r1 (redis w) /\
      redis_client.hlen (active_requests_key a) r1 < max_active_requests self1 /\
      let held :=
        redis_client.hset (active_requests_key a) rid (AppGenerateService.entered_at env) r1 in
      let freed := redis_client.hdel (active_requests_key a) [rid] held in
      match AppGenerateService.dispatch env app_model with
      | Ok generator =>
          res = Ok (generate ref generator rid) /\
          s' = (z, mkWorld (<[ref := self1]> (_instance_dict w))
                           (if streaming then held else freed))
      | Raise e =>
          if isinstance e "RateLimitError"
          then res = Raise (InvokeRateLimitError (exc_msg e)) /\
               redis (snd s') = (if streaming then held else freed)
          else if isinstance e "Exception"
          then res = Raise e /\ shrinks (redis (snd s')) (redis w)
          else res = Raise e /\ redis (snd s') = (if streaming then held else freed)
      end)).
Proof.
  intros Hd Hok Hne Hns.
  unfold AppGenerateService.try_statement, AppGenerateService.try_block,
    AppGenerateService.on_world.
  cbn [fst snd].
  rewrite (on_instance_run ref _ _ self) by exact Hd.
  destruct (enter (AppGenerateService.entered_at env) (AppGenerateService.uuid4_in_enter env)
              (Some rid) (self, redis w))
    as [admitted [self1 r1]] eqn:Henter.
  cbn [fst snd].
  destruct (enter_spec _ _ _ _ _ _ _ _ Henter) as (Hkeep & Hcase).
  assert (Hd1 : <[ref := self1]> (_instance_dict w) !! ref = Some self1)
    by apply lookup_insert_eq.
  destruct admitted as [rid'|e].
  - destruct Hcase as [(Hdis & -> & -> & ->) | (Hdis & -> & a & r0 & Ha & Hs & Hlen & ->)].
    + (* the limiter is off *)
      assert (Hcan : _UNLIMITED_REQUEST_ID = _UNLIMITED_REQUEST_ID \/ is_Some (initialized self))
        by (left; reflexivity).
      assert (Hrel : released _UNLIMITED_REQUEST_ID self (redis w) = redis w).
      { unfold released. rewrite bool_decide_eq_true_2 by reflexivity. reflexivity. }
      destruct (AppGenerateService.dispatch env app_model) as [generator|e].
      * destruct streaming.
        -- intros H. injection H as <- <-. split; [reflexivity|]. left.
           split; [apply shrinks_refl | congruence].
        -- rewrite (exit_then_run ref _ _ z _ _ self Hd1 Hcan).
           intros H. injection H as <- <-. split; [reflexivity|]. left. cbn [snd redis].
           rewrite Hrel. split; [apply shrinks_refl | congruence].
      * destruct (isinstance e "RateLimitError"); [|destruct (isinstance e "Exception")];
          rewrite ?(exit_then_run ref _ _ z _ _ self Hd1 Hcan);
          destruct streaming;
          rewrite ?(exit_then_run ref _ _ z _ _ self Hd1 Hcan);
          rewrite ?(exit_then_run ref _ _ z _ _ self (lookup_insert_eq _ _ _) Hcan);
          intros H; injection H as <- <-; (split; [reflexivity|]); left; cbn [snd redis];
          rewrite ?Hrel; (split; [apply shrinks_refl | congruence]).
    + (* admitted *)
      rewrite (request_key_given _ rid Hne) in *.
      assert (Hcan : rid = _UNLIMITED_REQUEST_ID \/ is_Some (initialized self1))
        by (right; eauto).
      assert (Hrel : forall r, released rid self1 r
                               = redis_client.hdel (active_requests_key a) [rid] r).
      { intros r. unfold released. rewrite bool_decide_eq_false_2 by exact Hns.
        rewrite Ha. reflexivity. }
      destruct (AppGenerateService.dispatch env app_model) as [generator|e].
      * destruct streaming.
        -- intros H. injection H as <- <-. split; [reflexivity|]. right.
           split; [exact Hdis|]. exists self1, a, r0. cbv zeta. auto.
        -- rewrite (exit_then_run ref _ _ z _ _ self1 Hd1 Hcan).
           intros H. injection H as <- <-. split; [reflexivity|]. right.
           split; [exact Hdis|]. exists self1, a, r0. cbv zeta. rewrite Hrel.
           rewrite insert_insert_eq. auto.
      * destruct (isinstance e "RateLimitError") eqn:Hrl;
          [|destruct (isinstance e "Exception") eqn:Hex];
          rewrite ?(exit_then_run ref _ _ z _ _ self1 Hd1 Hcan);
          destruct streaming;
          rewrite ?(exit_then_run ref _ _ z _ _ self1 Hd1 Hcan);
          rewrite ?(exit_then_run ref _ _ z _ _ self1 (lookup_insert_eq _ _ _) Hcan);
          intros H; injection H as <- <-; (split; [reflexivity|]); right;
          (split; [exact Hdis|]); exists self1, a, r0; cbv zeta; rewrite ?Hrl, ?Hex;
          cbn [snd redis]; rewrite ?Hrel;
          repeat split; try assumption; try reflexivity.
        -- eapply shrinks_trans; [apply shrinks_hdel_hset | exact Hs].
        -- eapply shrinks_trans; [apply shrinks_hdel|].
           eapply shrinks_trans; [apply shrinks_hdel_hset | exact Hs].
  - (* [enter] raised *)
    destruct Hcase as (Hs & [Hex Hrl] & Hdis).
    assert (Hinit1 : is_Some (initialized self1)).
    { destruct Hok as [Hoff|[a0 Ha0]]; [congruence|].
      destruct (Hkeep a0 Ha0) as (a' & Ha' & _). eauto. }
    assert (Hcan : rid = _UNLIMITED_REQUEST_ID \/ is_Some (initialized self1))
      by (right; exact Hinit1).
    rewrite Hrl, Hex.
    rewrite (exit_then_run ref _ _ z _ _ self1 Hd1 Hcan).
    destruct streaming;
      rewrite ?(exit_then_run ref _ _ z _ _ self1 (lookup_insert_eq _ _ _) Hcan);
      intros H; injection H as <- <-; (split; [reflexivity|]); left; cbn [snd redis];
      (split; [|intros _; exists e; split; [reflexivity | split; assumption]]).
    + eapply shrinks_trans; [apply shrinks_released | exact Hs].
    + eapply shrinks_trans; [apply shrinks_released|].
      eapply shrinks_trans; [apply shrinks_released | exact Hs].
Qed.

End try_statement_properties.

Section generate_properties.
Import RateLimit AppGenerateService.

(** [generate] up to its [try] statement. *)
Lemma generate_cases (env : Env) (app_model : App) (streaming : bool) (s s' : State)
    (res : Result (RateLimitGenerator.t + PyVal)) :
  generate env app_model streaming s = (res, s') ->
  (is_ok res = false /\ shrinks (redis (snd s')) (redis (snd s)) /\
   fst s' = fst (snd (daily_limit env app_model s))) \/
  exists (w : World) (self : RateLimit.t),
    fst (daily_limit env app_model s) = Ok tt /\
    shrinks (redis w) (redis (snd s)) /\
    _instance_dict w !! app_id app_model = Some self /\
    max_active_requests self = _get_max_active_requests app_model /\
    (disabled self = true \/ is_Some (initialized self)) /\
    try_statement env app_model streaming (app_id app_model) (uuid4 env)
      (fst (snd (daily_limit env app_model s)), w) = (res, s').
Proof.
  unfold generate, bind. pose proof (daily_limit_world env app_model s) as Hw.
  destruct (daily_limit env app_model s) as [[[]|e] [z0 w0]]; cbn [fst snd] in *.
  2:{ intros H. injection H as <- <-. left. cbn [snd]. rewrite Hw.
      split; [reflexivity|]. split; [apply shrinks_refl | reflexivity]. }
  unfold on_world at 1. cbn [fst snd].
  destruct (construct (constructed_at env) (app_id app_model)
              (_get_max_active_requests app_model) w0) as [constructed w1] eqn:Hc.
  destruct (construct_spec _ _ _ _ _ _ Hc) as (Hs & -> & self & Hd & Hmax & Hok).
  intros Htry. right. exists w1, self. cbn [fst snd]. rewrite <- Hw.
  repeat split; assumption.
Qed.

(** X11.  [AppGenerateService.generate] releases what it takes.  For a
    blocking call ([streaming] false), whatever happens (a result, an error
    of the app generator, a refusal by the concurrency limiter or by the
    daily limit), and for a streaming call that raises while the app
    generator raised nothing but ordinary exceptions (no [RateLimitError]),
    every hash of the store has afterwards only members it had before: no
    record of the request is left in the active-requests hash. *)
Theorem generate_leaves_no_record
    (env : Env) (app_model : App) (streaming : bool) (s s' : State)
    (res : Result (RateLimitGenerator.t + PyVal)) :
  uuid4 env <> "" ->
  uuid4 env <> _UNLIMITED_REQUEST_ID ->
  generate env app_model streaming s = (res, s') ->
  streaming = false \/
  (is_ok res = false /\ forall e, dispatch env app_model = Raise e -> plain_exception e) ->
  forall name,
    redis_client.hgetall name (redis (snd s')) ⊆ redis_client.hgetall name (redis (snd s)).
Proof.
  intros Hne Hns Hgen Hcond. change (shrinks (redis (snd s')) (redis (snd s))).
  destruct (generate_cases _ _ _ _ _ _ Hgen)
    as [(_ & Hs & _) | (w & self & _ & Hs & Hd & _ & Hok & Htry)]; [exact Hs|].
  destruct (try_statement_cases _ _ _ _ _ _ _ _ _ _ Hd Hok Hne Hns Htry)
    as (_ & [(Hs' & _) | (_ & self1 & a & r1 & _ & Hs1 & _ & Hcase)]).
  { eapply shrinks_trans; eassumption. }
  cbv zeta in Hcase.
  assert (Hfreed : shrinks (redis_client.hdel (active_requests_key a) [uuid4 env]
                              (redis_client.hset (active_requests_key a) (uuid4 env)
                                 (entered_at env) r1)) (redis (snd s))).
  { eapply shrinks_trans; [apply shrinks_hdel_hset|].
    eapply shrinks_trans; eassumption. }
  destruct (dispatch env app_model) as [generator|e].
  - destruct Hcase as [-> ->]. destruct Hcond as [-> | [Hres _]]; [exact Hfreed | discriminate].
  - destruct (isinstance e "RateLimitError") eqn:Hrl;
      [|destruct (isinstance e "Exception") eqn:Hex]; destruct Hcase as [-> Hr].
    + rewrite Hr. destruct Hcond as [-> | [_ Hplain]]; [exact Hfreed|].
      destruct (Hplain e eq_refl) as [_ Hno]. congruence.
    + eapply shrinks_trans; eassumption.
    + rewrite Hr. destruct Hcond as [-> | [_ Hplain]]; [exact Hfreed|].
      destruct (Hplain e eq_refl) as [Hyes _]. congruence.
Qed.

(** X12.  A streaming call of [AppGenerateService.generate] that returns a
    generator, for an app with a positive ceiling, returns the stream of the
    app generator wrapped in an open [RateLimitGenerator] that carries the
    limiter of the app and the request id, and it leaves the request
    recorded in the active-requests hash at the time of entry, the hash
    holding no more members than the ceiling. *)
Theorem generate_streaming_holds_the_slot
    (env : Env) (app_model : App) (s s' : State) (it : RateLimitGenerator.t) :
  uuid4 env <> "" ->
  uuid4 env <> _UNLIMITED_REQUEST_ID ->
  0 < _get_max_active_requests app_model ->
  generate env app_model true s = (Ok (inl it), s') ->
  (exists g, dispatch env app_model = Ok (inl g) /\
             it = RateLimitGenerator.mk (app_id app_model) g (uuid4 env) false) /\
  exists self a,
    _instance_dict (snd s') !! app_id app_model = Some self /\
    initialized self = Some a /\
    redis_client.hgetall (active_requests_key a) (redis (snd s')) !! uuid4 env
      = Some (entered_at env) /\
    redis_client.hlen (active_requests_key a) (redis (snd s')) <= max_active_requests self.
Proof.
  intros Hne Hns Hpos Hgen.
  destruct (generate_cases _ _ _ _ _ _ Hgen)
    as [(Hno & _) | (w & self & _ & _ & Hd & Hmax & Hok & Htry)]; [discriminate|].
  assert (Hdis : disabled self = false) by (unfold disabled; lia).
  destruct (try_statement_cases _ _ _ _ _ _ _ _ _ _ Hd Hok Hne Hns Htry)
    as (_ & [(_ & Hraise) | (_ & self1 & a & r1 & Ha & _ & Hlen & Hcase)]).
  { destruct (Hraise Hdis) as (e & He & _). discriminate. }
  cbv zeta in Hcase. destruct (dispatch env app_model) as [[g|mapping]|e].
  - destruct Hcase as [Hres ->]. injection Hres as ->. split; [eauto|].
    exists self1, a. cbn [snd _instance_dict redis]. rewrite lookup_insert_eq.
    split; [reflexivity|]. split; [exact Ha|]. split.
    + rewrite hgetall_hset. apply lookup_insert_eq.
    + pose proof (hlen_hset (active_requests_key a) (uuid4 env) (entered_at env) r1). lia.
  - destruct Hcase as [Hres _]. discriminate.
  - destruct (isinstance e "RateLimitError"); [|destruct (isinstance e "Exception")];
      destruct Hcase as [Hres _]; discriminate.
Qed.

Lemma on_world_fst {A} (m : M World A) (s : State) :
  fst (snd (on_world m s)) = fst s.
Proof. unfold on_world. destruct (m (snd s)). reflexivity. Qed.

Lemma exit_then_fst {A} (ref rid : string) (after : Result A) (s : State) :
  fst (snd (exit_then ref rid after s)) = fst s.
Proof.
  unfold exit_then, bind.
  pose proof (on_world_fst (on_instance ref (exit rid)) s) as H.
  destruct (on_world (on_instance ref (exit rid)) s) as [[[]|e] s1]; exact H.
Qed.

Lemma try_statement_fst (env : Env) (app_model : App) (streaming : bool) (ref rid : string)
    (s : State) :
  fst (snd (try_statement env app_model streaming ref rid s)) = fst s.
Proof.
  unfold try_statement, try_block.
  pose proof (on_world_fst (on_instance ref
                (enter (entered_at env) (uuid4_in_enter env) (Some rid))) s) as H.
  destruct (on_world _ s) as [[rid'|e] s1]; cbn [fst snd] in H.
  - destruct (dispatch env app_model) as [generator|e].
    + destruct streaming; [exact H|]. rewrite exit_then_fst. exact H.
    + destruct (isinstance e "RateLimitError"); [|destruct (isinstance e "Exception")].
      * destruct streaming; [exact H|]. rewrite exit_then_fst. exact H.
      * pose proof (exit_then_fst (A := RateLimitGenerator.t + PyVal) ref rid' (Raise e) s1) as H1.
        destruct (exit_then ref rid' (Raise e) s1) as [res1 s2]. cbn [fst snd] in H1.
        destruct streaming; [|rewrite exit_then_fst]; cbn [fst snd]; congruence.
      * destruct streaming; [exact H|]. rewrite exit_then_fst. exact H.
  - destruct (isinstance e "RateLimitError"); [|destruct (isinstance e "Exception")].
    + destruct streaming; [exact H|]. rewrite exit_then_fst. exact H.
    + pose proof (exit_then_fst (A := RateLimitGenerator.t + PyVal) ref rid (Raise e) s1) as H1.
      destruct (exit_then ref rid (Raise e) s1) as [res1 s2]. cbn [fst snd] in H1.
      destruct streaming; [|rewrite exit_then_fst]; cbn [fst snd]; congruence.
    + destruct streaming; [exact H|]. rewrite exit_then_fst. exact H.
Qed.

Lemma generate_fst (env : Env) (app_model : App) (streaming : bool) (s : State) :
  fst (snd (generate env app_model streaming s)) = fst (snd (daily_limit env app_model s)).
Proof.
  unfold generate, bind.
  destruct (daily_limit env app_model s) as [[[]|e] s0]; [|reflexivity].
  pose proof (on_world_fst (construct (constructed_at env) (app_id app_model)
                              (_get_max_active_requests app_model)) s0) as H.
  destruct (on_world _ s0) as [[ref|e] s1]; cbn [fst snd] in *; [|exact H].
  rewrite try_statement_fst. exact H.
Qed.

(** X13.  With billing enabled and a tenant on the sandbox plan,
    [AppGenerateService.generate] checks the daily limiter before anything
    else.  When it says yes the call raises [InvokeRateLimitError], nothing
    is counted and no limiter instance is touched.  When it says no, the
    attempt is counted at once: the sorted set of the tenant holds the second
    of the call afterwards, whatever the rest of the call does (also when
    the concurrency limiter then refuses the request). *)
Theorem generate_counts_against_the_daily_limit
    (env : Env) (app_model : App) (streaming : bool) (s s' : State)
    (res : Result (RateLimitGenerator.t + PyVal)) :
  BILLING_ENABLED env = true ->
  subscription_plan env = Ok "sandbox" ->
  generate env app_model streaming s = (res, s') ->
  let limiter := system_rate_limiter env in
  let tenant := app_tenant_id app_model in
  let checked := RateLimiter.is_rate_limited (checked_at env) limiter tenant (fst s) in
  (fst checked = Ok true ->
     (exists msg, res = Raise (InvokeRateLimitError msg)) /\ s' = (snd checked, snd s)) /\
  (fst checked = Ok false ->
     fst s' = snd (RateLimiter.increment_rate_limit (incremented_at env) limiter tenant
                     (snd checked)) /\
     redis_sorted_sets.zrange (RateLimiter._get_key limiter tenant) (fst s')
       !! incremented_at env = Some (incremented_at env)).
Proof.
  intros Hbill Hplan Hgen. cbv zeta.
  pose proof (generate_fst env app_model streaming s) as Hfst. rewrite Hgen in Hfst.
  cbn [fst snd] in Hfst.
  assert (Hdaily : daily_limit env app_model s
            = let checked := RateLimiter.is_rate_limited (checked_at env)
                               (system_rate_limiter env) (app_tenant_id app_model) (fst s) in
              match fst checked with
              | Ok true =>
                  (Raise (InvokeRateLimitError
                            ("请求频率超限，请升级订阅计划 或保持每日请求数不超过 "
                             +:+ pretty (APP_DAILY_RATE_LIMIT env))),
                   (snd checked, snd s))
              | _ =>
                  (Ok tt,
                   (snd (RateLimiter.increment_rate_limit (incremented_at env)
                           (system_rate_limiter env) (app_tenant_id app_model) (snd checked)),
                    snd s))
              end).
  { unfold daily_limit. rewrite Hbill. unfold bind. rewrite Hplan.
    rewrite bool_decide_eq_true_2 by reflexivity.
    unfold on_sorted_sets, RateLimiter.is_rate_limited, raise. cbn [fst snd].
    destruct (negb _ && _); reflexivity. }
  cbv zeta in Hdaily. split.
  - intros Hlim. rewrite Hlim in Hdaily.
    unfold generate, bind in Hgen. rewrite Hdaily in Hgen. injection Hgen as <- <-. eauto.
  - intros Hfree. rewrite Hfree in Hdaily. rewrite Hdaily in Hfst. cbn [fst snd] in Hfst.
    split; [exact Hfst|]. rewrite Hfst. unfold RateLimiter.increment_rate_limit. cbn [snd].
    rewrite zrange_expire, zrange_zadd. apply lookup_insert_eq.
Qed.

End generate_properties.

(** ** The runner, the pipeline and the stop endpoint *)

Section runner_properties.
Import AppRunner.

Lemma max_tokens_of_fold (parameters : gmap string Z) (v : Z) (rules : list ParameterRule) :
  (forall rule, In rule rules -> names_max_tokens rule = true -> configured parameters rule = v) ->
  forall acc,
    foldl (fun max_tokens rule =>
             if names_max_tokens rule then configured parameters rule else max_tokens)
          acc rules
    = if existsb names_max_tokens rules then v else acc.
Proof.
  induction rules as [|rule rules IH]; intros Hall acc; [reflexivity|]. simpl.
  rewrite IH by (intros rule' Hin; apply Hall; right; exact Hin).
  destruct (names_max_tokens rule) eqn:Hn; simpl; [|reflexivity].
  rewrite (Hall rule (or_introl eq_refl) Hn). destruct (existsb _ rules); reflexivity.
Qed.

Lemma updated_lookup (v : Z) (rules : list ParameterRule) :
  forall (parameters : gmap string Z) (k : string),
    foldl (fun parameters rule =>
             if names_max_tokens rule then <[name rule := v]> parameters else parameters)
          parameters rules !! k
    = if existsb (fun rule => names_max_tokens rule && bool_decide (name rule = k)) rules
      then Some v else parameters !! k.
Proof.
  induction rules as [|rule rules IH]; intros parameters k; [reflexivity|]. simpl.
  rewrite IH. destruct (existsb _ rules); [rewrite orb_true_r; reflexivity|].
  rewrite orb_false_r. destruct (names_max_tokens rule); simpl; [|reflexivity].
  case_bool_decide as Hk.
  - rewrite Hk. apply lookup_insert_eq.
  - apply lookup_insert_ne. exact Hk.
Qed.

Lemma configured_updated (v : Z) (rules : list ParameterRule) (parameters : gmap string Z)
    (rule : ParameterRule) :
  v <> 0 -> In rule rules -> names_max_tokens rule = true ->
  configured
    (foldl (fun parameters rule =>
              if names_max_tokens rule then <[name rule := v]> parameters else parameters)
           parameters rules) rule = v.
Proof.
  intros Hv Hin Hn. unfold configured. rewrite updated_lookup.
  assert (Hex : existsb (fun rule' => names_max_tokens rule'
                                      && bool_decide (name rule' = name rule)) rules = true).
  { apply existsb_exists. exists rule. split; [exact Hin|]. rewrite Hn.
    rewrite bool_decide_eq_true_2 by reflexivity. reflexivity. }
  rewrite Hex. simpl. destruct (Z.eqb_spec v 0); [contradiction|]. simpl.
  destruct (Z.eqb_spec v 0); [contradiction | reflexivity].
Qed.

(** X14.  [recalc_llm_max_tokens], for a model with a context size and a
    rule that names [max_tokens]: when prompt and configured output exceed
    the context, [max_tokens] becomes what the prompt leaves of it, but not
    less than 16; otherwise it stays.  Afterwards prompt and [max_tokens]
    fit the context unless [max_tokens] is that floor of 16, parameters named
    by no such rule are untouched, and a second run changes nothing. *)
Theorem recalc_llm_max_tokens_fits_the_context
    (model_context_tokens prompt_tokens : Z) (parameter_rules : list ParameterRule)
    (parameters : gmap string Z) :
  existsb names_max_tokens parameter_rules = true ->
  let max_tokens := max_tokens_of parameter_rules parameters in
  let '(returned, parameters') :=
    recalc_llm_max_tokens (Some model_context_tokens) parameter_rules prompt_tokens parameters in
  let max_tokens' := max_tokens_of parameter_rules parameters' in
  returned = None /\
  max_tokens' = (if model_context_tokens <? prompt_tokens + max_tokens
                 then Z.max (model_context_tokens - prompt_tokens) 16
                 else max_tokens) /\
  (prompt_tokens + max_tokens' <= model_context_tokens \/ max_tokens' = 16) /\
  (forall k, (forall rule, In rule parameter_rules -> names_max_tokens rule = true ->
                           name rule <> k) ->
             parameters' !! k = parameters !! k) /\
  recalc_llm_max_tokens (Some model_context_tokens) parameter_rules prompt_tokens parameters'
  = (None, parameters').
Proof.
  intros Hex. cbv zeta. unfold recalc_llm_max_tokens.
  set (M := max_tokens_of parameter_rules parameters).
  destruct (Z.ltb_spec model_context_tokens (prompt_tokens + M)) as [Hover|Hfit].
  - set (v := Z.max (model_context_tokens - prompt_tokens) 16).
    set (parameters' := foldl _ parameters parameter_rules).
    assert (Hv : v <> 0) by (unfold v; lia).
    assert (HM' : max_tokens_of parameter_rules parameters' = v).
    { unfold max_tokens_of.
      rewrite (max_tokens_of_fold parameters' v parameter_rules), Hex; [reflexivity|].
      intros rule Hin Hn. apply configured_updated; assumption. }
    rewrite HM'. split; [reflexivity|]. split; [reflexivity|]. split; [unfold v; lia|]. split.
    + intros k Hk. unfold parameters'. rewrite updated_lookup.
      destruct (existsb (fun rule => _ && _) parameter_rules) eqn:He; [|reflexivity].
      apply existsb_exists in He as (rule & Hin & Hboth).
      apply andb_true_iff in Hboth as [Hn Hname].
      apply bool_decide_eq_true_1 in Hname. exfalso. exact (Hk rule Hin Hn Hname).
    + destruct (Z.ltb_spec model_context_tokens (prompt_tokens + v)) as [Hagain|_];
        [|reflexivity].
      f_equal. apply map_eq. intros k. rewrite updated_lookup.
      replace (Z.max (model_context_tokens - prompt_tokens) 16) with v by reflexivity.
      destruct (existsb (fun rule => _ && _) parameter_rules) eqn:He; [|reflexivity].
      unfold parameters'. rewrite updated_lookup, He. reflexivity.
  - fold M. split; [reflexivity|]. split; [reflexivity|]. split; [left; lia|].
    split; [reflexivity|].
    destruct (Z.ltb_spec model_context_tokens (prompt_tokens + M)); [lia | reflexivity].
Qed.

End runner_properties.

Section pipeline_properties.
Import BasedGenerateTaskPipeline.

Lemma error_to_desc_not_empty (description : PyExc -> option (option string)) (e : PyExc) :
  _error_to_desc description e <> "".
Proof.
  unfold _error_to_desc. destruct (isinstance e "QuotaExceededError"); [discriminate|].
  destruct (description e) as [[text|]|]; cbv zeta; try discriminate;
    case_bool_decide; try discriminate; assumption.
Qed.

(** X15.  [_handle_error] returns the same exception with or without a
    session.  Given a session and the id of a message in it, it marks that
    message and no other: its status becomes ["error"] and its error text is
    the description of the returned exception, which is never empty.  With
    no message id, or an id the session does not know, nothing is written. *)
Theorem handle_error_records_a_description
    (description : PyExc -> option (option string)) (e : PyExc)
    (session : option (gmap string Message)) (message_id : string) :
  let '(err, session') := _handle_error description e session message_id in
  err = fst (_handle_error description e None "") /\
  match session with
  | None => session' = None
  | Some messages =>
      exists messages',
        session' = Some messages' /\
        (forall id, id <> message_id -> messages' !! id = messages !! id) /\
        match messages !! message_id with
        | None => messages' = messages
        | Some message =>
            if bool_decide (message_id = "") then messages' = messages
            else exists err_desc,
                   messages' !! message_id = Some (mkMessage "error" (Some err_desc)) /\
                   err_desc = _error_to_desc description err /\
                   err_desc <> ""
        end
  end.
Proof.
  unfold _handle_error. cbv zeta. cbn [fst].
  destruct session as [messages|]; [|split; reflexivity].
  case_bool_decide as Hid.
  { split; [reflexivity|]. exists messages. split; [reflexivity|]. split; [reflexivity|].
    destruct (messages !! message_id); reflexivity. }
  destruct (messages !! message_id) as [message|] eqn:Hm.
  - split; [reflexivity|]. eexists. split; [reflexivity|]. split.
    + intros id Hne. apply lookup_insert_ne. congruence.
    + eexists. split; [apply lookup_insert_eq|]. split; [reflexivity|].
      apply error_to_desc_not_empty.
  - split; [reflexivity|]. exists messages. split; [reflexivity|]. split; reflexivity.
Qed.

End pipeline_properties.

Section endpoint_properties.
Import AppQueueManager.

(** X16.  [CompletionStopApi.post] on a task that a queue manager has
    registered: for an app in completion mode it answers
    [{"result": "success"}, 200] whether or not it stopped anything, and the
    task is stopped afterwards if and only if it was stopped already or it
    belongs to this end user (an owner in the ["end-user"] namespace with the
    same id).  For any other mode it raises [AppUnavailableError] and
    leaves the store alone. *)
Theorem stop_endpoint_reports_success_either_way
    (task_id user_id : string) (invoke_from : InvokeFrom) (r r1 : Redis) (self : t)
    (app_mode end_user_id : string) :
  __init__ task_id user_id invoke_from r = (Ok self, r1) ->
  let '(res, r2) := CompletionStopApi.post app_mode end_user_id task_id r1 in
  if bool_decide (app_mode = "completion")
  then res = Ok (PyDict [("result", PyStr "success")], 200) /\
       (_is_stopped self r2 = true <->
        _is_stopped self r = true \/
        (user_prefix invoke_from = "end-user" /\ end_user_id = user_id))
  else res = Raise AppUnavailableError /\ r2 = r1.
Proof.
  intros Hinit. unfold CompletionStopApi.post.
  destruct (decide (app_mode = "completion")) as [Hm|Hm].
  2:{ rewrite bool_decide_eq_true_2 by exact Hm.
      rewrite bool_decide_eq_false_2 by exact Hm. split; reflexivity. }
  rewrite bool_decide_eq_false_2 by (intros Hne; exact (Hne Hm)).
  rewrite bool_decide_eq_true_2 by exact Hm. split; [reflexivity|].
  destruct (init_registers_owner task_id user_id invoke_from r r1 self Hinit)
    as (Hid & _ & _ & Hget & Hflag).
  destruct (decide ((user_prefix SERVICE_API, end_user_id) = (user_prefix invoke_from, user_id)))
    as [Heq|Hne].
  - split; [|intros _].
    + intros _. right. inversion Heq. auto.
    + apply belongs_to_inj in Heq. rewrite <- Heq in Hget.
      apply set_stop_flag_by_owner; assumption.
  - rewrite (set_stop_flag_not_owner task_id user_id invoke_from SERVICE_API end_user_id r1
               Hget Hne).
    rewrite Hflag. split; [auto|].
    intros [H|[Hp Hu]]; [exact H|]. exfalso. apply Hne. simpl. congruence.
Qed.

End endpoint_properties.

(** ** Across the parts *)

Section limiter_locality.
Import RateLimit.

Lemma string_app_inv_tail (s s1 : string) :
  forall s2, s1 +:+ s = s2 +:+ s -> s1 = s2.
Proof.
  induction s1 as [|a s1 IH]; intros [|b s2] H.
  - reflexivity.
  - assert (Hlen := f_equal String.length H).
    rewrite !string_length_app in Hlen. cbn in Hlen. lia.
  - assert (Hlen := f_equal String.length H).
    rewrite !string_length_app in Hlen. cbn in Hlen. lia.
  - cbv beta iota delta [String.append] in H; fold String.append in H.
    inversion H. f_equal. apply IH. assumption.
Qed.

Lemma hgetall_hdel_ne (name name' : string) (keys : list string) (r : Redis) :
  name' <> name ->
  redis_client.hgetall name' (redis_client.hdel name keys r) = redis_client.hgetall name' r.
Proof. intros Hne. rewrite !hgetall_alt, hashes_hdel_ne by congruence. reflexivity. Qed.

Lemma hgetall_hset_ne (name key name' : string) (value : Q) (r : Redis) :
  name' <> name ->
  redis_client.hgetall name' (redis_client.hset name key value r) = redis_client.hgetall name' r.
Proof. intros Hne. rewrite !hgetall_alt, hashes_hset_ne by congruence. reflexivity. Qed.

Lemma get_setex_ne (name name' : string) (time : Z) (value : RVal) (r : Redis) :
  name' <> name ->
  redis_client.get name' (redis_client.setex name time value r) = redis_client.get name' r.
Proof.
  intros Hne. rewrite get_setex. rewrite bool_decide_eq_false_2 by congruence. reflexivity.
Qed.

Lemma same_elsewhere_refl (active ceiling : string) (r : Redis) :
  same_elsewhere active ceiling r r.
Proof. split; reflexivity. Qed.

Lemma same_elsewhere_trans (active ceiling : string) (r1 r2 r3 : Redis) :
  same_elsewhere active ceiling r1 r2 -> same_elsewhere active ceiling r2 r3 ->
  same_elsewhere active ceiling r1 r3.
Proof.
  intros [Hh Hg] [Hh' Hg']. split; intros name Hne.
  - rewrite Hh, Hh' by exact Hne. reflexivity.
  - rewrite Hg, Hg' by exact Hne. reflexivity.
Qed.

Lemma same_elsewhere_setex (active ceiling : string) (time : Z) (value : RVal) (r : Redis) :
  same_elsewhere active ceiling (redis_client.setex ceiling time value r) r.
Proof. split; intros name Hne; [reflexivity | apply get_setex_ne; exact Hne]. Qed.

Lemma same_elsewhere_expire (active ceiling name : string) (time : Z) (r : Redis) :
  same_elsewhere active ceiling (redis_client.expire name time r) r.
Proof. split; intros k Hne; [apply hgetall_expire | apply get_expire]. Qed.

Lemma same_elsewhere_hdel (active ceiling : string) (keys : list string) (r : Redis) :
  same_elsewhere active ceiling (redis_client.hdel active keys r) r.
Proof. split; intros k Hne; [apply hgetall_hdel_ne; exact Hne | apply get_hdel]. Qed.

Lemma same_elsewhere_hset (active ceiling key : string) (value : Q) (r : Redis) :
  same_elsewhere active ceiling (redis_client.hset active key value r) r.
Proof. split; intros k Hne; [apply hgetall_hset_ne; exact Hne | apply get_hset]. Qed.

Ltac elsewhere :=
  repeat first
    [ apply same_elsewhere_refl
    | eapply same_elsewhere_trans;
      [first [apply same_elsewhere_hdel | apply same_elsewhere_hset
             | apply same_elsewhere_expire | apply same_elsewhere_setex]|] ].

Lemma flush_cache_local (now : Q) (use_local_value : bool) (self : t) (r : Redis) (a : Attrs) :
  initialized self = Some a ->
  same_elsewhere (active_requests_key a) (max_active_requests_key a)
    (snd (snd (flush_cache now use_local_value (self, r)))) r /\
  exists a', initialized (fst (snd (flush_cache now use_local_value (self, r)))) = Some a' /\
             active_requests_key a' = active_requests_key a /\
             max_active_requests_key a' = max_active_requests_key a.
Proof.
  intros Hinit.
  unfold flush_cache, bind, get_state, ret, set_last_recalculate_time, attrs, redis_ask, redis_do.
  cbn [fst snd]. destruct (disabled self).
  { cbn [fst snd]. split; [elsewhere | eauto]. }
  cbn [fst snd]. rewrite Hinit.
  cbn [fst snd initialized max_active_requests_key active_requests_key].
  destruct (use_local_value || negb _); cbn [fst snd].
  - destruct (redis_client.exists_ (active_requests_key a) _); cbn;
      [destruct (timeout_requests now _) as [|k stale]; cbn|];
      (split; [elsewhere | eauto]).
  - unfold get_int. cbn [fst snd].
    destruct (redis_client.get (max_active_requests_key a) r) as [v|];
      [destruct (int_ (decode v)) as [z|]|]; cbn;
      try (split; [elsewhere | eauto]; fail).
    destruct (redis_client.exists_ (active_requests_key a) _); cbn;
      [destruct (timeout_requests now _) as [|k stale]; cbn|];
      (split; [elsewhere | eauto]).
Qed.

Lemma refresh_local (now : Q) (self : t) (r : Redis) (a : Attrs) :
  initialized self = Some a ->
  same_elsewhere (active_requests_key a) (max_active_requests_key a)
    (snd (snd (refresh now (self, r)))) r /\
  exists a', initialized (fst (snd (refresh now (self, r)))) = Some a' /\
             active_requests_key a' = active_requests_key a /\
             max_active_requests_key a' = max_active_requests_key a.
Proof.
  intros Hinit. unfold refresh, bind, attrs. cbn [fst snd]. rewrite Hinit.
  destruct (flush_is_due now a).
  - apply flush_cache_local. exact Hinit.
  - cbn. split; [elsewhere | eauto].
Qed.

(** X17.  The methods of a [RateLimit] instance touch only the two keys of
    its client: after [flush_cache], [enter] or [exit] on an initialized
    instance every hash other than its active-requests hash has the members
    it had, and every string key other than its ceiling key reads as before.
    The key templates are injective in the client id, so the limiter of one
    client never changes the records or the ceiling of another. *)
Theorem limiter_methods_touch_only_their_keys
    (now : Q) (use_local_value : bool) (uuid4 : string) (request_id : option string)
    (leaving : string) (self : t) (r : Redis) (a : Attrs) :
  initialized self = Some a ->
  let local r' :=
    (forall name, name <> active_requests_key a ->
       redis_client.hgetall name r' = redis_client.hgetall name r) /\
    (forall name, name <> max_active_requests_key a ->
       redis_client.get name r' = redis_client.get name r) in
  local (snd (snd (flush_cache now use_local_value (self, r)))) /\
  local (snd (snd (enter now uuid4 request_id (self, r)))) /\
  local (snd (snd (exit leaving (self, r)))) /\
  (forall client_id client_id',
     (_ACTIVE_REQUESTS_KEY client_id = _ACTIVE_REQUESTS_KEY client_id' -> client_id = client_id') /\
     (_MAX_ACTIVE_REQUESTS_KEY client_id = _MAX_ACTIVE_REQUESTS_KEY client_id' ->
      client_id = client_id')).
Proof.
  intros Hinit. cbv zeta.
  change (same_elsewhere (active_requests_key a) (max_active_requests_key a)
            (snd (snd (flush_cache now use_local_value (self, r)))) r /\
          same_elsewhere (active_requests_key a) (max_active_requests_key a)
            (snd (snd (enter now uuid4 request_id (self, r)))) r /\
          same_elsewhere (active_requests_key a) (max_active_requests_key a)
            (snd (snd (exit leaving (self, r)))) r /\
          (forall client_id client_id',
             (_ACTIVE_REQUESTS_KEY client_id = _ACTIVE_REQUESTS_KEY client_id' ->
              client_id = client_id') /\
             (_MAX_ACTIVE_REQUESTS_KEY client_id = _MAX_ACTIVE_REQUESTS_KEY client_id' ->
              client_id = client_id'))).
  split; [apply flush_cache_local; exact Hinit|]. split; [|split].
  - destruct (disabled self) eqn:Hdis.
    { rewrite enter_disabled by exact Hdis. apply same_elsewhere_refl. }
    rewrite enter_enabled by exact Hdis.
    destruct (refresh_local now self r a Hinit) as (Hsame & a' & Ha' & Hk & _).
    destruct (refresh now (self, r)) as [[[]|e] [self1 r1]]; cbn [fst snd] in *;
      [|exact Hsame].
    rewrite Ha'. destruct (_ <=? _); cbn [fst snd]; [exact Hsame|].
    rewrite Hk. eapply same_elsewhere_trans; [apply same_elsewhere_hset | exact Hsame].
  - unfold exit. case_bool_decide; [apply same_elsewhere_refl|].
    unfold bind, attrs, redis_do. cbn [fst snd]. rewrite Hinit. cbn [fst snd].
    apply same_elsewhere_hdel.
  - intros client_id client_id'. unfold _ACTIVE_REQUESTS_KEY, _MAX_ACTIVE_REQUESTS_KEY.
    split; intros H;
      (cbv beta iota delta [String.append] in H; fold String.append in H);
      inversion H as [H']; exact (string_app_inv_tail _ _ _ H').
Qed.

End limiter_locality.

Section limiter_reclaims.
Import RateLimit.

Lemma purged_is_fresh (now : Q) (h : gmap string Q) :
  foldr delete h (timeout_requests now h) = fresh_records now h.
Proof.
  apply map_eq. intros k. unfold fresh_records.
  destruct (decide (k ∈ timeout_requests now h)) as [Hin|Hout].
  - rewrite foldr_delete_lookup by exact Hin.
    apply timeout_requests_elem in Hin as (t0 & Hk & Hst).
    symmetry. apply map_lookup_filter_None. right. intros t1 Hk1. simpl.
    rewrite Hk in Hk1. inversion Hk1; subst. congruence.
  - rewrite foldr_delete_lookup_ne by exact Hout.
    destruct (h !! k) as [t0|] eqn:Hk.
    + symmetry. apply map_lookup_filter_Some. split; [exact Hk|]. simpl.
      destruct (Qltb (inject_Z _REQUEST_MAX_ALIVE_TIME) (now - t0)) eqn:Hst; [|reflexivity].
      exfalso. apply Hout. apply timeout_requests_elem. eauto.
    + symmetry. apply map_lookup_filter_None. left. exact Hk.
Qed.

(** X20.  A record blocks a slot for a limited time.  When the lazy refresh
    of [enter] is due, on an enabled limiter whose stored ceiling agrees
    with the one in memory, [enter] counts only the records that have been
    alive for at most 600 seconds: with fewer of those than the ceiling the
    request is admitted and the hash holds those records and the new one;
    otherwise [AppInvokeQuotaExceededError] is raised and the hash holds
    those records.  Stale records are gone either way. *)
Theorem enter_counts_the_fresh_records_when_refresh_is_due
    (now : Q) (uuid4 : string) (request_id : option string)
    (self : t) (r : Redis) (a : Attrs) :
  0 < max_active_requests self ->
  initialized self = Some a ->
  coherent self r ->
  flush_is_due now a = true ->
  let key := active_requests_key a in
  let fresh := fresh_records now (redis_client.hgetall key r) in
  let rid := request_key uuid4 request_id in
  (Z.of_nat (size fresh) < max_active_requests self ->
     exists self1 r2,
       enter now uuid4 request_id (self, r) = (Ok rid, (self1, r2)) /\
       redis_client.hgetall key r2 = <[rid := now]> fresh) /\
  (max_active_requests self <= Z.of_nat (size fresh) ->
     exists self1 r1,
       enter now uuid4 request_id (self, r)
         = (Raise (quota_exceeded (client_id a) (max_active_requests self)), (self1, r1)) /\
       redis_client.hgetall key r1 = fresh).
Proof.
  intros Hpos Hinit (a0 & Hinit0 & Hhash & Hkeys & Hceil) Hdue. cbv zeta.
  rewrite Hinit in Hinit0. inversion Hinit0; subst a0. clear Hinit0.
  assert (Hdis : disabled self = false) by (unfold disabled; lia).
  destruct (flush_cache_keeps now self r a Hdis Hinit Hhash Hkeys Hceil)
    as (r1 & Hflush & _ & _ & _).
  assert (Hmembers : redis_client.hgetall (active_requests_key a) r1
                     = fresh_records now (redis_client.hgetall (active_requests_key a) r)).
  { rewrite (flush_cache_hgetall now false self _ r r1 a Hdis Hinit Hflush).
    apply purged_is_fresh. }
  assert (Href : refresh now (self, r)
                 = (Ok tt, (mk (max_active_requests self) (Some (touch now a)), r1))).
  { unfold refresh, bind, attrs. cbn [fst snd]. rewrite Hinit, Hdue. exact Hflush. }
  pose proof (enter_enabled now uuid4 request_id self r Hdis) as Henter.
  rewrite Href in Henter. cbn [initialized max_active_requests touch active_requests_key
                                 client_id] in Henter.
  unfold redis_client.hlen in Henter. rewrite Hmembers in Henter.
  split; intros Hcount.
  - destruct (Z.leb_spec (max_active_requests self)
                (Z.of_nat (size (fresh_records now
                   (redis_client.hgetall (active_requests_key a) r))))); [lia|].
    eexists _, _. split; [exact Henter|].
    rewrite hgetall_hset, Hmembers. reflexivity.
  - destruct (Z.leb_spec (max_active_requests self)
                (Z.of_nat (size (fresh_records now
                   (redis_client.hgetall (active_requests_key a) r))))); [|lia].
    eexists _, _. split; [exact Henter | exact Hmembers].
Qed.

End limiter_reclaims.

Section stop_request_reaches_the_stream.
Import AppQueueManager.

(** X18.  A stop request of the owner reaches the stream.  Let a queue
    manager have registered a task for a user, and let [set_stop_flag] be
    called for that task with the same user id from the same namespace.  A
    turn of a running [listen()] of that task that reads the store after the
    call then publishes a [QueueStopEvent] with [USER_MANUAL] from
    [TASK_PIPELINE], and the event is in the channel after the turn. *)
Theorem owner_stop_request_reaches_the_stream
    (task_id user_id : string) (invoke_from invoke_from' : InvokeFrom)
    (r r1 : Redis) (self0 : t) (p : Poll) (l : Listening) :
  __init__ task_id user_id invoke_from r = (Ok self0, r1) ->
  user_prefix invoke_from' = user_prefix invoke_from ->
  state l = Running ->
  _task_id (self l) = task_id ->
  store p = set_stop_flag task_id invoke_from' user_id r1 ->
  In (QueueStopEvent USER_MANUAL, TASK_PIPELINE) (published (snd (listen_poll p l))) /\
  In (Some (QueueStopEvent USER_MANUAL)) (_q (self (fst (listen_poll p l)))).
Proof.
  intros Hinit Hprefix Hs Hid Hstore.
  destruct (init_registers_owner task_id user_id invoke_from r r1 self0 Hinit)
    as (_ & _ & _ & Hget & _).
  assert (Howner : belongs_to invoke_from' user_id = belongs_to invoke_from user_id)
    by (unfold belongs_to; rewrite Hprefix; reflexivity).
  rewrite <- Howner in Hget.
  assert (Hdue : stop_due p l = true).
  { unfold stop_due. rewrite Hstore.
    rewrite (set_stop_flag_by_owner task_id user_id invoke_from' r1 (self l) Hid Hget).
    apply orb_true_r. }
  destruct (listen_poll_turn p l Hs) as (Hpub & _ & Hself & _).
  assert (Hin : In (QueueStopEvent USER_MANUAL, TASK_PIPELINE) (finally_events p l)).
  { unfold finally_events. rewrite Hdue. left. reflexivity. }
  rewrite Hpub, Hself. split; [exact Hin|].
  simpl. apply in_or_app. right. unfold queued.
  apply (in_map (fun x => Some (fst x))) in Hin. exact Hin.
Qed.

End stop_request_reaches_the_stream.

Section error_path.
Import ChatAppGenerator.

(** X19.  The text of an authorization error never reaches the client.  When
    the body of the worker raises an [InvokeAuthorizationError] (that is no
    [GenerateTaskStoppedError]), the worker publishes one error event at the
    end of the channel, and [_handle_error] of the pipeline turns the error
    of that event into an [InvokeAuthorizationError] with the fixed text,
    whatever the message of the exception raised, the session and the
    message id. *)
Theorem authorization_error_reaches_the_client_sanitized
    (work : Work) (queue_manager queue_manager1 : AppQueueManager.t) (e : PyExc) :
  work queue_manager = (Raise e, queue_manager1) ->
  isinstance e "GenerateTaskStoppedError" = false ->
  isinstance e "InvokeAuthorizationError" = true ->
  exists reported,
    _generate_worker work queue_manager
    = (Ok tt, AppQueueManager.with_q
                (AppQueueManager._q queue_manager1 ++ [Some (QueueErrorEvent reported)])
                queue_manager1) /\
    forall description session message_id,
      fst (BasedGenerateTaskPipeline._handle_error description reported session message_id)
      = InvokeAuthorizationError "提供的API密钥不正确".
Proof.
  intros Hwork Hstop Hauth. eexists. split.
  - unfold _generate_worker. rewrite Hwork. unfold handle. rewrite Hstop, Hauth. reflexivity.
  - intros description session message_id. unfold BasedGenerateTaskPipeline._handle_error.
    cbv zeta.
    replace (isinstance (InvokeAuthorizationError "提供的API key不正确") "InvokeAuthorizationError")
      with true by reflexivity.
    destruct session as [messages|]; [|reflexivity].
    case_bool_decide; [reflexivity|]. destruct (messages !! message_id); reflexivity.
Qed.

End error_path.

(** * The theorems at concrete inputs *)

Section concrete_inputs.

Lemma listen_yields_hello :
  let run :=
    AppQueueManager.listen_run
      [quiet_poll 1; quiet_poll 2; quiet_poll 3; quiet_poll 4; quiet_poll 30]
      (AppQueueManager.listen 1200 0
         (AppQueueManager.stop_listen
            (AppQueueManager.with_q (queued hello_events) hello_queue))) in
  AppQueueManager.yields (snd run) = map fst hello_events /\
  AppQueueManager.state (fst run) = AppQueueManager.Finished.
Proof.
  apply (listen_yields_published_then_terminates hello_events hello_queue).
  - reflexivity.
  - reflexivity.
  - simpl. lia.
Defined.

Lemma stop_published_once_at_deadline :
  AppQueueManager.published (snd (AppQueueManager.listen_poll late_poll (quiet_listener [])))
  = [(QueueStopEvent USER_MANUAL, TASK_PIPELINE)].
Proof.
  rewrite (stop_published_once_when_due late_poll (quiet_listener []) eq_refl eq_refl).
  reflexivity.
Defined.

Lemma stranger_cannot_stop_X :
  AppQueueManager.set_stop_flag "X" SERVICE_API "u1" registry_of_X = registry_of_X /\
  AppQueueManager._is_stopped (AppQueueManager.mk "X" "u2" SERVICE_API [])
    (AppQueueManager.set_stop_flag "X" SERVICE_API "u1" registry_of_X) = false.
Proof.
  destruct (set_stop_flag_needs_owner "X" "u2" SERVICE_API SERVICE_API "u1" registry_of_X
              (AppQueueManager.mk "X" "u2" SERVICE_API []))
    as (Hsame & Hflag & _).
  - right. split; [reflexivity|]. intros H. inversion H.
  - split; [exact Hsame|]. rewrite Hflag. reflexivity.
Defined.

Lemma app_world_holds_limiter :
  RateLimit._instance_dict app_world !! "app" = Some app_limiter.
Proof. vm_compute. reflexivity. Qed.

Lemma app_limiter_admits :
  RateLimit.enter 1 "uuid-1" (Some "request-1") (app_limiter, RateLimit.redis app_world)
  = (Ok "request-1",
     (app_limiter,
      redis_client.hset (RateLimit._ACTIVE_REQUESTS_KEY "app") "request-1" 1
        (RateLimit.redis app_world))).
Proof.
  destruct (enter_counts_against_ceiling 1 "uuid-1" (Some "request-1")
              app_limiter (RateLimit.redis app_world)
              app_limiter (RateLimit.redis app_world) app_attrs)
    as (_ & Hfree & _).
  - simpl. lia.
  - reflexivity.
  - reflexivity.
  - destruct Hfree as [Henter _]; [vm_compute; reflexivity | exact Henter].
Defined.

Lemma disabled_limiter_admits :
  RateLimit.enter 1 "uuid-1" (Some "request-1") (RateLimit.mk 0 None, redis_client.empty)
  = (Ok RateLimit._UNLIMITED_REQUEST_ID, (RateLimit.mk 0 None, redis_client.empty)).
Proof.
  apply (disabled_limiter_is_noop 1 "uuid-1" (Some "request-1") (RateLimit.mk 0 None)
           redis_client.empty).
  simpl. lia.
Defined.

Lemma app_limiter_constructed_again :
  RateLimit.construct 5 "app" 7 app_world
  = (Ok "app",
     RateLimit.mkWorld
       (<["app" := RateLimit.mk 7 (Some app_attrs)]> (RateLimit._instance_dict app_world))
       (RateLimit.redis app_world)).
Proof.
  apply (construct_reuses_initialized_instance 5 "app" 7 app_world app_limiter app_attrs).
  - exact app_world_holds_limiter.
  - reflexivity.
Defined.

Lemma event_with_record_is_rejected :
  AppQueueManager.publish event_with_record APPLICATION_MANAGER hello_queue
  = Raise sqlalchemy_error.
Proof.
  apply (proj1 (proj2 (publish_rejects_scanned_handles event_with_record
                         APPLICATION_MANAGER hello_queue)) (PyObject message_record)).
  - exists message_record. split; [reflexivity | right; reflexivity].
  - apply below_a_value with "retriever_resources"
      (PyList [PyDict [("message", PyObject message_record)]]); [right; left; reflexivity|].
    apply below_an_item with (PyDict [("message", PyObject message_record)]);
      [left; reflexivity|].
    apply below_a_value with "message" (PyObject message_record); [left; reflexivity|].
    constructor.
Defined.

Lemma failing_work_is_reported :
  ChatAppGenerator._generate_worker failing_work hello_queue
  = (Ok tt,
     AppQueueManager.with_q [Some (QueueErrorEvent (ValueError "query is required"))] hello_queue).
Proof.
  destruct (worker_republishes_exceptions failing_work hello_queue hello_queue
              (ValueError "query is required") eq_refl eq_refl)
    as (queue_manager2 & Hworker & _).
  rewrite Hworker. vm_compute in Hworker. inversion Hworker. reflexivity.
Defined.

Lemma flush_keeps_the_fresh_record :
  redis_client.hgetall (RateLimit._ACTIVE_REQUESTS_KEY "app")
    (snd (snd (RateLimit.flush_cache 1000 false (app_limiter, two_records)))) !! "new"
  = Some 900%Q.
Proof.
  apply (flush_cache_drops_exactly_the_stale 1000 false app_limiter
           (fst (snd (RateLimit.flush_cache 1000 false (app_limiter, two_records))))
           two_records
           (snd (snd (RateLimit.flush_cache 1000 false (app_limiter, two_records))))
           app_attrs).
  - reflexivity.
  - reflexivity.
  - vm_compute. reflexivity.
  - split; [vm_compute; reflexivity|]. unfold Qle. vm_compute. discriminate.
Defined.

Lemma flush_takes_the_stored_ceiling :
  stored_int (RateLimit._MAX_ACTIVE_REQUESTS_KEY "app")
    (snd (snd (RateLimit.flush_cache 400 false (raised_limiter, ceiling_as_text))))
  = Some (RateLimit.max_active_requests
            (fst (snd (RateLimit.flush_cache 400 false (raised_limiter, ceiling_as_text))))) /\
  RateLimit.max_active_requests
    (fst (snd (RateLimit.flush_cache 400 false (raised_limiter, ceiling_as_text))))
  = 7.
Proof.
  destruct (flush_cache_settles_the_ceiling 400 false raised_limiter
              (fst (snd (RateLimit.flush_cache 400 false (raised_limiter, ceiling_as_text))))
              ceiling_as_text
              (snd (snd (RateLimit.flush_cache 400 false (raised_limiter, ceiling_as_text))))
              app_attrs) as (_ & Hstore & _).
  - reflexivity.
  - reflexivity.
  - vm_compute. reflexivity.
  - split; [exact Hstore | vm_compute; reflexivity].
Defined.

Lemma app_limiter_stays_within_two :
  redis_client.hlen (RateLimit._ACTIVE_REQUESTS_KEY "app")
    (redis_client.hset (RateLimit._ACTIVE_REQUESTS_KEY "app") "request-1" 1
       (RateLimit.redis app_world)) <= 2.
Proof.
  apply (enter_stays_within_ceiling 1 "uuid-1" (Some "request-1")
           app_limiter app_limiter (RateLimit.redis app_world)
           (redis_client.hset (RateLimit._ACTIVE_REQUESTS_KEY "app") "request-1" 1
              (RateLimit.redis app_world))
           "request-1" app_attrs).
  - reflexivity.
  - vm_compute. reflexivity.
  - reflexivity.
Defined.

Lemma app_limiter_round_trip :
  redis_client.hgetall (RateLimit._ACTIVE_REQUESTS_KEY "app")
    (snd (snd (RateLimit.exit "request-1"
                 (snd (RateLimit.enter 1 "uuid-1" (Some "request-1")
                         (app_limiter, RateLimit.redis app_world))))))
  = redis_client.hgetall (RateLimit._ACTIVE_REQUESTS_KEY "app") (RateLimit.redis app_world).
Proof.
  destruct (exit_undoes_enter 1 "uuid-1" (Some "request-1")
              app_limiter app_limiter (RateLimit.redis app_world)
              (redis_client.hset (RateLimit._ACTIVE_REQUESTS_KEY "app") "request-1" 1
                 (RateLimit.redis app_world))
              "request-1" app_attrs) as (r1 & r3 & Href & Hexit & _ & Hsame).
  - reflexivity.
  - vm_compute. reflexivity.
  - reflexivity.
  - discriminate.
  - vm_compute in Href. injection Href as <-. vm_compute. reflexivity.
Defined.

Lemma broken_stream_passes_through :
  let '(chunks, end_, s) :=
    RateLimitGenerator.drain 5 (RateLimitGenerator.__init__ "app" broken_stream "request-1",
                                one_slot_taken) in
  chunks = ["Hel"] /\ end_ = Some (ValueError "boom") /\
  RateLimitGenerator.closed (fst s) = true.
Proof.
  pose proof (wrapper_passes_the_stream_through broken_stream 5 "app" "request-1" one_slot_taken)
    as H.
  destruct (RateLimitGenerator.drain 5 _) as [[chunks end_] s].
  destruct H as (-> & -> & _ & -> & _); [simpl; lia|].
  repeat split.
Defined.

Lemma web_app_user_stops_X :
  AppQueueManager._is_stopped (AppQueueManager.mk "X" "u2" SERVICE_API [])
    (AppQueueManager.set_stop_flag "X" WEB_APP "u2" registry_of_X) = true.
Proof.
  apply (stop_flag_is_set_exactly_by_the_owner "X" "u2" SERVICE_API redis_client.empty
           registry_of_X (AppQueueManager.mk "X" "u2" SERVICE_API []) WEB_APP "u2").
  - reflexivity.
  - right. split; reflexivity.
Defined.

Lemma hello_is_yielded_in_channel_order :
  AppQueueManager.yields (snd (AppQueueManager.listen_run hello_polls hello_listener))
  = ahead_of_sentinel
      (AppQueueManager._q (AppQueueManager.self hello_listener)
       ++ entered hello_polls hello_listener).
Proof.
  apply (listen_yields_in_channel_order hello_polls hello_listener).
  - reflexivity.
  - vm_compute. reflexivity.
Defined.

Lemma two_attempts_in_one_second_count_once :
  fst (RateLimiter.is_rate_limited 7 daily_limiter "tenant"
         (limiter_calls daily_limiter "tenant" three_attempts ∅)) = Ok false.
Proof.
  pose proof (daily_limit_counts_seconds_in_window daily_limiter "tenant" three_attempts 7 ∅)
    as H.
  destruct (RateLimiter.is_rate_limited 7 daily_limiter "tenant" _) as [limited z'].
  destruct H as [_ ->].
  - reflexivity.
  - intros checked [H|[H|[H|[H|[H|[H|[]]]]]]]; inversion H; lia.
  - vm_compute. reflexivity.
Defined.

Lemma blocking_chat_leaves_no_record :
  redis_client.hgetall (RateLimit._ACTIVE_REQUESTS_KEY "app")
    (RateLimit.redis (snd (snd (AppGenerateService.generate chat_env chat_app false fresh_state))))
  ⊆ redis_client.hgetall (RateLimit._ACTIVE_REQUESTS_KEY "app")
      (RateLimit.redis (snd fresh_state)).
Proof.
  apply (generate_leaves_no_record chat_env chat_app false fresh_state
           (snd (AppGenerateService.generate chat_env chat_app false fresh_state))
           (fst (AppGenerateService.generate chat_env chat_app false fresh_state))).
  - discriminate.
  - discriminate.
  - apply surjective_pairing.
  - left. reflexivity.
Defined.

Lemma streaming_chat_holds_its_slot :
  redis_client.hgetall (RateLimit._ACTIVE_REQUESTS_KEY "app")
    (RateLimit.redis (snd (snd (AppGenerateService.generate chat_env chat_app true fresh_state))))
    !! "uuid-1" = Some 101%Q.
Proof.
  destruct (generate_streaming_holds_the_slot chat_env chat_app fresh_state
              (snd (AppGenerateService.generate chat_env chat_app true fresh_state))
              (RateLimitGenerator.mk "app" [Ok "Hel"; Ok "lo"] "uuid-1" false))
    as (_ & self & a & Hd & Ha & Hrec & _).
  - discriminate.
  - discriminate.
  - reflexivity.
  - vm_compute. reflexivity.
  - vm_compute in Hd. injection Hd as <-. vm_compute in Ha. injection Ha as <-. exact Hrec.
Defined.

Lemma sandbox_attempt_is_recorded :
  redis_sorted_sets.zrange "app_daily_rate_limiter:tenant"
    (fst (snd (AppGenerateService.generate chat_env chat_app true fresh_state))) !! 100
  = Some 100.
Proof.
  apply (generate_counts_against_the_daily_limit chat_env chat_app true fresh_state
           (snd (AppGenerateService.generate chat_env chat_app true fresh_state))
           (fst (AppGenerateService.generate chat_env chat_app true fresh_state))).
  - reflexivity.
  - reflexivity.
  - apply surjective_pairing.
  - vm_compute. reflexivity.
Defined.

Lemma long_prompt_leaves_96_tokens :
  AppRunner.max_tokens_of max_tokens_rule
    (snd (AppRunner.recalc_llm_max_tokens (Some 4096) max_tokens_rule 4000 configured_512))
  = 96.
Proof.
  pose proof (recalc_llm_max_tokens_fits_the_context 4096 4000 max_tokens_rule configured_512
                eq_refl) as H.
  destruct (AppRunner.recalc_llm_max_tokens (Some 4096) max_tokens_rule 4000 configured_512)
    as [returned parameters'].
  cbn [snd]. destruct H as (_ & -> & _). vm_compute. reflexivity.
Defined.

Lemma stop_endpoint_stops_X :
  AppQueueManager._is_stopped (AppQueueManager.mk "X" "u2" SERVICE_API [])
    (snd (CompletionStopApi.post "completion" "u2" "X" registry_of_X)) = true.
Proof.
  pose proof (stop_endpoint_reports_success_either_way "X" "u2" SERVICE_API redis_client.empty
                registry_of_X (AppQueueManager.mk "X" "u2" SERVICE_API []) "completion" "u2"
                eq_refl) as H.
  destruct (CompletionStopApi.post "completion" "u2" "X" registry_of_X) as [res r2].
  rewrite bool_decide_eq_true_2 in H by reflexivity.
  destruct H as [_ H]. apply H. right. split; reflexivity.
Defined.

Lemma app_limiter_leaves_other_clients_alone :
  redis_client.hgetall (RateLimit._ACTIVE_REQUESTS_KEY "other")
    (snd (snd (RateLimit.enter 1 "uuid-1" (Some "request-1")
                 (app_limiter, RateLimit.redis app_world))))
  = redis_client.hgetall (RateLimit._ACTIVE_REQUESTS_KEY "other") (RateLimit.redis app_world).
Proof.
  destruct (limiter_methods_touch_only_their_keys 1 false "uuid-1" (Some "request-1")
              "request-1" app_limiter (RateLimit.redis app_world) app_attrs eq_refl)
    as (_ & [Hhashes _] & _).
  apply Hhashes. intros H. vm_compute in H. discriminate H.
Defined.

Lemma stop_of_X_reaches_its_stream :
  In (QueueStopEvent USER_MANUAL, TASK_PIPELINE)
     (AppQueueManager.published (snd (AppQueueManager.listen_poll poll_after_stop listener_of_X))).
Proof.
  apply (owner_stop_request_reaches_the_stream "X" "u2" SERVICE_API WEB_APP
           redis_client.empty registry_of_X (AppQueueManager.mk "X" "u2" SERVICE_API [])
           poll_after_stop listener_of_X).
  - reflexivity.
  - reflexivity.
  - reflexivity.
  - reflexivity.
  - reflexivity.
Defined.

Lemma provider_message_is_not_forwarded :
  exists reported,
    ChatAppGenerator._generate_worker unauthorized_work hello_queue
    = (Ok tt, AppQueueManager.with_q
                (AppQueueManager._q hello_queue ++ [Some (QueueErrorEvent reported)])
                hello_queue) /\
    forall description session message_id,
      fst (BasedGenerateTaskPipeline._handle_error description reported session message_id)
      = InvokeAuthorizationError "提供的API密钥不正确".
Proof.
  apply (authorization_error_reaches_the_client_sanitized unauthorized_work hello_queue
           hello_queue (InvokeAuthorizationError "Incorrect API key provided: sk-test")).
  - reflexivity.
  - reflexivity.
  - reflexivity.
Defined.

Lemma stale_record_does_not_block :
  fst (RateLimit.enter 1000 "uuid-1" (Some "request-3") (app_limiter, two_records))
  = Ok "request-3".
Proof.
  destruct (enter_counts_the_fresh_records_when_refresh_is_due 1000 "uuid-1" (Some "request-3")
              app_limiter two_records app_attrs) as [Hadmitted _].
  - reflexivity.
  - reflexivity.
  - exists app_attrs. split; [reflexivity|]. split; [vm_compute; reflexivity|].
    split; [intros H; vm_compute in H; discriminate H|].
    intros v H. vm_compute in H. injection H as <-. reflexivity.
  - vm_compute. reflexivity.
  - destruct Hadmitted as (self1 & r2 & Henter & _); [vm_compute; reflexivity|].
    rewrite Henter. reflexivity.
Defined.

End concrete_inputs.
